(** * seedeep-electron: the camera pipeline, embedded and verified

  A shallow embedding of the backend's core components
  (frame-rate governor, calibration, speed, session registry,
  Digest authentication, streaming relay and object tracker), each in a
  module named after the source file it follows.

  Numbers.  Python [int] is [Z] (a counter that starts at 0 and only
  grows is [N]).  Python [float] is modelled by exact numbers: rationals
  ([Q]) where the code only adds, divides and compares (the governor),
  and real numbers ([R]) where it takes square roots (calibration, speed,
  tracker).  Rounding, overflow and NaN are outside the model.

  Environment.  Readings of the clock ([time.time()]) and random draws
  ([uuid.uuid4()], [random.choices]) are inputs of the functions that
  make them.

  Libraries.  [hashlib.md5] and [base64.b64encode] are written out from
  their definitions.  Where numpy and Python leave an order open (the
  order of equal values in [argsort], whose default kind is not a stable
  sort, and the order in which a set hands over its elements), the order
  is an input as well: the tracker's environment gives it, and every
  order the libraries may choose is one the environment can give. *)

From Stdlib Require Import ZArith QArith Qfield Reals Lqa Lra Lia List Bool String Ascii.
From stdpp Require Import gmap strings list sorting.
Import ListNotations.

Set Warnings "-clear-no-such-hyp".

Local Open Scope Z_scope.

(* ===================================================================== *)
(** * app/utils/FPSRateLimiter.py *)
(* ===================================================================== *)

Module FPSRateLimiter.

(** The attributes of the Python object. *)
Record t := mk {
  target_fps      : Q;
  frame_interval  : Q;
  last_frame_time : option Q;
  frame_count     : Z;
  start_time      : Q
}.

(** [1.0 / target_fps if target_fps > 0 else 0] *)
Definition interval_of (fps : Q) : Q :=
  if Qlt_le_dec 0 fps then (1 / fps)%Q else 0%Q.

(** [__init__(target_fps)]; [now] is the clock reading taken for
    [start_time]. *)
Definition init (fps now : Q) : t :=
  {| target_fps := fps;
     frame_interval := interval_of fps;
     last_frame_time := None;
     frame_count := 0;
     start_time := now |}.

(** The two assignments made whenever a frame is accepted. *)
Definition accept (self : t) (current_time : Q) : t :=
  {| target_fps := target_fps self;
     frame_interval := frame_interval self;
     last_frame_time := Some current_time;
     frame_count := frame_count self + 1;
     start_time := start_time self |}.

(** [should_process_frame()]; [current_time] is its clock reading.
    Returns the decision and the object after the call. *)
Definition should_process_frame (self : t) (current_time : Q) : bool * t :=
  match last_frame_time self with
  | None => (true, accept self current_time)
  | Some last =>
      let elapsed := (current_time - last)%Q in
      if Qle_bool (frame_interval self) elapsed
      then (true, accept self current_time)
      else (false, self)
  end.

(** [update_target_fps(new_fps)] *)
Definition update_target_fps (self : t) (new_fps : Q) : t :=
  {| target_fps := new_fps;
     frame_interval := interval_of new_fps;
     last_frame_time := last_frame_time self;
     frame_count := frame_count self;
     start_time := start_time self |}.

(** [reset()] *)
Definition reset (self : t) (now : Q) : t :=
  {| target_fps := target_fps self;
     frame_interval := frame_interval self;
     last_frame_time := None;
     frame_count := 0;
     start_time := now |}.

(** Offering a sequence of frames, one call per frame, at the given
    clock readings: the decisions, and the object afterwards. *)
Fixpoint offer (self : t) (times : list Q) : list bool * t :=
  match times with
  | [] => ([], self)
  | now :: rest =>
      let '(d, self') := should_process_frame self now in
      let '(ds, self'') := offer self' rest in
      (d :: ds, self'')
  end.

(** The frames that got through: the readings whose decision was [true]. *)
Fixpoint accepted (times : list Q) (decisions : list bool) : list Q :=
  match times, decisions with
  | now :: ts, true :: ds => now :: accepted ts ds
  | _ :: ts, false :: ds => accepted ts ds
  | _, _ => []
  end.

(** The reading of the most recently accepted frame, if any. *)
Definition last_accepted (times : list Q) (decisions : list bool) : option Q :=
  last (accepted times decisions).

(** [wait_if_needed()]: [current_time] is its first clock reading and
    [after] the reading taken once any sleep is over.  Returns the time it
    asks [time.sleep] for (0 when it does not sleep) and the object
    afterwards.  The first call only notes the time. *)
Definition wait_if_needed (self : t) (current_time after : Q) : Q * t :=
  match last_frame_time self with
  | None =>
      (0%Q,
       {| target_fps := target_fps self;
          frame_interval := frame_interval self;
          last_frame_time := Some current_time;
          frame_count := frame_count self;
          start_time := start_time self |})
  | Some last =>
      let elapsed := (current_time - last)%Q in
      let sleep_time := (frame_interval self - elapsed)%Q in
      (if Qlt_le_dec 0 sleep_time then sleep_time else 0%Q,
       accept self after)
  end.

(** [get_actual_fps()]; [now] is its clock reading. *)
Definition get_actual_fps (self : t) (now : Q) : Q :=
  let elapsed_time := (now - start_time self)%Q in
  if Qeq_bool elapsed_time 0 then 0%Q
  else (inject_Z (frame_count self) / elapsed_time)%Q.

(** The calls a client may make on one governor, each with the clock
    readings it takes. *)
Inductive op :=
| ShouldProcessFrame (current_time : Q)
| WaitIfNeeded (current_time after : Q)
| UpdateTargetFps (new_fps : Q)
| Reset (now : Q).

Definition apply_op (self : t) (o : op) : t :=
  match o with
  | ShouldProcessFrame now => (should_process_frame self now).2
  | WaitIfNeeded now after => (wait_if_needed self now after).2
  | UpdateTargetFps new_fps => update_target_fps self new_fps
  | Reset now => reset self now
  end.

(** Each reading of [L] is at least [interval] after the one before it
    ([prev] standing before the first). *)
Fixpoint spaced (interval : Q) (prev : option Q) (L : list Q) : Prop :=
  match L with
  | [] => True
  | a :: L' =>
      match prev with
      | Some l => (interval <= a - l)%Q
      | None => True
      end /\ spaced interval (Some a) L'
  end.

(** The interval is the one the current target stands for. *)
Definition in_step (self : t) : Prop :=
  frame_interval self = interval_of (target_fps self).

End FPSRateLimiter.

(* ===================================================================== *)
(** * Python dictionaries *)
(* ===================================================================== *)

(** A [dict] keeps its keys in insertion order, and the tracker reads that
    order ([list(self.objects.keys())] fixes the rows of the distance
    matrix), so a dictionary is an association list: assigning to a key
    that is present replaces the value where it stands, assigning to a new
    key appends, [pop] removes. *)
Module PyDict.

Definition dict (V : Type) : Type := list (string * V).

(** [d.get(k)]; [d[k]] raises [KeyError] where this is [None]. *)
Fixpoint get {V} (k : string) (d : dict V) : option V :=
  match d with
  | [] => None
  | (k', v) :: d' => if String.eqb k k' then Some v else get k d'
  end.

(** [d[k] = v] *)
Fixpoint set {V} (k : string) (v : V) (d : dict V) : dict V :=
  match d with
  | [] => [(k, v)]
  | (k', v') :: d' =>
      if String.eqb k k' then (k', v) :: d' else (k', v') :: set k v d'
  end.

(** [d.pop(k, None)] *)
Fixpoint pop {V} (k : string) (d : dict V) : dict V :=
  match d with
  | [] => []
  | (k', v') :: d' => if String.eqb k k' then d' else (k', v') :: pop k d'
  end.

(** [list(d.keys())] *)
Definition keys {V} (d : dict V) : list string := map fst d.

(** [k in d] *)
Definition mem {V} (k : string) (d : dict V) : bool :=
  match get k d with Some _ => true | None => false end.

(** What [pop] does to the list of keys. *)
Fixpoint pop_key (k : string) (ks : list string) : list string :=
  match ks with
  | [] => []
  | k' :: ks' => if String.eqb k k' then ks' else k' :: pop_key k ks'
  end.

End PyDict.

(* ===================================================================== *)
(** * app/core/tracking/tracker.py *)
(* ===================================================================== *)

Module Tracker.
Import PyDict.

Local Open Scope R_scope.

(** What the tracker takes from its surroundings: the values successive
    calls of [str(uuid.uuid4())[:8]] and of [time.time()] return, and the
    two orders its libraries leave open.  [tie_rank xs] ranks the indices
    of the array [xs] that numpy's [argsort] is given: values that are
    equal come out by ascending rank.  [set_rank n used] ranks the
    elements of the set [set(range(n)) - used]: Python hands them over by
    ascending rank. *)
Record Env := mkEnv {
  uuid4_prefix : nat -> string;
  time_time    : nat -> R;
  tie_rank     : list R -> nat -> nat;
  set_rank     : nat -> list nat -> nat -> nat
}.

(** How many of each have been consumed, and (a ghost record, the code
    keeps none) the track ids [register] has returned so far, oldest
    first. *)
Record World := mkWorld {
  uuid_calls  : nat;
  clock_calls : nat;
  issued      : list string
}.

Definition world0 : World :=
  {| uuid_calls := 0; clock_calls := 0; issued := [] |}.

(** [app.schemas.detection.Detection] *)
Record Detection := mkDetection {
  x1 : R; y1 : R; x2 : R; y2 : R;
  det_confidence : R;
  det_class_id : Z;
  label : string
}.

Definition point : Type := R * R.

(** [TrackedObject] *)
Record TrackedObject := mkTrackedObject {
  track_id : string;
  class_id : Z;
  class_name : string;
  bbox : R * R * R * R;
  confidence : R;
  centroid : point;
  velocity : point;
  age : Z;
  hits : Z;
  time_since_update : Z;
  last_seen : R;
  trajectory : list point;
  distance_traveled : R
}.

(** [deque(maxlen=n).append(x)]: once full, the oldest entry leaves. *)
Definition deque_append {A} (maxlen : nat) (x : A) (q : list A) : list A :=
  let q' := q ++ [x] in drop (length q' - maxlen) q'.

(** [cv2.KalmanFilter] is an object of OpenCV: the model keeps what the
    tracker puts into it, the initial [statePre] and the measurements
    handed to [correct] (each followed by [predict]). *)
Record KalmanFilter := mkKalmanFilter {
  statePre : R * R * R * R;
  measurements : list point
}.

(** [ObjectTracker] *)
Record t := mk {
  max_disappeared : Z;
  max_distance : R;
  objects : dict TrackedObject;
  disappeared : dict Z;
  kalman_filters : dict KalmanFilter
}.

(** [ObjectTracker(max_disappeared, max_distance)] *)
Definition init (max_disappeared : Z) (max_distance : R) : t :=
  {| max_disappeared := max_disappeared;
     max_distance := max_distance;
     objects := [];
     disappeared := [];
     kalman_filters := [] |}.

(** [ObjectTracker()] *)
Definition default : t := init 30 100.

Definition with_maps (self : t) (o : dict TrackedObject) (d : dict Z)
    (k : dict KalmanFilter) : t :=
  {| max_disappeared := max_disappeared self;
     max_distance := max_distance self;
     objects := o; disappeared := d; kalman_filters := k |}.

(** [register(centroid, detection)]: the id issued, and the tracker and
    the world afterwards. *)
Definition register (env : Env) (w : World) (self : t)
    (centroid : point) (detection : Detection) : string * t * World :=
  let track_id := uuid4_prefix env (uuid_calls w) in
  let obj :=
    {| track_id := track_id;
       class_id := det_class_id detection;
       class_name := label detection;
       bbox := (x1 detection, y1 detection, x2 detection, y2 detection);
       confidence := det_confidence detection;
       centroid := centroid;
       velocity := (0, 0);
       age := 1;
       hits := 1;
       time_since_update := 0;
       last_seen := time_time env (clock_calls w);
       trajectory := deque_append 100 centroid [];
       distance_traveled := 0 |} in
  let kf := {| statePre := (fst centroid, snd centroid, 0, 0);
               measurements := [] |} in
  (track_id,
   with_maps self
     (set track_id obj (objects self))
     (set track_id 0%Z (disappeared self))
     (set track_id kf (kalman_filters self)),
   {| uuid_calls := S (uuid_calls w);
      clock_calls := S (clock_calls w);
      issued := issued w ++ [track_id] |}).

(** [deregister(track_id)] *)
Definition deregister (self : t) (track_id : string) : t :=
  with_maps self
    (pop track_id (objects self))
    (pop track_id (disappeared self))
    (pop track_id (kalman_filters self)).

(** [obj.time_since_update += 1; obj.age += 1] *)
Definition tick (o : TrackedObject) : TrackedObject :=
  {| track_id := track_id o; class_id := class_id o;
     class_name := class_name o; bbox := bbox o;
     confidence := confidence o; centroid := centroid o;
     velocity := velocity o;
     age := (age o + 1)%Z;
     hits := hits o;
     time_since_update := (time_since_update o + 1)%Z;
     last_seen := last_seen o; trajectory := trajectory o;
     distance_traveled := distance_traveled o |}.

(** The body both loops over unmatched objects share:
<<
    self.disappeared[track_id] += 1
    self.objects[track_id].time_since_update += 1
    self.objects[track_id].age += 1
    if self.disappeared[track_id] > self.max_disappeared:
      self.deregister(track_id)
>>
    [None] is a [KeyError]. *)
Definition mark_disappeared (self : t) (track_id : string) : option t :=
  d ← get track_id (disappeared self);
  let disappeared' := set track_id (d + 1)%Z (disappeared self) in
  o ← get track_id (objects self);
  let self' :=
    with_maps self (set track_id (tick o) (objects self)) disappeared'
      (kalman_filters self) in
  d' ← get track_id disappeared';
  if bool_decide (d' > max_disappeared self)%Z
  then Some (deregister self' track_id)
  else Some self'.

(** A [for] loop whose body may raise. *)
Fixpoint for_each {S A} (body : S -> A -> option S) (xs : list A) (s : S)
    : option S :=
  match xs with
  | [] => Some s
  | x :: xs' => s' ← body s x; for_each body xs' s'
  end.

(** The box midpoint. *)
Definition centroid_of (det : Detection) : point :=
  ((x1 det + x2 det) / 2, (y1 det + y2 det) / 2).

(** [np.linalg.norm(a - b)] on two points. *)
Definition norm (a b : point) : R :=
  sqrt ((fst a - fst b) ^ 2 + (snd a - snd b) ^ 2).

(** [D]: one row per existing object, one column per detection. *)
Definition distance_matrix (object_centroids input_centroids : list point)
    : list (list R) :=
  map (fun oc => map (norm oc) input_centroids) object_centroids.

(** [min] of a row (rows are never empty here: [update] has returned
    before when there is no detection). *)
Definition minimum (xs : list R) : R :=
  match xs with
  | [] => 0
  | x :: xs' => fold_left Rmin xs' x
  end.

(** [argmin] of a row: the index of the first least entry. *)
Fixpoint argmin_from (best_i : nat) (best : R) (i : nat) (xs : list R) : nat :=
  match xs with
  | [] => best_i
  | x :: xs' =>
      if Rlt_dec x best then argmin_from i x (S i) xs'
      else argmin_from best_i best (S i) xs'
  end.

Definition argmin (xs : list R) : nat :=
  match xs with
  | [] => 0%nat
  | x :: xs' => argmin_from 0 x 1 xs'
  end.

(** A list of indices put in the order that ranks give it: smaller rank
    first, equal ranks as they stand in the list.  Every order of the
    list is the one some ranks give. *)
Fixpoint insert_ranked (rank : nat -> nat) (x : nat) (l : list nat)
    : list nat :=
  match l with
  | [] => [x]
  | y :: l' =>
      if (rank x <=? rank y)%nat then x :: y :: l'
      else y :: insert_ranked rank x l'
  end.

Fixpoint arrange (rank : nat -> nat) (l : list nat) : list nat :=
  match l with
  | [] => []
  | x :: l' => insert_ranked rank x (arrange rank l')
  end.

(** [argsort]: the indices in ascending order of their values.  numpy is
    a library of its own, and its default kind of sort does not say in
    which order equal values come out: the model takes the indices in the
    order [ties] ranks them and sorts them by value, by insertion, which
    leaves equal values in that order. *)
Fixpoint insert_sorted (x : R * nat) (l : list (R * nat)) : list (R * nat) :=
  match l with
  | [] => [x]
  | y :: l' =>
      if Rle_dec (fst x) (fst y) then x :: y :: l'
      else y :: insert_sorted x l'
  end.

Fixpoint sort_pairs (l : list (R * nat)) : list (R * nat) :=
  match l with
  | [] => []
  | x :: l' => insert_sorted x (sort_pairs l')
  end.

Definition argsort (ties : nat -> nat) (xs : list R) : list nat :=
  map snd
    (sort_pairs
       (map (fun i => (nth i xs 0, i)) (arrange ties (seq 0 (length xs))))).

(** [rows = D.min(axis=1).argsort()] *)
Definition rows_of (env : Env) (D : list (list R)) : list nat :=
  argsort (tie_rank env (map minimum D)) (map minimum D).

(** [cols = D.argmin(axis=1)[rows]] *)
Definition cols_of (env : Env) (D : list (list R)) : list nat :=
  map (fun row => nth row (map argmin D) 0%nat) (rows_of env D).

(** [D[row, col]] *)
Definition entry (D : list (list R)) (row col : nat) : R :=
  nth col (nth row D []) 0.

(** The assignments made to a matched object. *)
Definition matched (o : TrackedObject) (det : Detection)
    (new_centroid : point) (now : R) : TrackedObject :=
  let old_centroid := centroid o in
  let velocity := (fst new_centroid - fst old_centroid,
                   snd new_centroid - snd old_centroid) in
  let distance := sqrt (fst velocity ^ 2 + snd velocity ^ 2) in
  {| track_id := track_id o; class_id := class_id o;
     class_name := class_name o;
     bbox := (x1 det, y1 det, x2 det, y2 det);
     confidence := det_confidence det;
     centroid := new_centroid;
     velocity := velocity;
     age := (age o + 1)%Z;
     hits := (hits o + 1)%Z;
     time_since_update := 0;
     last_seen := now;
     trajectory := deque_append 100 new_centroid (trajectory o);
     distance_traveled := distance_traveled o + distance |}.

(** [kf.correct(measurement); kf.predict()] *)
Definition kalman_step (kf : KalmanFilter) (measurement : point)
    : KalmanFilter :=
  {| statePre := statePre kf;
     measurements := measurements kf ++ [measurement] |}.

(** The state of the matching loop: the tracker, the world, [used_rows]
    and [used_cols] (the two sets, as lists in the order of the [add]s). *)
Definition match_state : Type := t * World * list nat * list nat.

(** The body of [for row, col in zip(rows, cols)]. *)
Definition match_object (env : Env) (D : list (list R))
    (object_ids : list string) (detections : list Detection)
    (input_centroids : list point)
    (st : match_state) (rc : nat * nat) : option match_state :=
  let '(self, w, used_rows, used_cols) := st in
  let '(row, col) := rc in
  if bool_decide (row ∈ used_rows) || bool_decide (col ∈ used_cols)
  then Some st
  else if Rgt_dec (entry D row col) (max_distance self)
  then Some st
  else
    track_id ← object_ids !! row;
    det ← detections !! col;
    new_centroid ← input_centroids !! col;
    o ← get track_id (objects self);
    let o' := matched o det new_centroid (time_time env (clock_calls w)) in
    kf ← get track_id (kalman_filters self);
    Some (with_maps self
            (set track_id o' (objects self))
            (set track_id 0%Z (disappeared self))
            (set track_id (kalman_step kf new_centroid) (kalman_filters self)),
          {| uuid_calls := uuid_calls w;
             clock_calls := S (clock_calls w);
             issued := issued w |},
          used_rows ++ [row], used_cols ++ [col]).

(** The body of [for row in unused_rows]. *)
Definition unmatched_object (object_ids : list string) (self : t) (row : nat)
    : option t :=
  track_id ← object_ids !! row;
  mark_disappeared self track_id.

(** [self.register(input_centroids[col], detections[col])] *)
Definition register_detection (env : Env) (detections : list Detection)
    (input_centroids : list point) (st : t * World) (col : nat)
    : option (t * World) :=
  c ← input_centroids !! col;
  det ← detections !! col;
  let '(_, self', w') := register env (snd st) (fst st) c det in
  Some (self', w').

(** [set(range(n)) - used], as the [for] loop goes through it.  Python
    iterates a set in an order of its own: the one [set_rank] gives. *)
Definition unused (env : Env) (n : nat) (used : list nat) : list nat :=
  arrange (set_rank env n used) (filter (fun i => i ∉ used) (seq 0 n)).

(** [update(detections)]: what it returns ([self.objects]), and the
    tracker and the world afterwards; [None] when it raises. *)
Definition update (env : Env) (w : World) (self : t)
    (detections : list Detection)
    : option (dict TrackedObject * t * World) :=
  match detections with
  | [] =>
      self' ← for_each mark_disappeared (keys (disappeared self)) self;
      Some (objects self', self', w)
  | _ :: _ =>
      let input_centroids := map centroid_of detections in
      match objects self with
      | [] =>
          '(self', w') ←
            for_each (register_detection env detections input_centroids)
              (seq 0 (length detections)) (self, w);
          Some (objects self', self', w')
      | _ :: _ =>
          let object_ids := keys (objects self) in
          object_centroids ←
            mapM (fun oid => centroid <$> get oid (objects self)) object_ids;
          let D := distance_matrix object_centroids input_centroids in
          '(self1, w1, used_rows, used_cols) ←
            for_each
              (match_object env D object_ids detections input_centroids)
              (zip (rows_of env D) (cols_of env D)) (self, w, [], []);
          self2 ←
            for_each (unmatched_object object_ids)
              (unused env (length D) used_rows) self1;
          '(self3, w3) ←
            for_each (register_detection env detections input_centroids)
              (unused env (length input_centroids) used_cols) (self2, w1);
          Some (objects self3, self3, w3)
      end
  end.

(** The three maps list the same track ids, in the same order, each once. *)
Definition consistent (self : t) : Prop :=
  keys (disappeared self) = keys (objects self) /\
  keys (kalman_filters self) = keys (objects self) /\
  NoDup (keys (objects self)).

(** What one pass of the unmatched-object body does to the object [tid]
    and to nobody else. *)
Definition aged (self self' : t) (tid : string) : Prop :=
  forall o d, get tid (objects self) = Some o ->
    get tid (disappeared self) = Some d ->
    if bool_decide (d + 1 > max_disappeared self)%Z
    then get tid (objects self') = None /\
         get tid (disappeared self') = None /\
         get tid (kalman_filters self') = None
    else get tid (objects self') = Some (tick o) /\
         get tid (disappeared self') = Some (d + 1)%Z /\
         get tid (kalman_filters self') = get tid (kalman_filters self).

Definition untouched (self self' : t) (tid : string) : Prop :=
  get tid (objects self') = get tid (objects self) /\
  get tid (disappeared self') = get tid (disappeared self) /\
  get tid (kalman_filters self') = get tid (kalman_filters self).

Definition same_limits (self self' : t) : Prop :=
  max_disappeared self' = max_disappeared self /\
  max_distance self' = max_distance self.



(** The decisions of the matching loop on their own: the (row, col)
    pairs it matches, in the order it matches them. *)
Definition assign_step (D : list (list R)) (max_distance : R)
    (M : list (nat * nat)) (rc : nat * nat) : list (nat * nat) :=
  let '(row, col) := rc in
  if bool_decide (row ∈ M.*1) || bool_decide (col ∈ M.*2) then M
  else if Rgt_dec (entry D row col) max_distance then M
  else M ++ [(row, col)].

Definition assignment (D : list (list R)) (max_distance : R)
    (pairs : list (nat * nat)) : list (nat * nat) :=
  fold_left (assign_step D max_distance) pairs [].

(** The environment is used as agreed: the ids issued so far are the
    first [uuid_calls] draws. *)
Definition world_ok (env : Env) (w : World) : Prop :=
  issued w = map (uuid4_prefix env) (seq 0 (uuid_calls w)).

(** What holds in the matching loop once the pairs [pre] have been gone
    through, starting from the tracker [self0] in the world [w0]. *)
Definition match_inv (self0 : t) (w0 : World) (detections : list Detection)
    (D : list (list R)) (pre : list (nat * nat)) (st : match_state) : Prop :=
  let ids := keys (objects self0) in
  let '(self, w, ur, uc) := st in
  let M := assignment D (max_distance self0) pre in
  ur = M.*1 /\ uc = M.*2 /\
  consistent self /\ keys (objects self) = ids /\ same_limits self0 self /\
  uuid_calls w = uuid_calls w0 /\ issued w = issued w0 /\
  (forall r tid, ids !! r = Some tid -> r ∉ M.*1 ->
     untouched self0 self tid) /\
  (forall r c tid, ids !! r = Some tid -> (r, c) ∈ M ->
     exists o det now,
       get tid (objects self0) = Some o /\
       detections !! c = Some det /\
       get tid (objects self) = Some (matched o det (centroid_of det) now) /\
       get tid (disappeared self) = Some 0%Z).

(** What an object held under [tid] looks like in every tracker the code
    builds: it carries its own key, it was seen at least once, it is at
    least as old as its sightings and its misses, its count of misses is
    the one the tracker keeps and stays within the limit, its trajectory
    ends where it is and holds at most 100 points. *)
Definition object_ok (self : t) (tid : string) (o : TrackedObject) : Prop :=
  track_id o = tid /\
  (1 <= hits o)%Z /\
  (0 <= time_since_update o)%Z /\
  (hits o + time_since_update o <= age o)%Z /\
  get tid (disappeared self) = Some (time_since_update o) /\
  (time_since_update o <= Z.max 0 (max_disappeared self))%Z /\
  last (trajectory o) = Some (centroid o) /\
  (length (trajectory o) <= 100)%nat /\
  0 <= distance_traveled o.

Definition objects_ok (self : t) : Prop :=
  forall tid o, get tid (objects self) = Some o -> object_ok self tid o.

(** The object [register] stores for a detection. *)
Definition fresh_object (track_id : string) (detection : Detection)
    (now : R) : TrackedObject :=
  {| track_id := track_id;
     class_id := det_class_id detection;
     class_name := label detection;
     bbox := (x1 detection, y1 detection, x2 detection, y2 detection);
     confidence := det_confidence detection;
     centroid := centroid_of detection;
     velocity := (0, 0);
     age := 1;
     hits := 1;
     time_since_update := 0;
     last_seen := now;
     trajectory := [centroid_of detection];
     distance_traveled := 0 |}.

(** The operations a client may apply to one tracker. *)
Inductive op :=
| Register (centroid : point) (detection : Detection)
| Deregister (track_id : string)
| Update (detections : list Detection).

Definition apply_op (env : Env) (st : t * World) (o : op) : option (t * World) :=
  match o with
  | Register c det =>
      let '(_, self', w') := register env (snd st) (fst st) c det in
      Some (self', w')
  | Deregister track_id => Some (deregister (fst st) track_id, snd st)
  | Update dets =>
      '(_, self', w') ← update env (snd st) (fst st) dets;
      Some (self', w')
  end.

(** A whole session on one tracker instance. *)
Definition run (env : Env) (ops : list op) (self : t) : option (t * World) :=
  for_each (apply_op env) ops (self, world0).

(** Sample data: two detections, an environment whose UUID draws all
    start with the same eight characters (and whose libraries keep to the
    order of the indices), and a tracker holding one car. *)
Definition car : Detection :=
  {| x1 := 0; y1 := 0; x2 := 10; y2 := 10;
     det_confidence := 0.9; det_class_id := 2; label := "car" |}.

Definition person : Detection :=
  {| x1 := 100; y1 := 100; x2 := 110; y2 := 120;
     det_confidence := 0.8; det_class_id := 0; label := "person" |}.

Definition colliding_env : Env :=
  {| uuid4_prefix := fun _ => "deadbeef"%string; time_time := fun _ => 0;
     tie_rank := fun _ i => i; set_rank := fun _ _ i => i |}.

Definition one_car : t :=
  (register colliding_env world0 default (centroid_of car) car).1.2.

(** A box of side 10 around a centre. *)
Definition box_at (cx cy : R) : Detection :=
  {| x1 := cx - 5; y1 := cy - 5; x2 := cx + 5; y2 := cy + 5;
     det_confidence := 0.9; det_class_id := 2; label := "car" |}.

(** An environment whose UUID draws differ, and whose libraries go
    downwards: [argsort] hands equal values over highest index first, and
    a set its highest element first. *)
Definition reversing_env : Env :=
  {| uuid4_prefix := fun i => if (i =? 0)%nat then "aaaaaaaa"%string
                              else "bbbbbbbb"%string;
     time_time := fun _ => 0;
     tie_rank := fun xs i => (length xs - i)%nat;
     set_rank := fun n _ i => (n - i)%nat |}.

(** The same with libraries that keep to the order of the indices. *)
Definition orderly_env : Env :=
  {| uuid4_prefix := uuid4_prefix reversing_env;
     time_time := fun _ => 0;
     tie_rank := fun _ i => i;
     set_rank := fun _ _ i => i |}.

(** A tracker that has registered two cars, the first around (0, 0) and
    the second around (20, 0), and the world after that. *)
Definition first_car : string * t * World :=
  register reversing_env world0 default (centroid_of (box_at 0 0))
    (box_at 0 0).

Definition second_car : string * t * World :=
  register reversing_env first_car.2 first_car.1.2
    (centroid_of (box_at 20 0)) (box_at 20 0).

Definition two_cars : t := second_car.1.2.

Definition two_cars_world : World := second_car.2.

End Tracker.

(* ===================================================================== *)
(** * app/core/calibration/calibrator.py *)
(* ===================================================================== *)

Module Calibrator.

Local Open Scope R_scope.

(** One calibration point: the dict [CalibrationPoint.dict()] gives, with
    its four keys. *)
Record CalibrationPoint := mkPoint {
  pixel_x : R; pixel_y : R; real_x : R; real_y : R
}.

(** [pixel_dist] and [real_dist] between two points. *)
Definition pixel_dist (p1 p2 : CalibrationPoint) : R :=
  sqrt ((pixel_x p2 - pixel_x p1) ^ 2 + (pixel_y p2 - pixel_y p1) ^ 2).

Definition real_dist (p1 p2 : CalibrationPoint) : R :=
  sqrt ((real_x p2 - real_x p1) ^ 2 + (real_y p2 - real_y p1) ^ 2).

(** [calibrate_reference_object(points)]; [None] is Python's [None]. *)
Definition calibrate_reference_object (points : list CalibrationPoint)
    : option R :=
  if bool_decide (length points < 2)%nat then None
  else
    match points !! 0%nat, points !! 1%nat with
    | Some p1, Some p2 =>
        if Req_dec_T (pixel_dist p1 p2) 0 then None
        else if Req_dec_T (real_dist p1 p2) 0 then None
        else
          let pixels_per_unit := pixel_dist p1 p2 / real_dist p1 p2 in
          if Rlt_dec pixels_per_unit 10
          then Some (pixels_per_unit * 100)
          else Some pixels_per_unit
    | _, _ => None
    end.

(** [pixel_to_meters(pixel_x, pixel_y, pixels_per_meter)] *)
Definition pixel_to_meters (px py pixels_per_meter : R) : R * R :=
  (px / pixels_per_meter, py / pixels_per_meter).

(** [calculate_distance(point1, point2, pixels_per_meter)] *)
Definition calculate_distance (point1 point2 : R * R) (pixels_per_meter : R)
    : R :=
  let real_point1 := pixel_to_meters (fst point1) (snd point1) pixels_per_meter in
  let real_point2 := pixel_to_meters (fst point2) (snd point2) pixels_per_meter in
  sqrt ((fst real_point2 - fst real_point1) ^ 2 +
        (snd real_point2 - snd real_point1) ^ 2).

End Calibrator.

(* ===================================================================== *)
(** * app/core/tracking/speed_calculator.py *)
(* ===================================================================== *)

Module SpeedCalculator.

Local Open Scope R_scope.

Record t := mk { fps : Z }.

(** [SpeedCalculator(fps=30)], and the module's global instance, built
    with no argument. *)
Definition init (fps : Z) : t := {| fps := fps |}.
Definition speed_calculator : t := init 30.

(** Truth of an optional float in [if pixels_per_meter:]: [None] and
    zero are false. *)
Definition truthy (x : option R) : bool :=
  match x with
  | None => false
  | Some r => if Req_dec_T r 0 then false else true
  end.

(** [calculate_speed(velocity, pixels_per_meter)]: the dict returned. *)
Definition calculate_speed (self : t) (velocity : R * R)
    (pixels_per_meter : option R) : gmap string R :=
  let '(vx, vy) := velocity in
  let speed_px := sqrt (vx ^ 2 + vy ^ 2) * IZR (fps self) in
  let result : gmap string R :=
    <["velocity_y" := vy * IZR (fps self)]>
      (<["velocity_x" := vx * IZR (fps self)]>
         (<["speed_px_per_sec" := speed_px]> ∅)) in
  match pixels_per_meter with
  | Some ratio =>
      if truthy pixels_per_meter then
        let speed_m_per_sec := speed_px / ratio in
        <["speed_kmh" := speed_m_per_sec * 3.6]>
          (<["speed_m_per_sec" := speed_m_per_sec]> result)
      else result
  | None => result
  end.

End SpeedCalculator.

(* ===================================================================== *)
(** * app/database/models.py: the camera row *)
(* ===================================================================== *)

Module Camera.

(** The values a feature map holds ([features] is a JSON column):
    flags, class lists, and the per-model class filters. *)
Inductive value :=
| VNone
| VBool (b : bool)
| VList (items : list string)
| VDict (entries : list (string * list string)).

(** Python's truth of such a value. *)
Definition truthy (v : value) : bool :=
  match v with
  | VNone => false
  | VBool b => b
  | VList items => negb (bool_decide (items = []))
  | VDict entries => negb (bool_decide (length entries = 0%nat))
  end.

Abbreviation features_t := (gmap string value).

(** [features.get(key, default)] *)
Definition get (features : features_t) (key : string) (default : value)
    : value :=
  match features !! key with
  | Some v => v
  | None => default
  end.

Record t := mk {
  id : string;
  name : string;
  fps : Z;
  is_calibrated : bool;
  pixels_per_meter : option R;
  features : features_t;
  active_models : list string
}.

Definition with_features (camera : t) (features' : features_t) : t :=
  {| id := id camera; name := name camera; fps := fps camera;
     is_calibrated := is_calibrated camera;
     pixels_per_meter := pixels_per_meter camera;
     features := features';
     active_models := active_models camera |}.

Definition with_fps (camera : t) (fps' : Z) : t :=
  {| id := id camera; name := name camera; fps := fps';
     is_calibrated := is_calibrated camera;
     pixels_per_meter := pixels_per_meter camera;
     features := features camera;
     active_models := active_models camera |}.

(** [camera.features.get("tracking", False)], as a condition. *)
Definition tracking_on (features : features_t) : bool :=
  truthy (get features "tracking" (VBool false)).

End Camera.

(* ===================================================================== *)
(** * app/api/websocket.py: the speed fields of a tracked object *)
(* ===================================================================== *)

Module Websocket.

(** [x in v] for a string [x]; [None] is a [TypeError]. *)
Definition contains (v : Camera.value) (x : string) : option bool :=
  match v with
  | Camera.VList items => Some (bool_decide (x ∈ items))
  | Camera.VDict entries => Some (bool_decide (x ∈ entries.*1))
  | _ => None
  end.

(** The speed block of [process_frame_sync] for one tracked object: the
    fields added to [obj_data] ([None] when the class test raises).
<<
    speed_classes = camera.features.get("speed_classes", [])
    if camera.features.get("speed", False) and (
      not speed_classes or obj.class_name in speed_classes
    ):
      speed_data = speed_calculator.calculate_speed(
        obj.velocity,
        camera.pixels_per_meter if camera.is_calibrated else None)
      obj_data.update(speed_data)
>> *)
Definition speed_data (camera : Camera.t) (obj : Tracker.TrackedObject)
    : option (gmap string R) :=
  let speed_classes :=
    Camera.get (Camera.features camera) "speed_classes" (Camera.VList []) in
  let calculate :=
    SpeedCalculator.calculate_speed SpeedCalculator.speed_calculator
      (Tracker.velocity obj)
      (if Camera.is_calibrated camera then Camera.pixels_per_meter camera
       else None) in
  if Camera.truthy (Camera.get (Camera.features camera) "speed"
                      (Camera.VBool false))
  then
    if negb (Camera.truthy speed_classes) then Some calculate
    else
      listed ← contains speed_classes (Tracker.class_name obj);
      Some (if listed : bool then calculate else ∅)
  else Some ∅.

(** The distance computation, here and in [process_frame_sync]: the
    position in metres and the distance from the origin, in metres and
    in feet. *)
Record Distance := mkDistance {
  position_meters : R * R;
  distance_from_camera_m : R;
  distance_from_camera_ft : R
}.

(** [calculate_distance_from_camera(centroid, pixels_per_meter, ...)];
    the width and the height it is passed are not read.  [None] is the
    [ZeroDivisionError] of a zero ratio. *)
Definition calculate_distance_from_camera (centroid : R * R)
    (pixels_per_meter : R) : option Distance :=
  if Req_dec_T pixels_per_meter 0 then None
  else
    let real_x := (centroid.1 / pixels_per_meter)%R in
    let real_y := (centroid.2 / pixels_per_meter)%R in
    let distance := sqrt (real_x ^ 2 + real_y ^ 2) in
    Some {| position_meters := (real_x, real_y);
            distance_from_camera_m := distance;
            distance_from_camera_ft := (distance * 3.28084)%R |}.

(** The distance block of [process_frame_sync] for one tracked object:
    the fields added to [obj_data], if any ([Some None]: none are added;
    [None]: the class test raises).  The block computes inside a [try]
    whose handler only logs: dividing by a ratio that is [None] or zero
    adds no field.
<<
    distance_classes = camera.features.get("distance_classes", [])
    if camera.features.get("distance", False) and camera.is_calibrated and (
      not distance_classes or obj.class_name in distance_classes
    ):
      try:
        real_x = obj.centroid[0] / camera.pixels_per_meter
        real_y = obj.centroid[1] / camera.pixels_per_meter
        distance = np.sqrt(real_x ** 2 + real_y ** 2)
        obj_data["position_meters"] = {"x": real_x, "y": real_y}
        obj_data["distance_from_camera_m"] = distance
        obj_data["distance_from_camera_ft"] = distance * 3.28084
      except Exception as e:
        logger.error(...)
>> *)
Definition distance_data (camera : Camera.t) (obj : Tracker.TrackedObject)
    : option (option Distance) :=
  let distance_classes :=
    Camera.get (Camera.features camera) "distance_classes" (Camera.VList []) in
  let calculate :=
    match Camera.pixels_per_meter camera with
    | None => None
    | Some pixels_per_meter =>
        if Req_dec_T pixels_per_meter 0 then None
        else
          let real_x := ((Tracker.centroid obj).1 / pixels_per_meter)%R in
          let real_y := ((Tracker.centroid obj).2 / pixels_per_meter)%R in
          let distance := sqrt (real_x ^ 2 + real_y ^ 2) in
          Some {| position_meters := (real_x, real_y);
                  distance_from_camera_m := distance;
                  distance_from_camera_ft := (distance * 3.28084)%R |}
    end in
  if Camera.truthy (Camera.get (Camera.features camera) "distance"
                      (Camera.VBool false))
     && Camera.is_calibrated camera
  then
    if negb (Camera.truthy distance_classes) then Some calculate
    else
      listed ← contains distance_classes (Tracker.class_name obj);
      Some (if listed : bool then calculate else None)
  else Some None.

(** [obj.age / camera.fps if camera.fps > 0 else obj.age / 30] *)
Definition time_in_seconds (camera : Camera.t) (obj : Tracker.TrackedObject)
    : R :=
  if bool_decide (0 < Camera.fps camera)%Z
  then (IZR (Tracker.age obj) / IZR (Camera.fps camera))%R
  else (IZR (Tracker.age obj) / 30)%R.

(** The detections handed to the tracker ([None]: the class test raises).
<<
    tracking_classes = camera.features.get("tracking_classes", [])
    if tracking_classes:
      filtered_detections = [det for det in detected_objects
                             if det.label in tracking_classes]
    else:
      filtered_detections = detected_objects
>> *)
Fixpoint filter_by_label (tracking_classes : Camera.value)
    (detected_objects : list Tracker.Detection)
    : option (list Tracker.Detection) :=
  match detected_objects with
  | [] => Some []
  | det :: rest =>
      listed ← contains tracking_classes (Tracker.label det);
      kept ← filter_by_label tracking_classes rest;
      Some (if listed : bool then det :: kept else kept)
  end.

Definition filtered_detections (camera : Camera.t)
    (detected_objects : list Tracker.Detection)
    : option (list Tracker.Detection) :=
  let tracking_classes :=
    Camera.get (Camera.features camera) "tracking_classes" (Camera.VList []) in
  if Camera.truthy tracking_classes
  then filter_by_label tracking_classes detected_objects
  else Some detected_objects.

(** The [summary] of the tracking data: [total_tracks] and
    [active_tracks]. *)
Definition total_tracks (tracked_objects : PyDict.dict Tracker.TrackedObject)
    : nat :=
  length tracked_objects.

Definition active_tracks (tracked_objects : PyDict.dict Tracker.TrackedObject)
    : nat :=
  length (filter (fun kv => (Tracker.time_since_update kv.2 < 5)%Z)
            tracked_objects).

(** [camera.fps if camera.fps else 15], the target the socket hands to
    its [FPSRateLimiter]. *)
Definition target_fps (camera : Camera.t) : Z :=
  if bool_decide (Camera.fps camera = 0%Z) then 15%Z else Camera.fps camera.

(** The counters of the frame loop of [camera_websocket], one step per
    turn of the loop: [None] is a turn in which [get_frame] gave no
    frame (the loop sleeps and goes on), [Some now] one in which a frame
    was read and the limiter, asked, read the clock at [now].
<<
    frame = stream_manager_ws.get_frame(camera_id)
    if frame is None:
      await asyncio.sleep(0.01)
      continue
    frame_count += 1
    if not fps_limiter.should_process_frame():
      continue
    processed_count += 1
>> *)
Definition frame_loop_step (st : nat * nat * FPSRateLimiter.t)
    (frame : option Q) : nat * nat * FPSRateLimiter.t :=
  let '(frame_count, processed_count, fps_limiter) := st in
  match frame with
  | None => st
  | Some now =>
      let '(go, fps_limiter') :=
        FPSRateLimiter.should_process_frame fps_limiter now in
      (S frame_count,
       if go then S processed_count else processed_count,
       fps_limiter')
  end.

(** The loop from its start: [FPSRateLimiter(target_fps)], built at the
    clock reading [start], and both counters at 0. *)
Definition frame_loop (camera : Camera.t) (start : Q)
    (frames : list (option Q)) : nat * nat * FPSRateLimiter.t :=
  fold_left frame_loop_step frames
    (0%nat, 0%nat, FPSRateLimiter.init (inject_Z (target_fps camera)) start).

(** Sample data: a camera that tracks cars only and reports distances. *)
Definition yard_camera : Camera.t :=
  {| Camera.id := "cam-2"; Camera.name := "yard"; Camera.fps := 0;
     Camera.is_calibrated := false; Camera.pixels_per_meter := None;
     Camera.features :=
       <["tracking_classes" := Camera.VList ["car"]]>
         (<["distance" := Camera.VBool true]>
            {["tracking" := Camera.VBool true]});
     Camera.active_models := [] |}.

End Websocket.

(* ===================================================================== *)
(** * app/api/websocket.py: the connections and the captures *)
(* ===================================================================== *)

(** [ConnectionManager]: [active_connections], the sockets connected to
    each camera.  A socket is an object compared by identity: the model
    numbers the sockets. *)
Module ConnectionManager.

Abbreviation t := (gmap string (gset nat)).

Definition init : t := ∅.

(** [connect(websocket, camera_id)], after the socket was accepted. *)
Definition connect (self : t) (websocket : nat) (camera_id : string) : t :=
  let self' :=
    match self !! camera_id with
    | None => <[camera_id := ∅]> self
    | Some _ => self
    end in
  <[camera_id := {[websocket]} ∪ self' !!! camera_id]> self'.

(** [disconnect(websocket, camera_id)] *)
Definition disconnect (self : t) (websocket : nat) (camera_id : string) : t :=
  match self !! camera_id with
  | Some sockets =>
      let sockets' := sockets ∖ {[websocket]} in
      if decide (sockets' = ∅) then delete camera_id self
      else <[camera_id := sockets']> self
  | None => self
  end.

(** The sockets of a camera, none if it has no entry. *)
Definition clients (self : t) (camera_id : string) : gset nat :=
  default ∅ (self !! camera_id).

Inductive op :=
| Connect (websocket : nat) (camera_id : string)
| Disconnect (websocket : nat) (camera_id : string).

Definition apply_op (self : t) (o : op) : t :=
  match o with
  | Connect websocket camera_id => connect self websocket camera_id
  | Disconnect websocket camera_id => disconnect self websocket camera_id
  end.

(** No camera is kept with an empty set of sockets. *)
Definition no_empty_entry (self : t) : Prop :=
  forall camera_id sockets, self !! camera_id = Some sockets -> sockets <> ∅.

End ConnectionManager.

(** The [StreamManager] of websocket.py (its one instance is
    [stream_manager_ws]): the open captures by camera id. *)
Module WsStreamManager.

(** A [cv2.VideoCapture] is an object of OpenCV: the model keeps which
    one it is (they are numbered as they are created) and the URL it was
    created for. *)
Record VideoCapture := mkCapture {
  handle : nat;
  url : string
}.

(** What OpenCV holds (the code keeps no such record): how many captures
    were created, and the ones [release()] was called on, oldest
    first. *)
Record World := mkWorld {
  created : nat;
  released : list nat
}.

Definition world0 : World := {| created := 0; released := [] |}.

Record t := mk {
  streams : gmap string VideoCapture;
  running : gmap string bool;
  stream_types : gmap string string
}.

Definition init : t :=
  {| streams := ∅; running := ∅; stream_types := ∅ |}.

(** [stop_stream(camera_id)] *)
Definition stop_stream (w : World) (self : t) (camera_id : string)
    : t * World :=
  let running' := <[camera_id := false]> (running self) in
  match streams self !! camera_id with
  | Some cap =>
      ({| streams := delete camera_id (streams self);
          running := running';
          stream_types :=
            match stream_types self !! camera_id with
            | Some _ => delete camera_id (stream_types self)
            | None => stream_types self
            end |},
       {| created := created w; released := released w ++ [handle cap] |})
  | None =>
      ({| streams := streams self;
          running := running';
          stream_types := stream_types self |}, w)
  end.

(** ["http" if stream_url.startswith("http://") or
    stream_url.startswith("https://") else "rtsp"] *)
Definition stream_type_of (stream_url : string) : string :=
  if String.prefix "http://" stream_url || String.prefix "https://" stream_url
  then "http" else "rtsp".

(** [start_stream(camera_id, stream_url)]; [is_opened] is the answer of
    [cap.isOpened()]. *)
Definition start_stream (w : World) (self : t) (camera_id stream_url : string)
    (is_opened : bool) : bool * t * World :=
  let '(self1, w1) :=
    match streams self !! camera_id with
    | Some _ => stop_stream w self camera_id
    | None => (self, w)
    end in
  let stream_type := stream_type_of stream_url in
  let cap := {| handle := created w1; url := stream_url |} in
  let w2 := {| created := S (created w1); released := released w1 |} in
  if negb is_opened then (false, self1, w2)
  else
    (true,
     {| streams := <[camera_id := cap]> (streams self1);
        running := <[camera_id := true]> (running self1);
        stream_types := <[camera_id := stream_type]> (stream_types self1) |},
     w2).

(** [get_frame(camera_id)]; [read] is what [cap.read()] returns, the flag
    and the frame. *)
Definition get_frame {Frame} (self : t) (camera_id : string)
    (read : bool * Frame) : option Frame :=
  match streams self !! camera_id with
  | None => None
  | Some _ => if negb read.1 then None else Some read.2
  end.

(** [is_running(camera_id)] and [get_stream_type(camera_id)] *)
Definition is_running (self : t) (camera_id : string) : bool :=
  default false (running self !! camera_id).

Definition get_stream_type (self : t) (camera_id : string) : option string :=
  stream_types self !! camera_id.

Inductive op :=
| StartStream (camera_id stream_url : string) (is_opened : bool)
| StopStream (camera_id : string).

Definition apply_op (st : t * World) (o : op) : t * World :=
  match o with
  | StartStream camera_id stream_url is_opened =>
      let '(_, self', w') := start_stream st.2 st.1 camera_id stream_url is_opened in
      (self', w')
  | StopStream camera_id => stop_stream st.2 st.1 camera_id
  end.

(** The three maps agree, and the captures held are live ones. *)
Record consistent (self : t) (w : World) : Prop := mkConsistent {
  running_iff_stream :
    forall camera_id,
      is_running self camera_id = true <-> is_Some (streams self !! camera_id);
  typed_iff_stream :
    forall camera_id,
      get_stream_type self camera_id
      = (fun cap => stream_type_of (url cap)) <$> streams self !! camera_id;
  held_is_live :
    forall camera_id cap,
      streams self !! camera_id = Some cap ->
      (handle cap < created w)%nat /\ handle cap ∉ released w;
  held_once :
    forall c1 c2 cap1 cap2,
      streams self !! c1 = Some cap1 -> streams self !! c2 = Some cap2 ->
      handle cap1 = handle cap2 -> c1 = c2;
  released_once : NoDup (released w);
  released_created : forall h, h ∈ released w -> (h < created w)%nat
}.

End WsStreamManager.

(* ===================================================================== *)
(** * app/services/camera_service.py, app/api/cameras.py: calibration *)
(* ===================================================================== *)

Module CameraService.

(** The four calibration columns of a camera row. *)
Record Calibration := mkCalibration {
  is_calibrated : bool;
  pixels_per_meter : option R;
  calibration_mode : option string;
  calibration_points : option (list Calibrator.CalibrationPoint)
}.

(** A row as it is created: [is_calibrated] defaults to [False], the
    other three to [None]. *)
Definition uncalibrated : Calibration :=
  {| is_calibrated := false; pixels_per_meter := None;
     calibration_mode := None; calibration_points := None |}.

(** The ratio both [calibrate_camera] and [test_calibration] compute
    from the request. *)
Definition requested_ratio (mode : string)
    (points : list Calibrator.CalibrationPoint) : option R :=
  if String.eqb mode "reference_object"
  then Calibrator.calibrate_reference_object points
  else None.

(** [calibrate_camera(db, camera_id, calibration_data)] on a camera that
    was found: the row afterwards, and whether the camera was returned
    ([false]: [None] was). *)
Definition calibrate_camera (camera : Calibration) (mode : string)
    (points : list Calibrator.CalibrationPoint) : bool * Calibration :=
  let pixels_per_meter := requested_ratio mode points in
  if SpeedCalculator.truthy pixels_per_meter
  then (true,
        {| is_calibrated := true;
           pixels_per_meter := pixels_per_meter;
           calibration_mode := Some mode;
           calibration_points := Some points |})
  else (false, camera).

(** [clear_calibration(camera_id)] of the API, on a camera that was
    found. *)
Definition clear_calibration (camera : Calibration) : Calibration :=
  {| is_calibrated := false; pixels_per_meter := None;
     calibration_mode := None; calibration_points := None |}.

(** [test_calibration(camera_id, calibration_data)]: the ratio and the
    number of points of a success, [None] for its failure. *)
Definition test_calibration (mode : string)
    (points : list Calibrator.CalibrationPoint) : option (R * nat) :=
  let pixels_per_meter := requested_ratio mode points in
  match pixels_per_meter with
  | Some ratio =>
      if SpeedCalculator.truthy pixels_per_meter
      then Some (ratio, length points) else None
  | None => None
  end.

Inductive op :=
| CalibrateCamera (mode : string) (points : list Calibrator.CalibrationPoint)
| ClearCalibration.

Definition apply_op (camera : Calibration) (o : op) : Calibration :=
  match o with
  | CalibrateCamera mode points => (calibrate_camera camera mode points).2
  | ClearCalibration => clear_calibration camera
  end.

(** The camera row with its calibration columns written. *)
Definition store (camera : Camera.t) (c : Calibration) : Camera.t :=
  {| Camera.id := Camera.id camera; Camera.name := Camera.name camera;
     Camera.fps := Camera.fps camera;
     Camera.is_calibrated := is_calibrated c;
     Camera.pixels_per_meter := pixels_per_meter c;
     Camera.features := Camera.features camera;
     Camera.active_models := Camera.active_models camera |}.

(** A calibrated row carries the positive ratio of its own points, and
    an uncalibrated one carries nothing. *)
Definition sound (c : Calibration) : Prop :=
  if is_calibrated c
  then exists ratio points,
         pixels_per_meter c = Some ratio /\ (0 < ratio)%R /\
         calibration_mode c = Some "reference_object" /\
         calibration_points c = Some points /\
         Calibrator.calibrate_reference_object points = Some ratio
  else True.

End CameraService.

(* ===================================================================== *)
(** * app/services/stream_manager.py *)
(* ===================================================================== *)

Module StreamManager.

(** [CameraStream]: the camera, and its tracker if it has one. *)
Record CameraStream := mkStream {
  camera : Camera.t;
  tracker : option Tracker.t
}.

(** [CameraStream(camera)] *)
Definition new_stream (camera : Camera.t) : CameraStream :=
  {| camera := camera;
     tracker := if Camera.tracking_on (Camera.features camera)
                then Some Tracker.default else None |}.

(** [CameraStream.update_features(features)].  An [ObjectTracker] has
    neither [__bool__] nor [__len__]: [not self.tracker] asks whether
    there is none. *)
Definition update_features (self : CameraStream)
    (features : Camera.features_t) : CameraStream :=
  let camera' := Camera.with_features (camera self) features in
  match Camera.tracking_on features, tracker self with
  | true, None => {| camera := camera'; tracker := Some Tracker.default |}
  | false, Some _ => {| camera := camera'; tracker := None |}
  | _, _ => {| camera := camera'; tracker := tracker self |}
  end.

(** [StreamManager]: [active_streams], by camera id. *)
Abbreviation t := (gmap string CameraStream).

Definition init : t := ∅.

(** [add_stream(camera)] for a camera whose [features] hold a dict, as
    every [Camera.t] does: what it returns, and the registry afterwards.
    ([add_stream_row] below is the call with its [try], for any row.) *)
Definition add_stream (self : t) (camera : Camera.t) : bool * t :=
  match self !! Camera.id camera with
  | Some _ => (true, self)
  | None => (true, <[Camera.id camera := new_stream camera]> self)
  end.

(** What [add_stream] may be handed: a camera whose [features] column
    holds a dict, or one whose column holds something else, [None] for
    one (the column is JSON and a PATCH may store null in it).  Of the
    latter the registry reads the id only. *)
Inductive Row :=
| Dict (camera : Camera.t)
| NoDict (camera_id : string).

Definition row_id (row : Row) : string :=
  match row with
  | Dict camera => Camera.id camera
  | NoDict camera_id => camera_id
  end.

(** [add_stream(camera)] with its [try]: for a camera that is not active,
    [CameraStream(camera)] is built, and it raises (at
    [camera.features.get]) when the column holds no dict; the handler
    logs, nothing is added and [False] is returned.
<<
    try:
      if camera.id in self.active_streams:
        return True
      stream = CameraStream(camera)
      self.active_streams[camera.id] = stream
      return True
    except Exception as e:
      return False
>> *)
Definition add_stream_row (self : t) (row : Row) : bool * t :=
  match self !! row_id row with
  | Some _ => (true, self)
  | None =>
      match row with
      | Dict camera => (true, <[Camera.id camera := new_stream camera]> self)
      | NoDict _ => (false, self)
      end
  end.

(** [remove_stream(camera_id)] *)
Definition remove_stream (self : t) (camera_id : string) : bool * t :=
  match self !! camera_id with
  | Some _ => (true, delete camera_id self)
  | None => (false, self)
  end.

(** [get_stream(camera_id)] *)
Definition get_stream (self : t) (camera_id : string) : option CameraStream :=
  self !! camera_id.

(** [update_stream_features(camera_id, features)] *)
Definition update_stream_features (self : t) (camera_id : string)
    (features : Camera.features_t) : t :=
  match get_stream self camera_id with
  | Some stream => <[camera_id := update_features stream features]> self
  | None => self
  end.

(** [is_active(camera_id)] and [get_active_count()] *)
Definition is_active (self : t) (camera_id : string) : bool :=
  bool_decide (is_Some (self !! camera_id)).

Definition get_active_count (self : t) : nat := size self.

(** Sample data: a camera with tracking switched on. *)
Definition tracked_camera : Camera.t :=
  {| Camera.id := "cam-1"; Camera.name := "gate"; Camera.fps := 15;
     Camera.is_calibrated := false; Camera.pixels_per_meter := None;
     Camera.features := {["tracking" := Camera.VBool true]};
     Camera.active_models := [] |}.

(** The operations of the registry. *)
Inductive op :=
| AddStream (camera : Camera.t)
| RemoveStream (camera_id : string)
| UpdateStreamFeatures (camera_id : string) (features : Camera.features_t).

Definition apply_op (self : t) (o : op) : t :=
  match o with
  | AddStream camera => (add_stream self camera).2
  | RemoveStream camera_id => (remove_stream self camera_id).2
  | UpdateStreamFeatures camera_id features =>
      update_stream_features self camera_id features
  end.

(** A session has a tracker exactly while its tracking flag is on. *)
Definition tracker_follows_flag (s : CameraStream) : Prop :=
  is_Some (tracker s) <-> Camera.tracking_on (Camera.features (camera s)) = true.

Definition well_formed (self : t) : Prop :=
  forall camera_id s, self !! camera_id = Some s -> tracker_follows_flag s.

End StreamManager.

(* ===================================================================== *)
(** * hashlib.md5 *)
(* ===================================================================== *)

(** [hashlib.md5(data).hexdigest()] is Python's library; this is MD5 as
    RFC 1321 defines it, on 32-bit words held in [Z] with the wrap-around
    written out. *)
Module MD5.

Definition mask32 : Z := 0xffffffff.
Definition add32 (a b : Z) : Z := Z.land (a + b) mask32.
Definition not32 (a : Z) : Z := Z.lxor a mask32.
Definition rotl32 (x s : Z) : Z :=
  Z.land (Z.lor (Z.shiftl x s) (Z.shiftr x (32 - s))) mask32.

Definition K : list Z :=
  [0xd76aa478; 0xe8c7b756; 0x242070db; 0xc1bdceee; 0xf57c0faf; 0x4787c62a;
   0xa8304613; 0xfd469501; 0x698098d8; 0x8b44f7af; 0xffff5bb1; 0x895cd7be;
   0x6b901122; 0xfd987193; 0xa679438e; 0x49b40821; 0xf61e2562; 0xc040b340;
   0x265e5a51; 0xe9b6c7aa; 0xd62f105d; 0x02441453; 0xd8a1e681; 0xe7d3fbc8;
   0x21e1cde6; 0xc33707d6; 0xf4d50d87; 0x455a14ed; 0xa9e3e905; 0xfcefa3f8;
   0x676f02d9; 0x8d2a4c8a; 0xfffa3942; 0x8771f681; 0x6d9d6122; 0xfde5380c;
   0xa4beea44; 0x4bdecfa9; 0xf6bb4b60; 0xbebfbc70; 0x289b7ec6; 0xeaa127fa;
   0xd4ef3085; 0x04881d05; 0xd9d4d039; 0xe6db99e5; 0x1fa27cf8; 0xc4ac5665;
   0xf4292244; 0x432aff97; 0xab9423a7; 0xfc93a039; 0x655b59c3; 0x8f0ccc92;
   0xffeff47d; 0x85845dd1; 0x6fa87e4f; 0xfe2ce6e0; 0xa3014314; 0x4e0811a1;
   0xf7537e82; 0xbd3af235; 0x2ad7d2bb; 0xeb86d391].

Definition shifts : list Z :=
  [7; 12; 17; 22; 7; 12; 17; 22; 7; 12; 17; 22; 7; 12; 17; 22;
   5; 9; 14; 20; 5; 9; 14; 20; 5; 9; 14; 20; 5; 9; 14; 20;
   4; 11; 16; 23; 4; 11; 16; 23; 4; 11; 16; 23; 4; 11; 16; 23;
   6; 10; 15; 21; 6; 10; 15; 21; 6; 10; 15; 21; 6; 10; 15; 21].

(** The bytes of a string ([str.encode()]; a [string] is its bytes). *)
Definition bytes_of_string (s : string) : list Z :=
  map (fun c => Z.of_N (N_of_ascii c)) (list_ascii_of_string s).

(** [n] bytes of [x], least significant first. *)
Fixpoint le_bytes (n : nat) (x : Z) : list Z :=
  match n with
  | O => []
  | S n' => Z.land x 0xff :: le_bytes n' (Z.shiftr x 8)
  end.

(** Padding: a 1 bit, zeros up to 56 modulo 64, the bit length on 64 bits. *)
Definition pad (msg : list Z) : list Z :=
  let len := Z.of_nat (length msg) in
  msg ++ [0x80] ++ repeat 0 (Z.to_nat ((55 - len) mod 64))
      ++ le_bytes 8 (8 * len).

(** Cutting into blocks of 64 bytes. *)
Fixpoint blocks (fuel : nat) (bytes : list Z) : list (list Z) :=
  match fuel, bytes with
  | S fuel', _ :: _ => take 64 bytes :: blocks fuel' (drop 64 bytes)
  | _, _ => []
  end.

(** The 16 little-endian words of a block. *)
Fixpoint words (n : nat) (block : list Z) : list Z :=
  match n, block with
  | S n', b0 :: b1 :: b2 :: b3 :: rest =>
      (b0 + Z.shiftl b1 8 + Z.shiftl b2 16 + Z.shiftl b3 24) :: words n' rest
  | _, _ => []
  end.

Definition state : Type := Z * Z * Z * Z.

Definition step (M : list Z) (st : state) (i : nat) : state :=
  let '(a, b, c, d) := st in
  let '(f, g) :=
    if (i <? 16)%nat then
      (Z.lor (Z.land b c) (Z.land (not32 b) d), i)
    else if (i <? 32)%nat then
      (Z.lor (Z.land d b) (Z.land (not32 d) c), ((5 * i + 1) mod 16)%nat)
    else if (i <? 48)%nat then
      (Z.lxor (Z.lxor b c) d, ((3 * i + 5) mod 16)%nat)
    else
      (Z.lxor c (Z.lor b (not32 d)), ((7 * i) mod 16)%nat) in
  let f' := add32 (add32 (add32 f a) (nth i K 0)) (nth g M 0) in
  (d, add32 b (rotl32 f' (nth i shifts 0)), b, c).

Definition process_block (st : state) (block : list Z) : state :=
  let '(a0, b0, c0, d0) := st in
  let '(a, b, c, d) := fold_left (step (words 16 block)) (seq 0 64) st in
  (add32 a0 a, add32 b0 b, add32 c0 c, add32 d0 d).

Definition initial : state :=
  (0x67452301, 0xefcdab89, 0x98badcfe, 0x10325476).

Definition digest (msg : list Z) : list Z :=
  let padded := pad msg in
  let '(a, b, c, d) :=
    fold_left process_block (blocks (length padded) padded) initial in
  le_bytes 4 a ++ le_bytes 4 b ++ le_bytes 4 c ++ le_bytes 4 d.

Definition hex_digit (n : Z) : ascii :=
  nth (Z.to_nat n)
    (list_ascii_of_string "0123456789abcdef") "0"%char.

Definition hex_of_byte (b : Z) : string :=
  String (hex_digit (Z.shiftr b 4)) (String (hex_digit (Z.land b 0xf)) "").

(** [hashlib.md5(s.encode()).hexdigest()] *)
Definition hexdigest (s : string) : string :=
  String.concat "" (map hex_of_byte (digest (bytes_of_string s))).

End MD5.

(* ===================================================================== *)
(** * app/api/http_camera_proxy.py: Digest authentication *)
(* ===================================================================== *)

Module DigestAuth.

Local Open Scope string_scope.

(** [DigestAuth]: the credentials and the request counter. *)
Record t := mk {
  username : string;
  password : string;
  nc : N
}.

(** [DigestAuth(username, password)] *)
Definition init (username password : string) : t :=
  {| username := username; password := password; nc := 0 |}.

(** [format(n, 'x')]: lower-case hexadecimal, no leading zero. *)
Fixpoint hex_digits (fuel : nat) (n : N) (acc : string) : string :=
  match fuel with
  | O => acc
  | S fuel' =>
      if N.eqb n 0 then acc
      else hex_digits fuel' (N.shiftr n 4)
             (String (MD5.hex_digit (Z.of_N (N.land n 15))) acc)
  end.

Definition format_x (n : N) : string :=
  if N.eqb n 0 then "0" else hex_digits (S (N.size_nat n)) n "".

(** [f'{n:08x}']: the same, padded with zeros to eight characters. *)
Definition format_08x (n : N) : string :=
  let digits := format_x n in
  String.concat "" (repeat "0" (8 - String.length digits)) ++ digits.

(** The double quote. *)
Definition dq : string := String (ascii_of_nat 34) "".

(** [challenge.get(key, default)] on the parsed challenge. *)
Definition get (challenge : gmap string string) (key default : string)
    : string :=
  match challenge !! key with
  | Some v => v
  | None => default
  end.

(** Truth of a string: not empty. *)
Definition nonempty (s : string) : bool :=
  match s with
  | EmptyString => false
  | String _ _ => true
  end.

(** [_build_digest_header(method, uri, challenge)]: the header, and the
    object afterwards.  [cnonce] is what [random.choices] gave. *)
Definition _build_digest_header (self : t) (method uri : string)
    (challenge : gmap string string) (cnonce : string) : string * t :=
  let realm := get challenge "realm" "" in
  let nonce := get challenge "nonce" "" in
  let qop := get challenge "qop" "" in
  let opaque := get challenge "opaque" "" in
  let algorithm := get challenge "algorithm" "MD5" in
  let nc' := (nc self + 1)%N in
  let nc_value := format_08x nc' in
  let ha1_input := username self ++ ":" ++ realm ++ ":" ++ password self in
  let ha1 := MD5.hexdigest ha1_input in
  let ha2_input := method ++ ":" ++ uri in
  let ha2 := MD5.hexdigest ha2_input in
  let response_input :=
    if nonempty qop
    then ha1 ++ ":" ++ nonce ++ ":" ++ nc_value ++ ":" ++ cnonce ++ ":"
             ++ qop ++ ":" ++ ha2
    else ha1 ++ ":" ++ nonce ++ ":" ++ ha2 in
  let response_hash := MD5.hexdigest response_input in
  let auth_header :=
    "Digest username=" ++ dq ++ username self ++ dq ++ ", "
      ++ "realm=" ++ dq ++ realm ++ dq ++ ", "
      ++ "nonce=" ++ dq ++ nonce ++ dq ++ ", "
      ++ "uri=" ++ dq ++ uri ++ dq ++ ", "
      ++ "response=" ++ dq ++ response_hash ++ dq in
  let auth_header :=
    if nonempty qop
    then auth_header ++ ", qop=" ++ qop ++ ", nc=" ++ nc_value
           ++ ", cnonce=" ++ dq ++ cnonce ++ dq
    else auth_header in
  let auth_header :=
    if nonempty opaque
    then auth_header ++ ", opaque=" ++ dq ++ opaque ++ dq
    else auth_header in
  let auth_header :=
    if nonempty algorithm
    then auth_header ++ ", algorithm=" ++ algorithm
    else auth_header in
  (auth_header,
   {| username := username self; password := password self; nc := nc' |}).

(** [\w] and [\s] on ASCII, as Python's [re] has them for a [str]
    pattern: a word character is a letter, a digit or the underscore;
    white space is the blank, the controls 9 to 13 and the separators 28
    to 31.  The header is taken to be ASCII: what [re] does with other
    characters is outside the model. *)
Definition is_word (c : ascii) : bool :=
  let n := nat_of_ascii c in
  ((48 <=? n) && (n <=? 57) || (65 <=? n) && (n <=? 90)
   || (97 <=? n) && (n <=? 122) || (n =? 95))%nat.

Definition is_space (c : ascii) : bool :=
  let n := nat_of_ascii c in
  ((n =? 32) || (9 <=? n) && (n <=? 13) || (28 <=? n) && (n <=? 31))%nat.

Definition is_quote (c : ascii) : bool := (nat_of_ascii c =? 34)%nat.

(** The longest prefix of characters satisfying [p], and what follows. *)
Fixpoint span (p : ascii -> bool) (s : string) : string * string :=
  match s with
  | String c rest =>
      if p c then let '(a, b) := span p rest in (String c a, b) else ("", s)
  | EmptyString => ("", "")
  end.

(** [s.strip] of the double quote, on the left and on the right. *)
Fixpoint lstrip_quotes (s : string) : string :=
  match s with
  | String c rest => if is_quote c then lstrip_quotes rest else s
  | EmptyString => ""
  end.

Fixpoint rstrip_quotes (s : string) : string :=
  match s with
  | String c rest =>
      match rstrip_quotes rest with
      | EmptyString => if is_quote c then "" else String c ""
      | r => String c r
      end
  | EmptyString => ""
  end.

Definition strip_quotes (s : string) : string :=
  rstrip_quotes (lstrip_quotes s).

(** The value part of the pattern matched at the head of [s]: a run
    between two double quotes if there is one, else the longest run
    without comma or white space; the text matched and what follows. *)
Definition match_value (s : string) : string * string :=
  let unquoted := span (fun c => negb (Ascii.eqb c ","%char || is_space c)) s in
  match s with
  | String c rest =>
      if is_quote c then
        match span (fun c => negb (is_quote c)) rest with
        | (inner, String q rest') => (String c (inner ++ String q ""), rest')
        | (_, EmptyString) => unquoted
        end
      else unquoted
  | EmptyString => unquoted
  end.

(** [_parse_challenge(www_authenticate)]: the matches of the pattern
    (a word, an equals sign, a value), left to right, later keys over
    earlier. *)
Fixpoint parse_from (fuel : nat) (s : string) (challenge : gmap string string)
    : gmap string string :=
  match fuel, s with
  | S fuel', String c rest =>
      if is_word c then
        let '(key, after_key) := span is_word s in
        match after_key with
        | String eq after_eq =>
            if Ascii.eqb eq "="%char then
              let '(value, after_value) := match_value after_eq in
              parse_from fuel' after_value
                (<[key := strip_quotes value]> challenge)
            else parse_from fuel' after_key challenge
        | EmptyString => challenge
        end
      else parse_from fuel' rest challenge
  | _, _ => challenge
  end.

Definition _parse_challenge (www_authenticate : string) : gmap string string :=
  parse_from (String.length www_authenticate) www_authenticate ∅.

(** What [_parse_challenge] lets into the challenge: a key that is a
    non-empty run of word characters, and a value with no double quote
    left to strip. *)
Definition clean (key value : string) : Prop :=
  key <> "" /\
  Forall (fun c => is_word c = true) (list_ascii_of_string key) /\
  strip_quotes value = value /\
  forall c r, value = String c r -> is_quote c = false.

(** As many requests in a row on one object, each with its own method,
    URI, challenge and cnonce: the headers sent. *)
Fixpoint requests (self : t)
    (rs : list (string * string * gmap string string * string))
    : list string * t :=
  match rs with
  | [] => ([], self)
  | (method, uri, challenge, cnonce) :: rs' =>
      let '(h, self') := _build_digest_header self method uri challenge cnonce in
      let '(hs, self'') := requests self' rs' in
      (h :: hs, self'')
  end.

End DigestAuth.

(* ===================================================================== *)
(** * app/api/http_camera_proxy.py: the streaming relay *)
(* ===================================================================== *)

(** [base64.b64encode], Python's library, on the bytes of a string. *)
Module Base64.

Definition alphabet : list ascii :=
  list_ascii_of_string
    "ABCDEFGHIJKLMNOPQRSTUVWXYZabcdefghijklmnopqrstuvwxyz0123456789+/".

Definition digit (n : Z) : string :=
  String (nth (Z.to_nat (Z.land n 63)) alphabet "="%char) "".

Fixpoint encode (bytes : list Z) : string :=
  match bytes with
  | a :: b :: c :: rest =>
      let n := (Z.shiftl a 16 + Z.shiftl b 8 + c)%Z in
      (digit (Z.shiftr n 18) ++ digit (Z.shiftr n 12) ++ digit (Z.shiftr n 6)
         ++ digit n ++ encode rest)%string
  | [a; b] =>
      let n := (Z.shiftl a 16 + Z.shiftl b 8)%Z in
      (digit (Z.shiftr n 18) ++ digit (Z.shiftr n 12) ++ digit (Z.shiftr n 6)
         ++ "=")%string
  | [a] =>
      let n := Z.shiftl a 16 in
      (digit (Z.shiftr n 18) ++ digit (Z.shiftr n 12) ++ "==")%string
  | [] => ""%string
  end.

Definition b64encode (s : string) : string := encode (MD5.bytes_of_string s).

End Base64.

Module Relay.

Local Open Scope string_scope.

(** What the camera's HTTP server answers to one GET: status, headers,
    and the chunks of the body as [iter_any] hands them over. *)
Record Response := mkResponse {
  status : Z;
  headers : gmap string string;
  content : list string
}.

(** The camera's server: its answer to a GET with the given
    [Authorization] header (none on the probe); [None] when the
    connection fails ([aiohttp] raises). *)
Definition Upstream : Type := option string -> option Response.

(** What the generator does that is seen from outside: the chunks it
    yields to the subscriber, and the statuses it writes to the error
    log ("Camera returned status ..."). *)
Record Trace := mkTrace {
  yielded : list string;
  logged_status : list Z;
  logged_exception : bool
}.

(** [needle in s] *)
Fixpoint contains (fuel : nat) (needle s : string) : bool :=
  if String.prefix needle s then true
  else match fuel, s with
       | S fuel', String _ rest => contains fuel' needle rest
       | _, _ => false
       end.

Definition is_in (needle s : string) : bool :=
  contains (String.length s) needle s.

(** Truth of an optional string: there, and not empty. *)
Definition given (s : option string) : bool :=
  match s with
  | Some v => DigestAuth.nonempty v
  | None => false
  end.

(** The loop over the body: before each chunk the subscriber is asked
    whether it is still there ([disconnected k] is the answer at the
    [k]-th question); empty chunks are not passed on. *)
Fixpoint pass_through (chunks : list string) (disconnected : nat -> bool)
    (k : nat) : list string :=
  match chunks with
  | [] => []
  | chunk :: rest =>
      if disconnected k then []
      else if DigestAuth.nonempty chunk
      then chunk :: pass_through rest disconnected (S k)
      else pass_through rest disconnected (S k)
  end.

(** The [Authorization] header built after the probe, if any. *)
Definition authorization_header (username password : option string)
    (uri : string) (probe : Response) (cnonce : string) : option string :=
  let www_auth_header :=
    if (status probe =? 401)%Z
    then Some (DigestAuth.get (headers probe) "WWW-Authenticate" "")
    else None in
  let auth_type :=
    match www_auth_header with
    | Some h =>
        if is_in "Digest" h then Some "digest"
        else if is_in "Basic" h then Some "basic"
        else None
    | None => None
    end in
  match username, password with
  | Some user, Some pass =>
      if given username && given password then
        match auth_type, www_auth_header with
        | Some "digest", Some h =>
            let digest := DigestAuth.init user pass in
            let challenge := DigestAuth._parse_challenge h in
            Some (DigestAuth._build_digest_header digest "GET" uri
                    challenge cnonce).1
        | _, _ =>
            Some ("Basic " ++ Base64.b64encode (user ++ ":" ++ pass))
        end
      else None
  | _, _ => None
  end.

(** [stream_generator()], for the credentials and the URI taken from the
    camera's URL: the probe, the request with the header, and the body
    passed through if the status is 200. *)
Definition stream_generator (username password : option string)
    (uri : string) (upstream : Upstream) (disconnected : nat -> bool)
    (cnonce : string) : Trace :=
  let failed := {| yielded := []; logged_status := [];
                   logged_exception := true |} in
  match upstream None with
  | None => failed
  | Some probe =>
      match upstream (authorization_header username password uri probe cnonce) with
      | None => failed
      | Some response =>
          if negb (status response =? 200)%Z
          then {| yielded := []; logged_status := [status response];
                  logged_exception := false |}
          else {| yielded := pass_through (content response) disconnected 0;
                  logged_status := []; logged_exception := false |}
      end
  end.

(** What the subscriber gets back from the endpoint. *)
Inductive Reply :=
| HTTPException (status_code : Z) (detail : string)
| StreamingResponse (status_code : Z) (media_type : string)
    (headers : list (string * string)) (body : list string).

(** The camera row as the endpoint reads it: its URL, taken apart by
    [urlparse]. *)
Record Url := mkUrl {
  url_username : option string;
  url_password : option string;
  url_path : string;
  url_query : string
}.

(** [uri]: the path, and the query if there is one. *)
Definition request_uri (parsed : Url) : string :=
  if DigestAuth.nonempty (url_query parsed)
  then url_path parsed ++ "?" ++ url_query parsed
  else url_path parsed.

(** The headers every streaming reply is given. *)
Definition streaming_headers : list (string * string) :=
  [("Cache-Control", "no-cache, no-store, must-revalidate");
   ("Pragma", "no-cache"); ("Expires", "0");
   ("Connection", "keep-alive");
   ("Access-Control-Allow-Origin", "*")].

(** [proxy_camera_stream(camera_id)] when nothing raises before the reply
    is built: [camera] is what the camera service found for the id, with
    its stream URL if it has one, taken apart.  A [StreamingResponse] is
    built with no [status_code], so it opens with 200; its body is what
    the generator yields.  ([proxy_camera_stream_try] below is the
    endpoint with its [except] clauses.) *)
Definition proxy_camera_stream (camera_id : string)
    (camera : option (option Url)) (upstream : Upstream)
    (disconnected : nat -> bool) (cnonce : string) : Reply * Trace :=
  let silent := {| yielded := []; logged_status := [];
                   logged_exception := false |} in
  match camera with
  | None =>
      (HTTPException 404 ("Camera " ++ camera_id ++ " not found"), silent)
  | Some None =>
      (HTTPException 400 "Camera has no stream URL configured", silent)
  | Some (Some parsed) =>
      let trace :=
        stream_generator (url_username parsed) (url_password parsed)
          (request_uri parsed) upstream disconnected cnonce in
      (StreamingResponse 200 "multipart/x-mixed-replace; boundary=myboundary"
         streaming_headers (yielded trace),
       trace)
  end.

(** What the endpoint has before it builds its reply.  The camera
    service may raise, and so may [urlparse(...).port] (a [ValueError],
    for a port that is not a number in range): [Raises] carries the
    text of the exception.  Otherwise the camera is not found, has no
    stream URL, or has one that is taken apart. *)
Inductive Setup :=
| Raises (message : string)
| NotFound
| NoUrl
| Parsed (parsed : Url).

(** [proxy_camera_stream(camera_id)] with its [except] clauses: an
    [HTTPException] raised inside (404, 400) is raised again as it is,
    any other exception becomes an [HTTPException] with status 500 and
    the text of the exception.
<<
    except HTTPException:
      raise
    except Exception as e:
      raise HTTPException(status_code=500, detail=str(e))
>> *)
Definition proxy_camera_stream_try (camera_id : string) (setup : Setup)
    (upstream : Upstream) (disconnected : nat -> bool) (cnonce : string)
    : Reply * Trace :=
  match setup with
  | Raises message =>
      (HTTPException 500 message,
       {| yielded := []; logged_status := []; logged_exception := true |})
  | NotFound =>
      proxy_camera_stream camera_id None upstream disconnected cnonce
  | NoUrl =>
      proxy_camera_stream camera_id (Some None) upstream disconnected cnonce
  | Parsed parsed =>
      proxy_camera_stream camera_id (Some (Some parsed)) upstream
        disconnected cnonce
  end.

(** The status a reply carries. *)
Definition reply_status (r : Reply) : Z :=
  match r with
  | HTTPException status_code _ => status_code
  | StreamingResponse status_code _ _ _ => status_code
  end.

Definition reply_body (r : Reply) : list string :=
  match r with
  | HTTPException _ _ => []
  | StreamingResponse _ _ _ body => body
  end.

(** A camera that asks for Basic credentials and then refuses them, and
    the URL of a camera with credentials. *)
Definition refusing_camera : Upstream :=
  fun authorization =>
    Some {| status := match authorization with
                      | None => 401
                      | Some _ => 403
                      end;
            headers := {["WWW-Authenticate" := "Basic realm=camera"]};
            content := ["--myboundary"] |}.

Definition camera_url : Url :=
  {| url_username := Some "admin"; url_password := Some "secret";
     url_path := "/video"; url_query := "" |}.

End Relay.

(* ===================================================================== *)
(** * Properties *)
(* ===================================================================== *)

(** ** The frame-rate governor *)

Section Governor.
Import FPSRateLimiter.

(** Whatever is offered, the target rate and the interval stay as set. *)
Lemma offer_interval (self : FPSRateLimiter.t) (ts : list Q) :
  frame_interval (snd (offer self ts)) = frame_interval self.
Proof.
  revert self; induction ts as [|now ts IH]; intros self; simpl; [done|].
  destruct (should_process_frame self now) as [d self'] eqn:E.
  specialize (IH self'). destruct (offer self' ts) as [ds self'']. simpl in *.
  rewrite IH. unfold should_process_frame in E.
  destruct (last_frame_time self); [destruct (Qle_bool _ _)|];
    by inversion E.
Qed.

(** [last_frame_time] always holds the reading of the last accepted frame
    (and keeps its old value while none was accepted). *)
Lemma offer_last_frame_time (self : FPSRateLimiter.t) (ts : list Q) :
  last_frame_time (snd (offer self ts)) =
  match last_accepted ts (fst (offer self ts)) with
  | Some l => Some l
  | None => last_frame_time self
  end.
Proof.
  revert self; induction ts as [|now ts IH]; intros self; simpl; [done|].
  destruct (should_process_frame self now) as [d self'] eqn:E.
  specialize (IH self'). destruct (offer self' ts) as [ds self'']. simpl in *.
  rewrite IH. unfold last_accepted. unfold should_process_frame in E.
  destruct (last_frame_time self) as [l0|] eqn:El;
    [destruct (Qle_bool _ _)|]; inversion E; subst; simpl;
    rewrite ?last_cons; by destruct (last (accepted ts ds)).
Qed.

(** The first frame offered to a fresh governor is accepted. *)
Lemma offer_first (self : FPSRateLimiter.t) (now : Q) (ts : list Q) :
  last_frame_time self = None ->
  exists ds, fst (offer self (now :: ts)) = true :: ds.
Proof.
  intros El. simpl. unfold should_process_frame. rewrite El.
  destruct (offer _ ts) as [ds self'']. by exists ds.
Qed.

Lemma interval_of_pos (fps : Q) : (0 < fps)%Q -> interval_of fps = (1 / fps)%Q.
Proof.
  intros H. unfold interval_of. destruct (Qlt_le_dec 0 fps) as [_|Hle]; [done|].
  exfalso. apply (Qlt_not_le _ _ H Hle).
Qed.

(** C3.  With a positive target rate, a fresh governor accepts the first
    frame it is offered whatever the clock says; once frames [ts] (not
    none) have been offered, some frame among them was the last one
    accepted, and the next frame, offered at [now], is accepted if and only
    if the time elapsed since that frame is at least [1/target_fps].  With
    [target_fps = 10] and frames offered at 0, 0.05, 0.12 and 0.21, exactly
    the frames at 0 and 0.12 are accepted. *)
Theorem governor_accepts_iff_interval_elapsed (fps start : Q) :
  (0 < fps)%Q ->
  (forall now : Q,
     fst (should_process_frame (init fps start) now) = true) /\
  (forall (t0 : Q) (ts : list Q) (now : Q),
     let '(ds, self) := offer (init fps start) (t0 :: ts) in
     exists l : Q,
       last_accepted (t0 :: ts) ds = Some l /\
       (fst (should_process_frame self now) = true <->
        (1 / fps <= now - l)%Q)) /\
  (let '(ds, _) := offer (init 10 start) [0; 5 # 100; 12 # 100; 21 # 100]%Q in
   ds = [true; false; true; false] /\
   accepted [0; 5 # 100; 12 # 100; 21 # 100]%Q ds = [0; 12 # 100]%Q).
Proof.
  intros Hfps. split; [done|]. split; [|done].
  intros t0 ts now.
  pose proof (offer_last_frame_time (init fps start) (t0 :: ts)) as Hl.
  pose proof (offer_interval (init fps start) (t0 :: ts)) as Hi.
  destruct (offer_first (init fps start) t0 ts eq_refl) as [ds0 Hd].
  destruct (offer (init fps start) (t0 :: ts)) as [ds self].
  simpl in Hl, Hi, Hd. subst ds.
  unfold last_accepted in *. simpl accepted in *. rewrite last_cons in *.
  set (l := match last (accepted ts ds0) with Some y => y | None => t0 end).
  assert (Hsome : match last (accepted ts ds0) with
                  | Some y => Some y | None => Some t0 end = Some l)
    by (subst l; by destruct (last (accepted ts ds0))).
  rewrite Hsome in Hl |- *. exists l. split; [done|].
  unfold should_process_frame. rewrite Hl, Hi, (interval_of_pos _ Hfps).
  destruct (Qle_bool (1 / fps) (now - l)) eqn:E; simpl.
  - split; [intros _; by apply Qle_bool_iff|done].
  - split; [done|]. intros H. apply Qle_bool_iff in H. congruence.
Qed.

(** The theorem at 10 fps. *)
Lemma governor_accepts_iff_interval_elapsed_witness :
  (0 < 10)%Q /\
  fst (offer (init 10 0) [0; 5 # 100; 12 # 100; 21 # 100]%Q) =
    [true; false; true; false].
Proof.
  split; [reflexivity|].
  exact (proj1 (proj2 (proj2
    (governor_accepts_iff_interval_elapsed 10 0 eq_refl)))).
Defined.

End Governor.

(** ** Dictionaries *)

Section PyDictFacts.
Import PyDict.
Context {V : Type}.
Implicit Types (d : dict V) (k : string) (v : V).

Lemma get_None_keys d k : get k d = None <-> k ∉ keys d.
Proof.
  induction d as [|[k' v'] d IH]; simpl.
  - split; [intros _; apply not_elem_of_nil|done].
  - rewrite not_elem_of_cons.
    destruct (String.eqb_spec k k') as [->|Hne]; [|rewrite IH]; naive_solver.
Qed.

Lemma get_Some_keys d k v : get k d = Some v -> k ∈ keys d.
Proof.
  intros H. destruct (decide (k ∈ keys d)) as [|Hn]; [done|].
  apply get_None_keys in Hn. congruence.
Qed.

Lemma keys_get_is_Some d k : k ∈ keys d -> exists v, get k d = Some v.
Proof.
  intros H. destruct (get k d) as [v|] eqn:E; [by exists v|].
  by apply get_None_keys in E.
Qed.

Lemma get_set_eq d k v : get k (set k v d) = Some v.
Proof.
  induction d as [|[k' v'] d IH]; simpl.
  - by rewrite String.eqb_refl.
  - destruct (String.eqb_spec k k') as [->|Hne]; simpl.
    + by rewrite String.eqb_refl.
    + by destruct (String.eqb_spec k k').
Qed.

Lemma get_set_ne d k k' v : k <> k' -> get k' (set k v d) = get k' d.
Proof.
  intros Hne. induction d as [|[k0 v0] d IH]; simpl.
  - by destruct (String.eqb_spec k' k) as [->|].
  - destruct (String.eqb_spec k k0) as [->|Hne0]; simpl.
    + by destruct (String.eqb_spec k' k0) as [->|].
    + by destruct (String.eqb_spec k' k0).
Qed.

Lemma keys_set_mem d k v : k ∈ keys d -> keys (set k v d) = keys d.
Proof.
  induction d as [|[k' v'] d IH]; simpl.
  - by intros ?%elem_of_nil.
  - intros Hin. destruct (String.eqb_spec k k') as [->|Hne]; simpl; [done|].
    f_equal. apply IH. apply elem_of_cons in Hin. naive_solver.
Qed.

Lemma keys_set_new d k v : k ∉ keys d -> keys (set k v d) = keys d ++ [k].
Proof.
  induction d as [|[k' v'] d IH]; simpl; [done|].
  intros Hin. apply not_elem_of_cons in Hin as [Hne Hin].
  destruct (String.eqb_spec k k') as [->|_]; [done|]. simpl.
  f_equal. by apply IH.
Qed.

Lemma keys_pop d k : keys (pop k d) = pop_key k (keys d).
Proof.
  induction d as [|[k' v'] d IH]; simpl; [done|].
  destruct (String.eqb_spec k k'); simpl; [done|by f_equal].
Qed.

Lemma get_pop_ne d k k' : k <> k' -> get k' (pop k d) = get k' d.
Proof.
  intros Hne. induction d as [|[k0 v0] d IH]; simpl; [done|].
  destruct (String.eqb_spec k k0) as [->|Hne0]; simpl.
  - by destruct (String.eqb_spec k' k0) as [->|].
  - by destruct (String.eqb_spec k' k0).
Qed.

Lemma get_pop_eq d k : NoDup (keys d) -> get k (pop k d) = None.
Proof.
  induction d as [|[k' v'] d IH]; simpl; [done|].
  intros [Hnin Hnd]%NoDup_cons.
  destruct (String.eqb_spec k k') as [->|Hne]; simpl.
  - by apply get_None_keys.
  - destruct (String.eqb_spec k k'); [done|by apply IH].
Qed.

End PyDictFacts.

Import PyDict.

Lemma elem_of_pop_key (k k' : string) (ks : list string) :
  k' ∈ pop_key k ks -> k' ∈ ks.
Proof.
  induction ks as [|k0 ks IH]; simpl; [done|].
  destruct (String.eqb_spec k k0) as [->|Hne]; rewrite ?elem_of_cons;
    naive_solver.
Qed.

Lemma elem_of_pop_key_ne (k k' : string) (ks : list string) :
  k <> k' -> k' ∈ ks -> k' ∈ pop_key k ks.
Proof.
  intros Hne. induction ks as [|k0 ks IH]; simpl; [done|].
  destruct (String.eqb_spec k k0) as [->|Hne0]; rewrite ?elem_of_cons;
    naive_solver.
Qed.

Lemma NoDup_pop_key (k : string) (ks : list string) :
  NoDup ks -> NoDup (pop_key k ks).
Proof.
  induction ks as [|k0 ks IH]; simpl; [done|].
  intros [Hnin Hnd]%NoDup_cons.
  destruct (String.eqb_spec k k0) as [->|Hne]; [done|].
  apply NoDup_cons. split; [|by apply IH].
  intros Hin. by apply elem_of_pop_key in Hin.
Qed.

Lemma not_elem_of_pop_key (k : string) (ks : list string) :
  NoDup ks -> k ∉ pop_key k ks.
Proof.
  induction ks as [|k0 ks IH]; simpl; [intros _; apply not_elem_of_nil|].
  intros [Hnin Hnd]%NoDup_cons.
  destruct (String.eqb_spec k k0) as [->|Hne]; [done|].
  apply not_elem_of_cons. split; [done|by apply IH].
Qed.

(** ** The tracker: its three maps move together *)

Section TrackerInvariant.
Import Tracker.

Lemma consistent_init (md : Z) (mx : R) : consistent (Tracker.init md mx).
Proof. repeat split; simpl; constructor. Qed.

Lemma keys_set_fn {V W} (d : dict V) (d' : dict W) k v v' :
  keys d = keys d' -> keys (set k v d) = keys (set k v' d').
Proof.
  intros E. destruct (decide (k ∈ keys d)) as [Hin|Hnin].
  - rewrite !keys_set_mem; congruence.
  - rewrite !keys_set_new; congruence.
Qed.

Lemma NoDup_keys_set {V} (d : dict V) k v :
  NoDup (keys d) -> NoDup (keys (set k v d)).
Proof.
  intros Hnd. destruct (decide (k ∈ keys d)) as [Hin|Hnin].
  - by rewrite keys_set_mem.
  - rewrite keys_set_new by done. apply NoDup_app. repeat split; [done| |].
    + intros x Hx ->%list_elem_of_singleton. done.
    + apply NoDup_singleton.
Qed.

Lemma consistent_register env w self c det :
  consistent self -> consistent (register env w self c det).1.2.
Proof.
  intros (Hd & Hk & Hnd). unfold consistent; simpl. repeat split.
  - by apply keys_set_fn.
  - by apply keys_set_fn.
  - by apply NoDup_keys_set.
Qed.

Lemma consistent_deregister self tid :
  consistent self -> consistent (deregister self tid).
Proof.
  intros (Hd & Hk & Hnd). unfold consistent; simpl.
  rewrite !keys_pop, Hd, Hk. repeat split. by apply NoDup_pop_key.
Qed.

(** Replacing, in all three maps, the values of a key that is there. *)
Lemma consistent_set_present self tid o d kf :
  consistent self -> tid ∈ keys (objects self) ->
  consistent (with_maps self (set tid o (objects self))
                (set tid d (disappeared self))
                (set tid kf (kalman_filters self))).
Proof.
  intros (Hd & Hk & Hnd) Hin. unfold consistent; simpl.
  rewrite !keys_set_mem by congruence. done.
Qed.

Lemma mark_disappeared_spec self tid :
  consistent self -> tid ∈ keys (objects self) ->
  exists self', mark_disappeared self tid = Some self' /\
    consistent self' /\ same_limits self self' /\
    aged self self' tid /\
    (forall k, k <> tid -> untouched self self' k) /\
    (forall k, k ∈ keys (objects self') -> k ∈ keys (objects self)).
Proof.
  intros Hc Hin. pose proof Hc as (Hd & Hk & Hnd).
  destruct (keys_get_is_Some (objects self) tid Hin) as [o Ho].
  assert (Hin' : tid ∈ keys (disappeared self)) by (by rewrite Hd).
  destruct (keys_get_is_Some (disappeared self) tid Hin') as [d Hdis].
  unfold mark_disappeared. rewrite Hdis, Ho. simpl. rewrite get_set_eq. simpl.
  set (self1 := with_maps self _ _ _).
  assert (Hc1 : consistent self1).
  { unfold self1, consistent; simpl.
    rewrite !keys_set_mem by congruence. done. }
  case_bool_decide as Hgt.
  - eexists; split; [done|]. split; [by apply consistent_deregister|].
    split; [done|]. split; [|split].
    + intros o' d' Ho' Hd'. rewrite Ho in Ho'. rewrite Hdis in Hd'.
      simplify_eq. rewrite bool_decide_true by done. simpl.
      rewrite !get_pop_eq;
        [done|try apply NoDup_keys_set; by rewrite ?Hk, ?Hd..].
    + intros k Hne. unfold untouched; simpl.
      rewrite !get_pop_ne, !get_set_ne by done. done.
    + simpl. rewrite keys_pop. intros k Hk'%elem_of_pop_key.
      by rewrite keys_set_mem in Hk'.
  - eexists; split; [done|]. split; [done|]. split; [done|]. split; [|split].
    + intros o' d' Ho' Hd'. rewrite Ho in Ho'. rewrite Hdis in Hd'.
      simplify_eq. rewrite bool_decide_false by done. simpl.
      by rewrite !get_set_eq.
    + intros k Hne. unfold untouched; simpl.
      rewrite !get_set_ne by done. done.
    + simpl. intros k. by rewrite keys_set_mem.
Qed.

Lemma untouched_keys self self' k :
  untouched self self' k ->
  k ∈ keys (objects self) -> k ∈ keys (objects self').
Proof.
  intros (Ho & _ & _) Hin.
  destruct (keys_get_is_Some _ _ Hin) as [o E]. rewrite <- Ho in E.
  by apply get_Some_keys in E.
Qed.

Lemma aged_trans_l self self1 self' k :
  same_limits self self1 ->
  untouched self self1 k -> aged self1 self' k -> aged self self' k.
Proof.
  unfold aged. intros [Hm _] (Ho & Hd & Hk) Ha o d Eo Ed.
  rewrite <- Ho in Eo. rewrite <- Hd in Ed.
  specialize (Ha o d Eo Ed). rewrite Hm, Hk in Ha. done.
Qed.

Lemma aged_trans_r self self1 self' k :
  aged self self1 k -> untouched self1 self' k -> aged self self' k.
Proof.
  unfold aged. intros Ha (Ho & Hd & Hk) o d Eo Ed.
  specialize (Ha o d Eo Ed). rewrite Ho, Hd, Hk. done.
Qed.

(** The loop [for track_id in ks: ...] over distinct live ids. *)
Lemma mark_all_disappeared_spec (ks : list string) self :
  consistent self -> NoDup ks ->
  (forall k, k ∈ ks -> k ∈ keys (objects self)) ->
  exists self', for_each mark_disappeared ks self = Some self' /\
    consistent self' /\ same_limits self self' /\
    (forall k, k ∈ ks -> aged self self' k) /\
    (forall k, k ∉ ks -> untouched self self' k) /\
    (forall k, k ∈ keys (objects self') -> k ∈ keys (objects self)).
Proof.
  revert self. induction ks as [|k0 ks IH]; intros self Hc Hnd Hsub.
  - exists self. simpl. split; [done|]. split; [done|]. split; [done|].
    split; [by intros k ?%elem_of_nil|]. split; [|done].
    intros k _. by repeat split.
  - apply NoDup_cons in Hnd as [Hk0 Hnd].
    destruct (mark_disappeared_spec self k0 Hc) as
      (self1 & E1 & Hc1 & Hl1 & Ha1 & Hu1 & Hs1).
    { apply Hsub. by left. }
    destruct (IH self1 Hc1 Hnd) as (self' & E & Hc' & Hl' & Ha' & Hu' & Hs').
    { intros k Hin. apply (untouched_keys self); [|apply Hsub; by right].
      apply Hu1. by intros ->. }
    exists self'. simpl. rewrite E1. simpl. split; [done|]. split; [done|].
    split; [|split; [|split]].
    + destruct Hl1, Hl'. split; congruence.
    + intros k [->|Hin]%elem_of_cons.
      * eapply aged_trans_r; [done|by apply Hu'].
      * eapply aged_trans_l; [done| |by apply Ha'].
        apply Hu1. by intros ->.
    + intros k [Hne Hnin]%not_elem_of_cons.
      destruct (Hu1 k Hne) as (? & ? & ?), (Hu' k Hnin) as (? & ? & ?).
      repeat split; congruence.
    + auto.
Qed.

Lemma update_empty_spec env w (self : Tracker.t) :
  consistent self ->
  exists self',
    update env w self [] = Some (objects self', self', w) /\
    consistent self' /\ same_limits self self' /\
    (forall tid, aged self self' tid) /\
    (forall tid, tid ∈ keys (objects self') -> tid ∈ keys (objects self)).
Proof.
  intros Hc. pose proof Hc as (Hd & Hk & Hnd).
  destruct (mark_all_disappeared_spec (keys (disappeared self)) self Hc)
    as (self' & E & Hc' & Hl & Ha & _ & Hs).
  { by rewrite Hd. }
  { intros k. by rewrite Hd. }
  exists self'. unfold update. rewrite E. simpl.
  split; [done|]. split; [done|]. split; [done|]. split; [|done].
  intros tid o d Eo Ed. apply Ha; [|done..]. by eapply get_Some_keys.
Qed.

Lemma consistent_get_None self tid :
  consistent self -> tid ∉ keys (objects self) ->
  get tid (objects self) = None /\
  get tid (disappeared self) = None /\
  get tid (kalman_filters self) = None.
Proof.
  intros (Hd & Hk & _) Hn. rewrite !get_None_keys, Hd, Hk. done.
Qed.

(** [n] calls of [update([])] in a row. *)
Lemma update_empty_iter env w (n : nat) (self : Tracker.t) :
  consistent self ->
  exists self',
    for_each (apply_op env) (replicate n (Update [])) (self, w)
      = Some (self', w) /\
    consistent self' /\ same_limits self self' /\
    (forall tid o d,
       get tid (objects self) = Some o ->
       get tid (disappeared self) = Some d ->
       if bool_decide (0 < Z.of_nat n /\ d + Z.of_nat n > max_disappeared self)%Z
       then get tid (objects self') = None /\
            get tid (disappeared self') = None /\
            get tid (kalman_filters self') = None
       else get tid (objects self') = Some (Nat.iter n tick o) /\
            get tid (disappeared self') = Some (d + Z.of_nat n)%Z /\
            get tid (kalman_filters self') = get tid (kalman_filters self)) /\
    (forall tid, tid ∈ keys (objects self') -> tid ∈ keys (objects self)).
Proof.
  revert self. induction n as [|n IH]; intros self Hc.
  - exists self. split; [done|]. split; [done|]. split; [done|].
    split; [|done]. intros tid o d Eo Ed.
    rewrite bool_decide_false by lia. simpl. by rewrite Z.add_0_r.
  - destruct (update_empty_spec env w self Hc)
      as (self1 & E1 & Hc1 & Hl1 & Ha1 & Hs1).
    destruct (IH self1 Hc1) as (self' & E & Hc' & Hl' & Ha' & Hs').
    exists self'. split.
    { change (replicate (S n) (Update [])) with
        (Update [] :: replicate n (Update [])).
      cbn [for_each apply_op fst snd]. rewrite E1. done. }
    split; [done|].
    split; [destruct Hl1, Hl'; split; congruence|]. split; [|by auto].
    intros tid o d Eo Ed. specialize (Ha1 tid o d Eo Ed).
    destruct Hl1 as [Hm1 _]. case_bool_decide as Hgt1.
    + rewrite bool_decide_true by lia.
      apply consistent_get_None; [done|]. intros Hin%Hs'.
      destruct Ha1 as [Ho1 _]. by apply get_None_keys in Ho1.
    + destruct Ha1 as (Eo1 & Ed1 & Ek1).
      specialize (Ha' tid _ _ Eo1 Ed1). rewrite Hm1 in Ha'.
      rewrite Nat.iter_succ_r, <- Ek1.
      replace (d + Z.of_nat (S n))%Z with (d + 1 + Z.of_nat n)%Z by lia.
      repeat case_bool_decide; try done; lia.
Qed.

(** C1.  From a state whose three maps agree, [update([])] does not
    raise; it returns the objects map of the state it leaves and touches
    neither limit nor the world.  Every object [o] live before the call,
    with skipped-frame count [d], is deregistered (gone from all three
    maps) if [d + 1 > max_disappeared], and otherwise stays, with
    [time_since_update] and [age] one higher and nothing else changed,
    count [d + 1] and its Kalman filter as it was.  No id is live after
    the call that was not before, and the maps still agree.  Over [n]
    such calls in a row an object is deregistered exactly when its count
    [d + n] has passed [max_disappeared], and not before; the default
    limit is 30. *)
Theorem update_without_detections env w (self : Tracker.t) :
  consistent self ->
  (exists self',
    update env w self [] = Some (objects self', self', w) /\
    consistent self' /\ same_limits self self' /\
    (forall tid o d,
       get tid (objects self) = Some o ->
       get tid (disappeared self) = Some d ->
       if bool_decide (d + 1 > max_disappeared self)%Z
       then get tid (objects self') = None /\
            get tid (disappeared self') = None /\
            get tid (kalman_filters self') = None
       else get tid (objects self') = Some (tick o) /\
            time_since_update (tick o) = (time_since_update o + 1)%Z /\
            age (tick o) = (age o + 1)%Z /\
            get tid (disappeared self') = Some (d + 1)%Z /\
            get tid (kalman_filters self') = get tid (kalman_filters self)) /\
    (forall tid, tid ∈ keys (objects self') -> tid ∈ keys (objects self))) /\
  (forall n : nat, exists self',
    for_each (apply_op env) (replicate n (Update [])) (self, w)
      = Some (self', w) /\
    forall tid o d,
       get tid (objects self) = Some o ->
       get tid (disappeared self) = Some d ->
       if bool_decide (0 < Z.of_nat n /\ d + Z.of_nat n > max_disappeared self)%Z
       then get tid (objects self') = None
       else get tid (objects self') = Some (Nat.iter n tick o) /\
            get tid (disappeared self') = Some (d + Z.of_nat n)%Z) /\
  max_disappeared Tracker.default = 30%Z.
Proof.
  intros Hc. split; [|split; [|done]].
  - destruct (update_empty_spec env w self Hc)
      as (self' & E & Hc' & Hl & Ha & Hs).
    exists self'. split; [done|]. split; [done|]. split; [done|].
    split; [|done]. intros tid o d Eo Ed. specialize (Ha tid o d Eo Ed).
    case_bool_decide; naive_solver.
  - intros n. destruct (update_empty_iter env w n self Hc)
      as (self' & E & _ & _ & Ha & _).
    exists self'. split; [done|]. intros tid o d Eo Ed.
    specialize (Ha tid o d Eo Ed). case_bool_decide; naive_solver.
Qed.

Lemma consistent_one_car : consistent one_car.
Proof. apply consistent_register, consistent_init. Qed.

(** The theorem for a tracker holding one car. *)
Lemma update_without_detections_witness :
  consistent one_car /\
  exists self',
    update colliding_env world0 one_car [] = Some (objects self', self', world0).
Proof.
  split; [exact consistent_one_car|].
  destruct (update_without_detections colliding_env world0 one_car
              consistent_one_car) as [(self' & E & _) _].
  by exists self'.
Defined.

End TrackerInvariant.

(** ** The tracker: rows and columns of the distance matrix *)

Section Matrix.
Import Tracker.

Lemma fold_Rmin_le (l : list R) (a : R) :
  (fold_left Rmin l a <= a)%R /\
  (forall y, y ∈ l -> (fold_left Rmin l a <= y)%R) /\
  fold_left Rmin l a ∈ a :: l.
Proof.
  revert a. induction l as [|x l IH]; intros a; simpl.
  - split; [lra|]. split; [by intros y ?%elem_of_nil|by left].
  - destruct (IH (Rmin a x)) as (H1 & H2 & H3).
    pose proof (Rmin_l a x). pose proof (Rmin_r a x).
    split; [lra|]. split.
    + intros y [->|Hy]%elem_of_cons; [lra|by apply H2].
    + apply elem_of_cons in H3 as [E|H3]; [|by do 2 right].
      rewrite E. unfold Rmin. destruct (Rle_dec a x); [by left|right; by left].
Qed.

Lemma minimum_le (xs : list R) (y : R) : y ∈ xs -> (minimum xs <= y)%R.
Proof.
  destruct xs as [|x xs]; [by intros ?%elem_of_nil|]. simpl.
  destruct (fold_Rmin_le xs x) as (H1 & H2 & _).
  intros [->|Hy]%elem_of_cons; [done|by apply H2].
Qed.

Lemma minimum_elem (xs : list R) : xs <> [] -> minimum xs ∈ xs.
Proof.
  destruct xs as [|x xs]; [done|]. intros _. simpl.
  by destruct (fold_Rmin_le xs x) as (_ & _ & H).
Qed.

Lemma argmin_from_spec (xs pre : list R) (bi : nat) (b : R) :
  pre !! bi = Some b ->
  (forall j y, pre !! j = Some y -> (b <= y)%R) ->
  (forall j y, (j < bi)%nat -> pre !! j = Some y -> (b < y)%R) ->
  exists m, (pre ++ xs) !! argmin_from bi b (length pre) xs = Some m /\
    (forall j y, (pre ++ xs) !! j = Some y -> (m <= y)%R) /\
    (forall j y, (j < argmin_from bi b (length pre) xs)%nat ->
       (pre ++ xs) !! j = Some y -> (m < y)%R).
Proof.
  revert pre bi b. induction xs as [|x xs IH]; intros pre bi b Hb Hle Hlt.
  - simpl. rewrite app_nil_r. by exists b.
  - simpl. rewrite (cons_middle x pre xs), app_assoc.
    replace (S (length pre)) with (length (pre ++ [x]))
      by (rewrite length_app; simpl; lia).
    destruct (Rlt_dec x b) as [Hx|Hx].
    + apply IH.
      * rewrite lookup_app_r by lia. by rewrite Nat.sub_diag.
      * intros j y Hj. apply lookup_app_Some in Hj as [Hj|[_ Hj]].
        -- specialize (Hle _ _ Hj). lra.
        -- apply list_lookup_singleton_Some in Hj as [_ <-]. lra.
      * intros j y Hlt' Hj. rewrite lookup_app_l in Hj by done.
        specialize (Hle _ _ Hj). lra.
    + apply IH.
      * rewrite lookup_app_l; [done|]. by eapply lookup_lt_Some.
      * intros j y Hj. apply lookup_app_Some in Hj as [Hj|[_ Hj]].
        -- by eapply Hle.
        -- apply list_lookup_singleton_Some in Hj as [_ <-]. lra.
      * intros j y Hlt' Hj. apply lookup_lt_Some in Hb.
        rewrite lookup_app_l in Hj by lia. by eapply Hlt.
Qed.

(** [argmin] picks the first least entry of a non-empty row. *)
Lemma argmin_spec (xs : list R) :
  xs <> [] ->
  xs !! argmin xs = Some (minimum xs) /\
  (forall j y, (j < argmin xs)%nat -> xs !! j = Some y -> (minimum xs < y)%R).
Proof.
  destruct xs as [|x xs]; [done|]. intros _.
  destruct (argmin_from_spec xs [x] 0 x) as (m & Hm & Hle & Hlt).
  { done. }
  { intros [|j] y Hj; simpl in Hj; [|done]. inversion Hj. lra. }
  { intros; lia. }
  change ([x] ++ xs) with (x :: xs) in *. change (length [x]) with 1%nat in *.
  change (argmin_from 0 x 1 xs) with (argmin (x :: xs)) in *.
  assert (m = minimum (x :: xs)) as ->.
  { apply Rle_antisym.
    - destruct (list_elem_of_lookup_1 _ _ (minimum_elem (x :: xs) ltac:(done)))
        as [j Hj]. by eapply Hle.
    - apply minimum_le. by eapply list_elem_of_lookup_2. }
  done.
Qed.

Lemma insert_sorted_perm (x : R * nat) (l : list (R * nat)) :
  insert_sorted x l ≡ₚ x :: l.
Proof.
  induction l as [|y l IH]; simpl; [done|].
  destruct (Rle_dec (fst x) (fst y)); [done|].
  rewrite IH. apply Permutation_swap.
Qed.

Lemma sort_pairs_perm (l : list (R * nat)) : sort_pairs l ≡ₚ l.
Proof.
  induction l as [|x l IH]; simpl; [done|].
  by rewrite insert_sorted_perm, IH.
Qed.

Lemma insert_ranked_perm (rank : nat -> nat) (x : nat) (l : list nat) :
  insert_ranked rank x l ≡ₚ x :: l.
Proof.
  induction l as [|y l IH]; simpl; [done|].
  destruct (rank x <=? rank y)%nat; [done|].
  rewrite IH. apply Permutation_swap.
Qed.

(** Whatever the ranks, [arrange] gives every element exactly once. *)
Lemma arrange_perm (rank : nat -> nat) (l : list nat) : arrange rank l ≡ₚ l.
Proof.
  induction l as [|x l IH]; simpl; [done|].
  by rewrite insert_ranked_perm, IH.
Qed.

Lemma insert_ranked_sorted (rank : nat -> nat) (x : nat) (l : list nat) :
  StronglySorted (fun a b => (rank a <= rank b)%nat) l ->
  StronglySorted (fun a b => (rank a <= rank b)%nat) (insert_ranked rank x l).
Proof.
  induction l as [|y l IH]; simpl; intros Hs.
  - repeat constructor.
  - apply StronglySorted_inv in Hs as [Hs Hy].
    destruct (rank x <=? rank y)%nat eqn:E.
    + apply Nat.leb_le in E. constructor; [by constructor|].
      constructor; [done|]. rewrite Forall_forall in Hy |- *.
      intros z Hz. specialize (Hy z Hz). simpl in Hy. lia.
    + apply Nat.leb_gt in E. constructor; [by apply IH|].
      rewrite insert_ranked_perm. constructor; [lia|done].
Qed.

Lemma arrange_sorted (rank : nat -> nat) (l : list nat) :
  StronglySorted (fun a b => (rank a <= rank b)%nat) (arrange rank l).
Proof.
  induction l as [|x l IH]; simpl; [constructor|].
  by apply insert_ranked_sorted.
Qed.


Lemma StronglySorted_of_lookup {A} (Rel : A -> A -> Prop) (l : list A) :
  (forall p q a b, (p < q)%nat -> l !! p = Some a -> l !! q = Some b ->
     Rel a b) ->
  StronglySorted Rel l.
Proof.
  induction l as [|x l IH]; intros H; constructor.
  - apply IH. intros p q a b Hpq Ha Hb. by apply (H (S p) (S q)); [lia|..].
  - apply Forall_forall. intros y [q Hq]%list_elem_of_lookup_1.
    by apply (H 0%nat (S q)); [lia|..].
Qed.

(** Every order of a list is the one some ranks give: no order Python or
    numpy may choose is left out. *)
Lemma arrange_complete (l p : list nat) :
  NoDup l -> p ≡ₚ l -> exists rank, arrange rank l = p.
Proof.
  intros Hnd Hp.
  assert (Hndp : NoDup p) by (by rewrite Hp).
  exists (fun x => from_option fst (length p) (list_find (eq x) p)).
  set (rank := fun x => from_option fst (length p) (list_find (eq x) p)).
  assert (Hrank : forall a x, p !! a = Some x -> rank x = a).
  { intros a x Ha. subst rank. cbv beta.
    destruct (list_find (eq x) p) as [[b y]|] eqn:E.
    - apply list_find_Some in E as (Hb & <- & _). simpl.
      by apply (NoDup_lookup p b a x).
    - apply list_find_None in E. rewrite Forall_forall in E.
      exfalso. apply (E x); [|done]. by eapply list_elem_of_lookup_2. }
  apply (StronglySorted_unique_strong (fun a b => (rank a <= rank b)%nat)).
  - intros x1 x2 H1 H2 H12 H21. rewrite arrange_perm, <- Hp in H1.
    apply list_elem_of_lookup_1 in H1 as [a Ha].
    apply list_elem_of_lookup_1 in H2 as [b Hb].
    rewrite (Hrank _ _ Ha), (Hrank _ _ Hb) in H12, H21.
    assert (a = b) as -> by lia. congruence.
  - apply arrange_sorted.
  - apply StronglySorted_of_lookup. intros a b x y Hab Hx Hy.
    rewrite (Hrank _ _ Hx), (Hrank _ _ Hy). lia.
  - by rewrite arrange_perm.
Qed.

(** [argsort] returns every index exactly once. *)
Lemma argsort_perm (ties : nat -> nat) (xs : list R) :
  argsort ties xs ≡ₚ seq 0 (length xs).
Proof.
  unfold argsort. rewrite sort_pairs_perm, map_map. cbn [snd].
  rewrite map_id. apply arrange_perm.
Qed.



(** A list that is in ascending order already is left as it is: the
    order of equal values is the order they were given in. *)
Lemma sort_pairs_id (l : list (R * nat)) :
  StronglySorted (fun a b => (fst a <= fst b)%R) l -> sort_pairs l = l.
Proof.
  induction l as [|x l IH]; intros Hs; [done|].
  apply StronglySorted_inv in Hs as [Hs Hx]. simpl. rewrite IH by done.
  destruct l as [|y l]; [done|]. simpl.
  apply Forall_cons in Hx as [Hxy _].
  by destruct (Rle_dec (fst x) (fst y)).
Qed.












(** Every ascending order of the indices is the one [argsort] gives for
    some ranks: no answer numpy may give is left out. *)
Lemma argsort_complete (xs : list R) (p : list nat) :
  p ≡ₚ seq 0 (length xs) ->
  StronglySorted (fun i j => (nth i xs 0 <= nth j xs 0)%R) p ->
  exists ties, argsort ties xs = p.
Proof.
  intros Hp Hs.
  destruct (arrange_complete (seq 0 (length xs)) p (NoDup_seq _ _) Hp)
    as [ties Hties].
  exists ties. unfold argsort. rewrite Hties, sort_pairs_id.
  - rewrite map_map. cbn [snd]. apply map_id.
  - clear Hp Hties. induction p as [|i l IH]; simpl; constructor.
    + apply IH. by apply StronglySorted_inv in Hs as [Hs _].
    + apply StronglySorted_inv in Hs as [_ Hi].
      apply Forall_forall.
      intros [v j] (k & E & Hk)%list_elem_of_fmap. inversion E; subst.
      simpl. by apply (proj1 (Forall_forall _ _) Hi).
Qed.


End Matrix.

(** ** The tracker: the matching loop *)

Section Loops.
Import Tracker.

Lemma lookup_map {A B} (f : A -> B) (l : list A) (i : nat) :
  map f l !! i = f <$> l !! i.
Proof. exact (list_lookup_fmap f l i). Qed.

(** A loop that keeps an invariant of the part of the list already done
    does not raise, and ends with the invariant of the whole list. *)
Lemma for_each_prefix_ind {S A} (body : S -> A -> option S)
    (P : list A -> S -> Prop) (xs : list A) (s0 : S) :
  P [] s0 ->
  (forall pre x post s, xs = pre ++ x :: post -> P pre s ->
     exists s', body s x = Some s' /\ P (pre ++ [x]) s') ->
  exists s', for_each body xs s0 = Some s' /\ P xs s'.
Proof.
  revert P s0. induction xs as [|x xs IH]; intros P s0 H0 Hstep.
  - by exists s0.
  - destruct (Hstep [] x xs s0 eq_refl H0) as (s1 & E1 & H1).
    destruct (IH (fun pre => P (x :: pre)) s1 H1) as (s' & E & H').
    { intros pre y post s -> Hs. by apply (Hstep (x :: pre) y post). }
    exists s'. simpl. rewrite E1. done.
Qed.

Lemma for_each_ind {S A} (body : S -> A -> option S)
    (P : S -> Prop) (xs : list A) (s0 : S) :
  P s0 ->
  (forall x s, x ∈ xs -> P s -> exists s', body s x = Some s' /\ P s') ->
  exists s', for_each body xs s0 = Some s' /\ P s'.
Proof.
  intros H0 Hstep.
  apply (for_each_prefix_ind body (fun _ => P)); [done|].
  intros pre x post s -> Hs. apply Hstep; [|done].
  apply elem_of_app. right. by left.
Qed.

Lemma assignment_snoc D mx pre x :
  assignment D mx (pre ++ [x]) = assign_step D mx (assignment D mx pre) x.
Proof. unfold assignment. by rewrite fold_left_app. Qed.

Section MatchLoop.
Context (env : Env) (self0 : Tracker.t) (w0 : World)
  (detections : list Detection) (D : list (list R)).
Let ids := keys (objects self0).
Let input_centroids := map centroid_of detections.

Local Abbreviation match_inv := (Tracker.match_inv self0 w0 detections D).

Lemma match_object_step pre st (r c : nat) :
  consistent self0 ->
  (r < length ids)%nat -> (c < length detections)%nat ->
  match_inv pre st ->
  exists st', match_object env D ids detections input_centroids st (r, c)
                = Some st' /\
              match_inv (pre ++ [(r, c)]) st'.
Proof.
  intros Hc0 Hr Hcol. destruct st as [[[self w] ur] uc].
  unfold Tracker.match_inv. cbv zeta. fold ids. rewrite assignment_snoc.
  set (M := assignment D (max_distance self0) pre).
  intros (-> & -> & Hc & Hkeys & Hl & Hu & Hi & Hun & Hm).
  unfold match_object, assign_step.
  destruct (bool_decide (r ∈ M.*1) || bool_decide (c ∈ M.*2)) eqn:Eused.
  { eexists. split; [done|]. simpl. repeat (split; [done|]). done. }
  destruct Hl as [Hmd Hmx]. rewrite Hmx.
  destruct (Rgt_dec (entry D r c) (max_distance self0)) as [Hgt|Hle].
  { eexists. split; [done|]. simpl. repeat (split; [done|]). done. }
  apply orb_false_elim in Eused as [Er Ec].
  apply bool_decide_eq_false in Er, Ec.
  destruct (lookup_lt_is_Some_2 ids r Hr) as [tid Htid].
  destruct (lookup_lt_is_Some_2 detections c Hcol) as [det Hdet].
  assert (Hic : input_centroids !! c = Some (centroid_of det)).
  { unfold input_centroids. by rewrite list_lookup_fmap, Hdet. }
  assert (Hin : tid ∈ keys (objects self)).
  { rewrite Hkeys. by eapply list_elem_of_lookup_2. }
  destruct (keys_get_is_Some _ _ Hin) as [o Ho].
  pose proof Hc as (Hd & Hk & Hnd).
  assert (Hink : tid ∈ keys (kalman_filters self)) by (by rewrite Hk).
  destruct (keys_get_is_Some _ _ Hink) as [kf Hkf].
  rewrite Htid, Hdet, Hic. simpl. rewrite Ho. simpl. rewrite Hkf. simpl.
  eexists. split; [done|]. simpl.
  rewrite !fmap_app. simpl.
  split; [done|]. split; [done|].
  split; [by apply consistent_set_present|].
  split; [by rewrite keys_set_mem|]. split; [done|].
  split; [done|]. split; [done|].
  assert (Hother : forall r' tid', ids !! r' = Some tid' -> r' <> r ->
            tid <> tid').
  { intros r' tid' Hr' Hne ->. apply Hne.
    eapply NoDup_lookup; [|done..]. subst ids. rewrite <- Hkeys. done. }
  split.
  - intros r' tid' Hr' Hnin. apply not_elem_of_app in Hnin as [Hnin Hne].
    apply not_elem_of_cons in Hne as [Hne _].
    specialize (Hother r' tid' Hr' Hne).
    destruct (Hun r' tid' Hr' Hnin) as (E1 & E2 & E3).
    unfold untouched; simpl. by rewrite !get_set_ne.
  - intros r' c' tid' Hr' [Hin'|Hin']%elem_of_app.
    + assert (r' <> r) as Hne.
      { intros ->. apply Er. apply list_elem_of_fmap. by exists (r, c'). }
      specialize (Hother r' tid' Hr' Hne).
      destruct (Hm r' c' tid' Hr' Hin') as (o' & det' & now & ? & ? & ? & ?).
      exists o', det', now. simpl. by rewrite !get_set_ne.
    + apply list_elem_of_singleton in Hin'. inversion Hin'; subst r' c'.
      assert (tid' = tid) as -> by congruence.
      destruct (Hun r tid Htid Er) as (E1 & _ & _).
      exists o, det, (time_time env (clock_calls w)). simpl.
      rewrite !get_set_eq. split; [congruence|done].
Qed.

Lemma match_loop_spec (pairs : list (nat * nat)) :
  consistent self0 ->
  Forall (fun rc => (rc.1 < length ids)%nat /\
                    (rc.2 < length detections)%nat) pairs ->
  exists st',
    for_each (match_object env D ids detections input_centroids) pairs
      (self0, w0, [], []) = Some st' /\
    match_inv pairs st'.
Proof.
  intros Hc0 Hall. apply (for_each_prefix_ind _ match_inv).
  - unfold Tracker.match_inv. cbv zeta. fold ids. simpl. do 7 (split; [done|]). split.
    + intros. by repeat split.
    + intros r c tid _ H. inversion H.
  - intros pre [r c] post st -> Hinv.
    apply Forall_app in Hall as [_ Hall].
    apply Forall_cons in Hall as [[Hr Hcl] _].
    by apply match_object_step.
Qed.

End MatchLoop.

(** The unmatched-object loop is the ageing loop over the ids its rows
    stand for. *)
Lemma unmatched_loop_ids (ids : list string) (rows : list nat)
    (ks : list string) (self : Tracker.t) :
  Forall2 (fun r k => ids !! r = Some k) rows ks ->
  for_each (unmatched_object ids) rows self
  = for_each mark_disappeared ks self.
Proof.
  intros H. revert self. induction H as [|r k rows ks Hr _ IH]; intros self.
  - done.
  - cbn [for_each]. cbv beta in Hr.
    assert (unmatched_object ids self r = mark_disappeared self k) as ->
      by (unfold unmatched_object; by rewrite Hr).
    destruct (mark_disappeared self k); cbn [mbind option_bind];
      [apply IH|done].
Qed.

Lemma rows_to_ids (ids : list string) (rows : list nat) :
  NoDup ids -> NoDup rows ->
  Forall (fun r => (r < length ids)%nat) rows ->
  exists ks, Forall2 (fun r k => ids !! r = Some k) rows ks /\
    NoDup ks /\
    (forall k, k ∈ ks <-> exists r, r ∈ rows /\ ids !! r = Some k).
Proof.
  intros Hids. induction rows as [|r rows IH]; intros Hnd Hlt.
  - exists []. split; [constructor|]. split; [constructor|].
    intros k. split; [by intros ?%elem_of_nil|].
    by intros (r & ?%elem_of_nil & _).
  - apply NoDup_cons in Hnd as [Hr Hnd].
    apply Forall_cons in Hlt as [Hlt Hall].
    destruct (IH Hnd Hall) as (ks & HF & Hks & Hiff).
    destruct (lookup_lt_is_Some_2 ids r Hlt) as [k Hk].
    exists (k :: ks). split; [by constructor|]. split.
    + apply NoDup_cons. split; [|done]. intros (r' & Hr' & Hk')%Hiff.
      assert (r' = r) as -> by (by apply (NoDup_lookup ids r' r k Hids)). done.
    + intros k'. rewrite elem_of_cons, Hiff. split.
      * intros [->|(r' & ? & ?)]; [exists r|exists r'];
          rewrite elem_of_cons; auto.
      * intros (r' & [->|Hr']%elem_of_cons & Hk');
          [left; congruence|right; by exists r'].
Qed.

Lemma world_ok_register env w self c det :
  world_ok env w -> world_ok env (register env w self c det).2.
Proof.
  unfold world_ok, register. cbn [snd issued uuid_calls]. intros ->.
  by rewrite seq_S, map_app.
Qed.

(** Registering the detections at the given columns. *)
Lemma register_loop_spec env (detections : list Detection) (cols : list nat)
    (self : Tracker.t) (w : World) :
  consistent self -> world_ok env w ->
  Forall (fun c => (c < length detections)%nat) cols ->
  exists self' w',
    for_each (register_detection env detections (map centroid_of detections))
      cols (self, w) = Some (self', w') /\
    consistent self' /\ world_ok env w' /\ same_limits self self' /\
    uuid_calls w' = (uuid_calls w + length cols)%nat.
Proof.
  revert self w. induction cols as [|c cols IH]; intros self w Hc Hw Hall.
  - exists self, w. simpl. repeat (split; [done|]). lia.
  - apply Forall_cons in Hall as [Hlt Hall].
    destruct (lookup_lt_is_Some_2 detections c Hlt) as [det Hdet].
    destruct (IH (register env w self (centroid_of det) det).1.2
                 (register env w self (centroid_of det) det).2)
      as (self' & w' & E & Hc' & Hw' & Hl' & Hu'); [|  |done|].
    { by apply consistent_register. }
    { by apply world_ok_register. }
    exists self', w'. cbn [for_each].
    assert (register_detection env detections (map centroid_of detections)
              (self, w) c
            = Some ((register env w self (centroid_of det) det).1.2,
                    (register env w self (centroid_of det) det).2)) as ->.
    { unfold register_detection.
      rewrite lookup_map, Hdet. done. }
    cbn [mbind option_bind]. rewrite E.
    split; [done|]. split; [done|]. split; [done|].
    split; [exact Hl'|]. rewrite Hu'. simpl. lia.
Qed.

(** Whatever order the set is gone through in, it is gone through
    once, and holds the indices that were not used. *)
Lemma elem_of_unused env (n : nat) (used : list nat) (i : nat) :
  i ∈ unused env n used <-> (i < n)%nat /\ i ∉ used.
Proof.
  unfold unused. rewrite arrange_perm, list_elem_of_filter, elem_of_seq.
  split; intros [? ?]; split; (done || lia).
Qed.

Lemma unused_lt env (n : nat) (used : list nat) :
  Forall (fun i => (i < n)%nat) (unused env n used).
Proof. apply Forall_forall. by intros i [Hi _]%elem_of_unused. Qed.

Lemma NoDup_unused env (n : nat) (used : list nat) :
  NoDup (unused env n used).
Proof. unfold unused. rewrite arrange_perm. apply NoDup_filter, NoDup_seq. Qed.

(** The matrix has one row per object and one column per detection. *)
Lemma length_distance_matrix (ocs ics : list point) :
  length (distance_matrix ocs ics) = length ocs.
Proof. unfold distance_matrix. by rewrite length_map. Qed.

Lemma lookup_distance_matrix (ocs ics : list point) (r : nat) (oc : point) :
  ocs !! r = Some oc ->
  distance_matrix ocs ics !! r = Some (map (norm oc) ics).
Proof. intros H. unfold distance_matrix. by rewrite lookup_map, H. Qed.

Lemma nth_lookup_Some' {A} (l : list A) (i : nat) (d x : A) :
  l !! i = Some x -> nth i l d = x.
Proof. intros H. by rewrite nth_lookup, H. Qed.


Lemma rows_of_perm env (D : list (list R)) :
  rows_of env D ≡ₚ seq 0 (length D).
Proof. unfold rows_of. by rewrite argsort_perm, length_map. Qed.

Lemma rows_of_lt env (D : list (list R)) (r : nat) :
  r ∈ rows_of env D -> (r < length D)%nat.
Proof. rewrite rows_of_perm, elem_of_seq. lia. Qed.

(** The column paired with a row is that row's nearest detection. *)
Lemma cols_of_lookup env (ocs ics : list point) (p r : nat) (oc : point) :
  ics <> [] ->
  rows_of env (distance_matrix ocs ics) !! p = Some r ->
  ocs !! r = Some oc ->
  cols_of env (distance_matrix ocs ics) !! p
    = Some (argmin (map (norm oc) ics)).
Proof.
  intros Hne Hp Hr. unfold cols_of. rewrite lookup_map, Hp. simpl. f_equal.
  apply nth_lookup_Some'.
  by rewrite lookup_map, (lookup_distance_matrix _ _ _ _ Hr).
Qed.

Lemma argmin_lt (xs : list R) : xs <> [] -> (argmin xs < length xs)%nat.
Proof.
  intros H. destruct (argmin_spec xs H) as [E _]. by eapply lookup_lt_Some.
Qed.

Lemma pairs_in_range env (ocs ics : list point) :
  ics <> [] ->
  let D := distance_matrix ocs ics in
  Forall (fun rc => (rc.1 < length ocs)%nat /\ (rc.2 < length ics)%nat)
    (zip (rows_of env D) (cols_of env D)).
Proof.
  intros Hne D. apply Forall_forall. intros [r c] Hin.
  apply list_elem_of_lookup_1 in Hin as [p Hp].
  apply lookup_zip_with_Some in Hp as (r' & c' & E & Hr & Hc).
  inversion E; subst r' c'. simpl.
  assert (Hlt : (r < length ocs)%nat).
  { rewrite <- (length_distance_matrix ocs ics). apply (rows_of_lt env).
    by eapply list_elem_of_lookup_2. }
  split; [done|].
  destruct (lookup_lt_is_Some_2 ocs r Hlt) as [oc Hoc].
  subst D. rewrite (cols_of_lookup env _ _ _ _ _ Hne Hr Hoc) in Hc.
  inversion Hc. rewrite <- (length_map (norm oc) ics).
  apply argmin_lt. by destruct ics.
Qed.

(** The centroids read off the live objects, row by row. *)
Lemma object_centroids_spec (self : Tracker.t) :
  exists ocs,
    mapM (fun oid => centroid <$> get oid (objects self))
      (keys (objects self)) = Some ocs /\
    length ocs = length (keys (objects self)) /\
    (forall r tid oc, keys (objects self) !! r = Some tid ->
       ocs !! r = Some oc ->
       exists o, get tid (objects self) = Some o /\ centroid o = oc).
Proof.
  destruct (mapM (fun oid => centroid <$> get oid (objects self))
              (keys (objects self))) as [ocs|] eqn:E.
  - exists ocs. split; [done|]. pose proof E as HF%mapM_Some_1.
    split; [symmetry; by eapply Forall2_length|].
    intros r tid oc Hr Hoc.
    destruct (Forall2_lookup_l _ _ _ _ _ HF Hr) as (oc' & Hoc' & Hget).
    assert (oc' = oc) as -> by congruence.
    destruct (get tid (objects self)) as [o|]; [|done].
    exists o. split; [done|]. by inversion Hget.
  - exfalso. apply mapM_None_1 in E. apply Exists_exists in E as (k & Hk & Hn).
    destruct (keys_get_is_Some _ _ Hk) as [o Ho]. by rewrite Ho in Hn.
Qed.

(** [update] with detections and live objects, step by step. *)
Lemma update_unfold_matching env w (self : Tracker.t)
    (detections : list Detection) :
  detections <> [] -> objects self <> [] ->
  update env w self detections =
    (let input_centroids := map centroid_of detections in
     let object_ids := keys (objects self) in
     object_centroids ←
       mapM (fun oid => centroid <$> get oid (objects self)) object_ids;
     let D := distance_matrix object_centroids input_centroids in
     '(self1, w1, used_rows, used_cols) ←
       for_each (match_object env D object_ids detections input_centroids)
         (zip (rows_of env D) (cols_of env D)) (self, w, [], []);
     self2 ←
       for_each (unmatched_object object_ids)
         (unused env (length D) used_rows) self1;
     '(self3, w3) ←
       for_each (register_detection env detections input_centroids)
         (unused env (length input_centroids) used_cols) (self2, w1);
     Some (objects self3, self3, w3)).
Proof.
  intros Hd Ho. unfold update.
  destruct detections as [|det dets]; [done|].
  by destruct (objects self) as [|kv objs].
Qed.

(** The unmatched-object loop after the matching loop. *)
Lemma unmatched_loop_spec (self1 : Tracker.t) (rows : list nat) :
  consistent self1 -> NoDup rows ->
  Forall (fun r => (r < length (keys (objects self1)))%nat) rows ->
  exists self2,
    for_each (unmatched_object (keys (objects self1))) rows self1
      = Some self2 /\
    consistent self2 /\ same_limits self1 self2 /\
    (forall r tid, keys (objects self1) !! r = Some tid ->
       (r ∈ rows -> aged self1 self2 tid) /\
       (r ∉ rows -> untouched self1 self2 tid)).
Proof.
  intros Hc Hnd Hlt. pose proof Hc as (_ & _ & Hids).
  destruct (rows_to_ids _ rows Hids Hnd Hlt) as (ks & HF & Hks & Hiff).
  rewrite (unmatched_loop_ids _ _ _ _ HF).
  destruct (mark_all_disappeared_spec ks self1 Hc Hks)
    as (self2 & E & Hc2 & Hl & Ha & Hu & _).
  { intros k (r & _ & Hr)%Hiff. by eapply list_elem_of_lookup_2. }
  exists self2. split; [done|]. split; [done|]. split; [done|].
  intros r tid Hr. split.
  - intros Hin. apply Ha, Hiff. by exists r.
  - intros Hnin. apply Hu. intros (r' & Hr' & Hk)%Hiff.
    assert (r' = r) as -> by (by apply (NoDup_lookup _ r' r tid Hids)). done.
Qed.

(** [update] does not raise, and keeps the maps and the world in order. *)
Lemma update_spec env w (self : Tracker.t) (detections : list Detection) :
  consistent self -> world_ok env w ->
  exists self' w',
    update env w self detections = Some (objects self', self', w') /\
    consistent self' /\ world_ok env w' /\ same_limits self self'.
Proof.
  intros Hc Hw.
  destruct (decide (length detections = 0%nat)) as [Hd0|Hdne].
  { destruct detections; [|done].
    destruct (update_empty_spec env w self Hc) as (self' & E & Hc' & Hl & _).
    by exists self', w. }
  assert (Hdets : detections <> []) by (by destruct detections).
  destruct (decide (length (objects self) = 0%nat)) as [Ho0|Hone].
  { destruct (register_loop_spec env detections (seq 0 (length detections))
                self w Hc Hw) as (self' & w' & E & Hc' & Hw' & Hl & _).
    { apply Forall_forall. intros c Hin%elem_of_seq. lia. }
    exists self', w'. unfold update.
    destruct detections as [|det dets]; [done|].
    destruct (objects self); [|done]. rewrite E. done. }
  assert (Hobjs : objects self <> []) by (by destruct (objects self)).
  rewrite (update_unfold_matching env w self detections Hdets Hobjs).
  cbv zeta.
  destruct (object_centroids_spec self) as (ocs & -> & Hlen & _).
  cbn [mbind option_bind].
  set (ics := map centroid_of detections).
  assert (Hics : ics <> []) by (subst ics; by destruct detections).
  set (D := distance_matrix ocs ics).
  destruct (match_loop_spec env self w detections D (zip (rows_of env D) (cols_of env D)) Hc)
    as ([[[self1 w1] ur] uc] & E1 & Hinv).
  { pose proof (pairs_in_range env ocs ics Hics) as HF. cbv zeta in HF.
    subst ics. rewrite length_map, Hlen in HF. exact HF. }
  fold ics in E1. rewrite E1. cbn [mbind option_bind].
  destruct Hinv as (_ & _ & Hc1 & Hk1 & Hl1 & Hu1 & Hi1 & _).
  rewrite <- Hk1.
  destruct (unmatched_loop_spec self1 (unused env (length D) ur) Hc1)
    as (self2 & -> & Hc2 & Hl2 & _).
  { apply NoDup_unused. }
  { rewrite Hk1, <- Hlen, <- (length_distance_matrix ocs ics). apply unused_lt. }
  cbn [mbind option_bind].
  assert (Hw1 : world_ok env w1).
  { unfold world_ok in *. by rewrite Hi1, Hu1. }
  destruct (register_loop_spec env detections (unused env (length ics) uc)
              self2 w1 Hc2 Hw1) as (self3 & w3 & E3 & Hc3 & Hw3 & Hl3 & _).
  { subst ics. rewrite length_map. apply unused_lt. }
  fold ics in E3. rewrite E3. cbn [mbind option_bind].
  exists self3, w3. split; [done|]. split; [done|]. split; [done|].
  destruct Hl1, Hl2, Hl3. split; congruence.
Qed.

End Loops.

(** ** The tracker: what the greedy assignment is *)

Section Assignment.
Import Tracker.
Context (D : list (list R)) (mx : R).






End Assignment.

(** ** The tracker: whole sessions *)

Section Sessions.
Import Tracker.

Lemma apply_op_spec env (self : Tracker.t) (w : World) (o : op) :
  consistent self -> world_ok env w ->
  exists self' w', apply_op env (self, w) o = Some (self', w') /\
    consistent self' /\ world_ok env w'.
Proof.
  intros Hc Hw. destruct o as [c det|tid|dets]; simpl.
  - exists (register env w self c det).1.2, (register env w self c det).2.
    split; [done|]. split; [by apply consistent_register|].
    by apply world_ok_register.
  - exists (deregister self tid), w. split; [done|].
    split; [by apply consistent_deregister|done].
  - destruct (update_spec env w self dets Hc Hw)
      as (self' & w' & -> & Hc' & Hw' & _).
    by exists self', w'.
Qed.

(** No session raises, and every session leaves the maps and the record
    of issued ids in order. *)
Lemma run_spec env (ops : list op) (md : Z) (mx : R) :
  exists self w, run env ops (Tracker.init md mx) = Some (self, w) /\
    consistent self /\ world_ok env w.
Proof.
  unfold run.
  destruct (for_each_ind (apply_op env)
              (fun st => consistent st.1 /\ world_ok env st.2) ops
              (Tracker.init md mx, world0)) as ([self w] & E & Hc & Hw).
  - split; [apply consistent_init|done].
  - intros o [self w] _ [Hc Hw].
    destruct (apply_op_spec env self w o Hc Hw) as (self' & w' & E & ? & ?).
    by exists (self', w').
  - by exists self, w.
Qed.

(** C9.  Whatever operations are applied to a fresh tracker, in whatever
    order, none raises, and afterwards the three maps hold the same track
    ids: they list the same keys in the same order, each once, so an id
    is in one map exactly when it is in the others. *)
Theorem maps_hold_same_track_ids env (ops : list op) (md : Z) (mx : R) :
  exists self w, run env ops (Tracker.init md mx) = Some (self, w) /\
    keys (objects self) = keys (disappeared self) /\
    keys (objects self) = keys (kalman_filters self) /\
    NoDup (keys (objects self)) /\
    (forall tid, mem tid (objects self) = mem tid (disappeared self) /\
                 mem tid (objects self) = mem tid (kalman_filters self)).
Proof.
  destruct (run_spec env ops md mx) as (self & w & E & (Hd & Hk & Hnd) & _).
  exists self, w. split; [done|]. split; [done|]. split; [done|].
  split; [done|]. intros tid.
  assert (Hmem : forall V (d : dict V),
            mem tid d = bool_decide (tid ∈ keys d)).
  { intros V d. unfold mem. destruct (get tid d) eqn:Eg.
    - symmetry. apply bool_decide_eq_true. by eapply get_Some_keys.
    - symmetry. apply bool_decide_eq_false. by apply get_None_keys. }
  by rewrite !Hmem, Hd, Hk.
Qed.

(** C7 (as the code has it).  A track id is the 8-character prefix of a
    random UUID, taken as drawn: in any session the ids issued are the
    successive draws, nothing more.  So no id is issued twice whenever the
    draws made are pairwise distinct. *)
Theorem track_ids_are_the_draws env (ops : list op) (md : Z) (mx : R) :
  exists self w, run env ops (Tracker.init md mx) = Some (self, w) /\
    issued w = map (uuid4_prefix env) (seq 0 (uuid_calls w)) /\
    ((forall i j, (i < uuid_calls w)%nat -> (j < uuid_calls w)%nat ->
        uuid4_prefix env i = uuid4_prefix env j -> i = j) ->
     NoDup (issued w)).
Proof.
  destruct (run_spec env ops md mx) as (self & w & E & _ & Hw).
  exists self, w. split; [done|]. split; [done|].
  intros Hinj. rewrite Hw. apply NoDup_alt. intros i j x Hi Hj.
  rewrite lookup_map in Hi, Hj.
  destruct (seq 0 (uuid_calls w) !! i) as [i'|] eqn:Ei; [|done].
  destruct (seq 0 (uuid_calls w) !! j) as [j'|] eqn:Ej; [|done].
  apply lookup_seq in Ei as [-> ?], Ej as [-> ?]. simpl in *.
  apply Hinj; [done..|congruence].
Qed.

(** C7 as claimed fails: when two draws give the same eight characters,
    two registrations are issued the same track id, and the second object
    takes the place of the first in the maps. *)
Lemma track_id_issued_twice :
  exists self w,
    run colliding_env
      [Register (centroid_of car) car; Register (centroid_of person) person]
      Tracker.default = Some (self, w) /\
    issued w = ["deadbeef"; "deadbeef"]%string /\
    ~ NoDup (issued w) /\
    keys (objects self) = ["deadbeef"]%string /\
    class_name <$> get "deadbeef" (objects self) = Some "person"%string.
Proof.
  eexists _, _. split; [reflexivity|]. split; [reflexivity|]. split.
  - cbn [issued]. intros [Hn _]%NoDup_cons. apply Hn. simpl. by left.
  - split; reflexivity.
Qed.

End Sessions.

(** ** The tracker: greedy nearest-neighbour matching *)

Section Greedy.
Import Tracker.



(** Equal values come out in index order, and the first least entry is
    the one picked. *)
Example argsort_ties :
  argsort (fun i => i) [3; 1; 1; 0]%R = [3; 1; 2; 0]%nat.
Proof.
  unfold argsort. simpl.
  repeat (destruct (Rle_dec _ _); try lra; simpl). reflexivity.
Qed.

Example argmin_first : argmin [2; 1; 1]%R = 1%nat.
Proof.
  unfold argmin. simpl.
  repeat (destruct (Rlt_dec _ _); try lra; simpl). reflexivity.
Qed.

(** Two frames: a car seen around (100, 100), then around (110, 100).
    The second detection is matched to the first object, which then has
    velocity (10, 0), travelled 10 pixels, and is two frames old. *)
Example two_frames :
  exists objs self w o,
    (r ← update colliding_env world0 Tracker.default [box_at 100 100];
     update colliding_env r.2 r.1.2 [box_at 110 100]) = Some (objs, self, w) /\
    objs = objects self /\ keys objs = ["deadbeef"%string] /\
    get "deadbeef" objs = Some o /\
    (velocity o).1 = 10%R /\ (velocity o).2 = 0%R /\
    distance_traveled o = 10%R /\
    age o = 2%Z /\ hits o = 2%Z /\ time_since_update o = 0%Z /\
    issued w = ["deadbeef"%string].
Proof.
  assert (Hs : norm (centroid_of (box_at 100 100))
                 (centroid_of (box_at 110 100)) = 10%R).
  { unfold norm, centroid_of, box_at; simpl.
    replace (_ + _)%R with (10 * 10)%R by lra. apply sqrt_square. lra. }
  do 4 eexists. split.
  - cbn -[centroid_of box_at norm].
    unfold match_object. cbn -[centroid_of box_at norm].
    unfold entry. cbn -[centroid_of box_at norm]. rewrite Hs.
    destruct (Rgt_dec 10 100); [exfalso; lra|].
    cbn -[centroid_of box_at norm]. reflexivity.
  - split; [reflexivity|]. split; [reflexivity|]. split; [reflexivity|].
    unfold matched, centroid_of, box_at. cbn.
    split; [lra|]. split; [lra|]. split.
    + match goal with
      | |- (0 + sqrt ?x)%R = _ => replace x with (10 * 10)%R by lra
      end.
      rewrite sqrt_square; lra.
    + done.
Qed.

(** Two cars around (0, 0) and (20, 0), and a detection around (10, 0),
    as far from the one as from the other. *)
Lemma norm_first_car :
  norm (centroid_of (box_at 0 0)) (centroid_of (box_at 10 0)) = 10%R.
Proof.
  unfold norm, centroid_of, box_at; simpl.
  replace (_ + _)%R with (10 * 10)%R by lra. apply sqrt_square. lra.
Qed.

Lemma norm_second_car :
  norm (centroid_of (box_at 20 0)) (centroid_of (box_at 10 0)) = 10%R.
Proof.
  unfold norm, centroid_of, box_at; simpl.
  replace (_ + _)%R with (10 * 10)%R by lra. apply sqrt_square. lra.
Qed.


(** When [argsort] keeps equal values in index order, the car enumerated
    first takes the detection. *)
Example equal_distance_stable_argsort :
  exists objs self w first second,
    update orderly_env two_cars_world two_cars [box_at 10 0]
      = Some (objs, self, w) /\
    get "aaaaaaaa" objs = Some first /\
    get "bbbbbbbb" objs = Some second /\
    hits first = 2%Z /\ time_since_update first = 0%Z /\
    hits second = 1%Z /\ time_since_update second = 1%Z.
Proof.
  do 5 eexists. split.
  - cbn -[centroid_of box_at norm unused].
    rewrite norm_first_car, norm_second_car.
    destruct (Rle_dec 10 10) as [_|Hn]; [|exfalso; lra].
    cbn -[centroid_of box_at norm unused].
    unfold match_object. cbn -[centroid_of box_at norm unused].
    unfold entry. cbn -[centroid_of box_at norm unused].
    destruct (Rgt_dec 10 100); [exfalso; lra|].
    change (bool_decide (0%nat ∈ [])) with false.
    cbn -[centroid_of box_at norm unused].
    change (bool_decide (0%nat ∈ [0%nat])) with true.
    rewrite orb_true_r.
    cbn -[centroid_of box_at norm unused].
    change (unused orderly_env 2 [0%nat]) with [1%nat].
    change (unused orderly_env 1 [0%nat]) with (@nil nat).
    cbn -[centroid_of box_at norm unused].
    change (bool_decide (0 + 1 > 30)%Z) with false.
    cbn -[centroid_of box_at norm unused]. reflexivity.
  - split; [reflexivity|]. split; [reflexivity|]. cbn. done.
Qed.



End Greedy.

(** ** Calibration *)

Section Calibration.
Import Calibrator.
Local Open Scope R_scope.

Lemma calibrate_two (p1 p2 : CalibrationPoint) (rest : list CalibrationPoint) :
  calibrate_reference_object (p1 :: p2 :: rest) =
    if Req_dec_T (pixel_dist p1 p2) 0 then None
    else if Req_dec_T (real_dist p1 p2) 0 then None
    else if Rlt_dec (pixel_dist p1 p2 / real_dist p1 p2) 10
    then Some (pixel_dist p1 p2 / real_dist p1 p2 * 100)
    else Some (pixel_dist p1 p2 / real_dist p1 p2).
Proof.
  unfold calibrate_reference_object.
  rewrite bool_decide_false by (simpl; lia). done.
Qed.

(** C4.  [calibrate_reference_object] answers "not calibrated" ([None])
    exactly when it is given fewer than two points, or the pixel distance
    or the real distance between the first two is zero.  Otherwise it
    answers the ratio [pixel_dist / real_dist], times 100 when that ratio
    is below 10.  A pixel distance of 50 over a real distance of 1 gives
    50; a pixel distance of 8 over a real distance of 1 gives 800. *)
Theorem calibrate_reference_object_spec (points : list CalibrationPoint) :
  (calibrate_reference_object points = None <->
   (length points < 2)%nat \/
   exists p1 p2 rest, points = p1 :: p2 :: rest /\
     (pixel_dist p1 p2 = 0 \/ real_dist p1 p2 = 0)) /\
  (forall p1 p2 rest, points = p1 :: p2 :: rest ->
     pixel_dist p1 p2 <> 0 -> real_dist p1 p2 <> 0 ->
     let ratio := pixel_dist p1 p2 / real_dist p1 p2 in
     (ratio < 10 -> calibrate_reference_object points = Some (ratio * 100)) /\
     (10 <= ratio -> calibrate_reference_object points = Some ratio)) /\
  (forall p1 p2 rest, points = p1 :: p2 :: rest ->
     pixel_dist p1 p2 = 50 -> real_dist p1 p2 = 1 ->
     calibrate_reference_object points = Some 50) /\
  (forall p1 p2 rest, points = p1 :: p2 :: rest ->
     pixel_dist p1 p2 = 8 -> real_dist p1 p2 = 1 ->
     calibrate_reference_object points = Some 800).
Proof.
  split; [|split; [|split]].
  - destruct points as [|p1 [|p2 rest]].
    + split; [intros _; left; simpl; lia|done].
    + split; [intros _; left; simpl; lia|done].
    + rewrite calibrate_two. split.
      * intros H. right. exists p1, p2, rest. split; [done|].
        destruct (Req_dec_T (pixel_dist p1 p2) 0); [by left|].
        destruct (Req_dec_T (real_dist p1 p2) 0); [by right|].
        by destruct (Rlt_dec _ _).
      * intros [Hlen|(q1 & q2 & rest' & E & Hz)]; [simpl in Hlen; lia|].
        inversion E; subst q1 q2 rest'.
        destruct (Req_dec_T (pixel_dist p1 p2) 0); [done|].
        destruct (Req_dec_T (real_dist p1 p2) 0); [done|].
        by destruct Hz.
  - intros p1 p2 rest -> Hp Hr ratio. rewrite calibrate_two.
    destruct (Req_dec_T (pixel_dist p1 p2) 0); [done|].
    destruct (Req_dec_T (real_dist p1 p2) 0); [done|].
    fold ratio. destruct (Rlt_dec ratio 10); split; intros; (done || lra).
  - intros p1 p2 rest -> Hp Hr. rewrite calibrate_two, Hp, Hr.
    destruct (Req_dec_T 50 0); [lra|]. destruct (Req_dec_T 1 0); [lra|].
    destruct (Rlt_dec (50 / 1) 10); [lra|]. f_equal. lra.
  - intros p1 p2 rest -> Hp Hr. rewrite calibrate_two, Hp, Hr.
    destruct (Req_dec_T 8 0); [lra|]. destruct (Req_dec_T 1 0); [lra|].
    destruct (Rlt_dec (8 / 1) 10); [|lra]. f_equal. lra.
Qed.

(** Two reference marks 50 pixels and one metre apart, and two 8 pixels
    and one unit apart. *)
Lemma sqrt_of_square (x : R) : 0 <= x -> sqrt ((x - 0) ^ 2 + (0 - 0) ^ 2) = x.
Proof.
  intros Hx. replace ((x - 0) ^ 2 + (0 - 0) ^ 2) with (x * x) by lra.
  by apply sqrt_square.
Qed.

Lemma calibrate_reference_object_witness :
  calibrate_reference_object [mkPoint 0 0 0 0; mkPoint 50 0 1 0] = Some 50 /\
  calibrate_reference_object [mkPoint 0 0 0 0; mkPoint 8 0 1 0] = Some 800.
Proof.
  split.
  - apply (proj1 (proj2 (proj2 (calibrate_reference_object_spec _)))
             (mkPoint 0 0 0 0) (mkPoint 50 0 1 0) []); [done| |].
    + unfold pixel_dist; simpl. apply sqrt_of_square. lra.
    + unfold real_dist; simpl. apply sqrt_of_square. lra.
  - apply (proj2 (proj2 (proj2 (calibrate_reference_object_spec _)))
             (mkPoint 0 0 0 0) (mkPoint 8 0 1 0) []); [done| |].
    + unfold pixel_dist; simpl. apply sqrt_of_square. lra.
    + unfold real_dist; simpl. apply sqrt_of_square. lra.
Defined.

End Calibration.

(** ** Speed *)

Section Speed.
Import SpeedCalculator.
Local Open Scope R_scope.

Lemma calculate_speed_px (self : SpeedCalculator.t) (vx vy : R)
    (ppm : option R) :
  calculate_speed self (vx, vy) ppm !! "speed_px_per_sec"
  = Some (sqrt (vx ^ 2 + vy ^ 2) * IZR (fps self)).
Proof.
  unfold calculate_speed. destruct ppm as [r|]; [destruct (truthy _)|];
    by simplify_map_eq.
Qed.

Lemma calculate_speed_calibrated (self : SpeedCalculator.t) (vx vy ratio : R) :
  ratio <> 0 ->
  calculate_speed self (vx, vy) (Some ratio) !! "speed_m_per_sec"
    = Some (sqrt (vx ^ 2 + vy ^ 2) * IZR (fps self) / ratio) /\
  calculate_speed self (vx, vy) (Some ratio) !! "speed_kmh"
    = Some (sqrt (vx ^ 2 + vy ^ 2) * IZR (fps self) / ratio * 3.6).
Proof.
  intros Hr. unfold calculate_speed, truthy.
  destruct (Req_dec_T ratio 0); [done|]. by simplify_map_eq.
Qed.

Lemma calculate_speed_uncalibrated (self : SpeedCalculator.t) (vx vy : R)
    (ppm : option R) :
  truthy ppm = false ->
  calculate_speed self (vx, vy) ppm !! "speed_m_per_sec" = None /\
  calculate_speed self (vx, vy) ppm !! "speed_kmh" = None.
Proof.
  intros Ht. unfold calculate_speed. rewrite Ht.
  destruct ppm; by simplify_map_eq.
Qed.

(** C10.  The speed of a tracked object is computed by the module's one
    [SpeedCalculator], built with its default of 30 frames per second;
    the camera's own [fps] is not consulted.  For a velocity [(vx, vy)]:
    [speed_px_per_sec = sqrt(vx^2 + vy^2) * 30]; given a (non-zero)
    pixels-per-metre ratio, [speed_m_per_sec = speed_px_per_sec / ratio]
    and [speed_kmh = speed_m_per_sec * 3.6]; the speed block of
    [process_frame_sync] gives the same fields whatever the camera's
    [fps]. *)
Theorem speed_uses_fixed_30_fps (vx vy : R) :
  let speed_px_per_sec := sqrt (vx ^ 2 + vy ^ 2) * 30 in
  (forall ppm,
     calculate_speed speed_calculator (vx, vy) ppm !! "speed_px_per_sec"
     = Some speed_px_per_sec) /\
  (forall ratio, ratio <> 0 ->
     calculate_speed speed_calculator (vx, vy) (Some ratio)
       !! "speed_m_per_sec" = Some (speed_px_per_sec / ratio) /\
     calculate_speed speed_calculator (vx, vy) (Some ratio)
       !! "speed_kmh" = Some (speed_px_per_sec / ratio * 3.6)) /\
  (forall camera obj fps',
     Websocket.speed_data (Camera.with_fps camera fps') obj
     = Websocket.speed_data camera obj) /\
  (forall camera obj fields ratio,
     Tracker.velocity obj = (vx, vy) ->
     Websocket.speed_data camera obj = Some fields ->
     fields <> ∅ ->
     fields !! "speed_px_per_sec" = Some speed_px_per_sec /\
     (Camera.is_calibrated camera = true ->
      Camera.pixels_per_meter camera = Some ratio -> ratio <> 0 ->
      fields !! "speed_m_per_sec" = Some (speed_px_per_sec / ratio) /\
      fields !! "speed_kmh" = Some (speed_px_per_sec / ratio * 3.6))).
Proof.
  intros speed_px_per_sec.
  split; [intros ppm; apply calculate_speed_px|].
  split; [intros ratio Hr; by apply calculate_speed_calibrated|].
  split; [done|].
  intros camera obj fields ratio Hv Hf Hne.
  assert (fields = calculate_speed speed_calculator (vx, vy)
                     (if Camera.is_calibrated camera
                      then Camera.pixels_per_meter camera else None)) as ->.
  { unfold Websocket.speed_data in Hf. rewrite Hv in Hf.
    destruct (Camera.truthy (Camera.get _ "speed" _)); [|by inversion Hf].
    destruct (negb _); [by inversion Hf|].
    destruct (Websocket.contains _ _) as [[|]|]; simpl in Hf;
      inversion Hf; subst; done. }
  split; [apply calculate_speed_px|].
  intros -> -> Hr. by apply calculate_speed_calibrated.
Qed.

(** The end-to-end figures of a camera calibrated at 100 px/m: a move of
    10 pixels per frame is 300 px/s, 3 m/s and 10.8 km/h. *)
Lemma speed_uses_fixed_30_fps_witness :
  100 <> 0 /\
  calculate_speed speed_calculator (10, 0) (Some 100) !! "speed_px_per_sec"
    = Some 300 /\
  calculate_speed speed_calculator (10, 0) (Some 100) !! "speed_m_per_sec"
    = Some 3 /\
  calculate_speed speed_calculator (10, 0) (Some 100) !! "speed_kmh"
    = Some 10.8.
Proof.
  assert (H100 : 100 <> 0) by lra.
  assert (Hs : sqrt (10 ^ 2 + 0 ^ 2) = 10).
  { replace (10 ^ 2 + 0 ^ 2) with (10 * 10) by lra. apply sqrt_square. lra. }
  destruct (speed_uses_fixed_30_fps 10 0) as (Hpx & Hm & _).
  destruct (Hm 100 H100) as [Hms Hkmh]. cbv zeta in *.
  rewrite Hs in *.
  split; [done|]. split; [|split].
  - rewrite Hpx. f_equal. lra.
  - rewrite Hms. f_equal. lra.
  - rewrite Hkmh. f_equal. lra.
Defined.

End Speed.

(** ** The session registry *)

Section Registry.
Import StreamManager.

Lemma new_stream_follows_flag (camera : Camera.t) :
  tracker_follows_flag (new_stream camera).
Proof.
  unfold tracker_follows_flag, new_stream; simpl.
  destruct (Camera.tracking_on _); split; try done; by intros [? ?].
Qed.

Lemma update_features_follows_flag (s : CameraStream) features :
  tracker_follows_flag (update_features s features).
Proof.
  unfold tracker_follows_flag, update_features.
  destruct (Camera.tracking_on features) eqn:E, (tracker s) as [tr|];
    simpl; rewrite E; split; try done; by intros [? ?].
Qed.

(** What [update_features] does to the tracker, by the flag before and
    after. *)
Lemma update_features_tracker (s : CameraStream) features :
  tracker_follows_flag s ->
  tracker (update_features s features) =
    match Camera.tracking_on (Camera.features (camera s)),
          Camera.tracking_on features with
    | true, true => tracker s
    | false, true => Some Tracker.default
    | _, false => None
    end.
Proof.
  unfold tracker_follows_flag, update_features. intros [H1 H2].
  destruct (Camera.tracking_on (Camera.features (camera s))) eqn:Eold,
           (Camera.tracking_on features) eqn:Enew,
           (tracker s) as [tr|] eqn:Et; simpl; try done.
  - by destruct H2.
  - by specialize (H1 (mk_is_Some _ _ eq_refl)).
Qed.

Lemma well_formed_apply_op (self : StreamManager.t) (o : op) :
  well_formed self -> well_formed (apply_op self o).
Proof.
  intros Hwf. destruct o as [cam|cid|cid features]; simpl.
  - unfold add_stream. destruct (self !! Camera.id cam) eqn:E; [done|].
    simpl. intros k s [[_ <-]|[_ Hk]]%lookup_insert_Some.
    + apply new_stream_follows_flag.
    + by apply (Hwf k).
  - unfold remove_stream. destruct (self !! cid) eqn:E; [|done]. simpl.
    intros k s [_ Hk]%lookup_delete_Some. by apply (Hwf k).
  - unfold update_stream_features, get_stream.
    destruct (self !! cid) as [s0|] eqn:E; [|done].
    intros k s [[_ <-]|[_ Hk]]%lookup_insert_Some.
    + apply update_features_follows_flag.
    + by apply (Hwf k).
Qed.

(** Every registry built by its own operations is well formed. *)
Lemma well_formed_reachable (ops : list op) :
  well_formed (fold_left apply_op ops StreamManager.init).
Proof.
  induction ops as [|o ops IH] using rev_ind.
  - intros k s Hk. simpl in Hk. unfold StreamManager.init in Hk.
    by apply lookup_empty_Some in Hk.
  - rewrite fold_left_app. simpl. by apply well_formed_apply_op.
Qed.

(** C8.  In a registry whose sessions have a tracker exactly while their
    tracking flag is on (as every registry built by the registry's own
    operations has): adding a stream for a camera id that is present
    changes nothing, tracker included; updating the features of a session
    keeps its tracker as it is when the flag was on and stays on, creates
    a fresh one only when the flag goes from off to on, and discards it
    only when the flag goes from on to off; and no operation touches the
    session of another camera id. *)
Theorem registry_keeps_trackers (self : StreamManager.t) :
  well_formed self ->
  (forall camera s, self !! Camera.id camera = Some s ->
     add_stream self camera = (true, self)) /\
  (forall camera_id s features,
     self !! camera_id = Some s ->
     exists s',
       update_stream_features self camera_id features !! camera_id = Some s' /\
       Camera.features (camera s') = features /\
       tracker s' =
         match Camera.tracking_on (Camera.features (camera s)),
               Camera.tracking_on features with
         | true, true => tracker s
         | false, true => Some Tracker.default
         | true, false => None
         | false, false => tracker s
         end /\
       (tracker s' <> tracker s ->
        Camera.tracking_on (Camera.features (camera s))
        <> Camera.tracking_on features)) /\
  (forall o camera_id s,
     self !! camera_id = Some s ->
     match o with
     | AddStream _ => True
     | RemoveStream k | UpdateStreamFeatures k _ => k <> camera_id
     end ->
     apply_op self o !! camera_id = Some s) /\
  (forall o, well_formed (apply_op self o)) /\
  (forall ops, well_formed (fold_left apply_op ops StreamManager.init)).
Proof.
  intros Hwf. split; [|split; [|split; [|split]]].
  - intros cam s E. unfold add_stream. by rewrite E.
  - intros cid s features E.
    exists (update_features s features).
    unfold update_stream_features, get_stream. rewrite E, lookup_insert_eq.
    split; [done|]. split; [by unfold update_features; repeat case_match|].
    pose proof (update_features_tracker s features (Hwf _ _ E)) as Ht.
    rewrite Ht.
    destruct (Camera.tracking_on (Camera.features (camera s))) eqn:Eold,
             (Camera.tracking_on features) eqn:Enew; try done.
    destruct (Hwf _ _ E) as [H1 _].
    destruct (tracker s) as [tr|]; [|split; [done|by intros H]].
    specialize (H1 (mk_is_Some _ _ eq_refl)). congruence.
  - intros o cid s E Hother. destruct o as [cam|k|k features]; simpl.
    + unfold add_stream. destruct (self !! Camera.id cam) eqn:Ec; [done|].
      simpl. rewrite lookup_insert_ne; [done|]. intros Heq. congruence.
    + unfold remove_stream. destruct (self !! k); [|done]. simpl.
      by rewrite lookup_delete_ne.
    + unfold update_stream_features, get_stream.
      destruct (self !! k); [|done]. by rewrite lookup_insert_ne.
  - intros o. by apply well_formed_apply_op.
  - apply well_formed_reachable.
Qed.

(** The theorem for a registry holding one tracked camera. *)
Lemma registry_keeps_trackers_witness :
  well_formed (add_stream StreamManager.init tracked_camera).2 /\
  add_stream (add_stream StreamManager.init tracked_camera).2 tracked_camera
  = (true, (add_stream StreamManager.init tracked_camera).2).
Proof.
  assert (Hwf : well_formed (add_stream StreamManager.init tracked_camera).2)
    by apply (well_formed_reachable [AddStream tracked_camera]).
  split; [exact Hwf|].
  apply (proj1 (registry_keeps_trackers _ Hwf) tracked_camera
           (new_stream tracked_camera)).
  reflexivity.
Defined.

End Registry.

(** ** MD5 *)

Example md5_empty : MD5.hexdigest "" = "d41d8cd98f00b204e9800998ecf8427e".
Proof. vm_compute. reflexivity. Qed.

Example md5_abc : MD5.hexdigest "abc" = "900150983cd24fb0d6963f7d28e17f72".
Proof. vm_compute. reflexivity. Qed.

Example md5_two_blocks :
  MD5.hexdigest "aaaaaaaaaaaaaaaaaaaaaaaaaaaaaaaaaaaaaaaaaaaaaaaaaaaaaaaa"
  = "3b0c8ac703f828b04c6c197006d17218".
Proof. vm_compute. reflexivity. Qed.

(** ** Digest authentication *)

Section Digest.
Import DigestAuth.
Local Open Scope string_scope.

Lemma append_assoc (a b c : string) : (a ++ b) ++ c = a ++ (b ++ c).
Proof.
  induction a as [|x a IH]; [done|].
  change (String x ((a ++ b) ++ c) = String x (a ++ (b ++ c))). by f_equal.
Qed.

Lemma append_nil_r (a : string) : a ++ "" = a.
Proof.
  induction a as [|x a IH]; [done|].
  change (String x (a ++ "") = String x a). by f_equal.
Qed.

Lemma nonempty_false (s : string) : nonempty s = false <-> s = "".
Proof. by destruct s. Qed.

Lemma build_digest_header_nc (self : DigestAuth.t) m u ch cn :
  nc (_build_digest_header self m u ch cn).2 = (nc self + 1)%N.
Proof. done. Qed.

Lemma requests_nc (self : DigestAuth.t)
    (rs : list (string * string * gmap string string * string)) :
  nc (requests self rs).2 = (nc self + N.of_nat (length rs))%N.
Proof.
  revert self. induction rs as [|[[[m u] ch] cn] rs IH]; intros self.
  - simpl. lia.
  - cbn [requests].
    pose proof (build_digest_header_nc self m u ch cn) as Hnc.
    destruct (_build_digest_header self m u ch cn) as [h self'].
    specialize (IH self'). destruct (requests self' rs) as [hs self''].
    simpl in *. lia.
Qed.

(** C5.  For a parsed challenge, with [HA1 = md5(user:realm:pass)] and
    [HA2 = md5(method:uri)], the header carries
    [response = md5(HA1:nonce:HA2)] when the challenge has no (or an
    empty) qop, and [md5(HA1:nonce:nc:cnonce:qop:HA2)] when it has one,
    together with that qop, nc and cnonce.  The counter of a new object is
    0, each request adds one, so the first request carries [00000001] and
    the request after [k] others carries [k + 1] in eight hexadecimal
    digits.  On the example of RFC 2617 (section 3.5) the response is the
    published [6629fae49393a05397450978507c4ef1]. *)
Theorem digest_response_follows_rfc2617 (self : DigestAuth.t)
    (method uri : string) (challenge : gmap string string) (cnonce : string) :
  let realm := get challenge "realm" "" in
  let nonce := get challenge "nonce" "" in
  let qop := get challenge "qop" "" in
  let HA1 :=
    MD5.hexdigest (username self ++ ":" ++ realm ++ ":" ++ password self) in
  let HA2 := MD5.hexdigest (method ++ ":" ++ uri) in
  let nc_value := format_08x (nc self + 1) in
  let head :=
    "Digest username=" ++ dq ++ username self ++ dq ++ ", "
      ++ "realm=" ++ dq ++ realm ++ dq ++ ", "
      ++ "nonce=" ++ dq ++ nonce ++ dq ++ ", "
      ++ "uri=" ++ dq ++ uri ++ dq ++ ", " in
  let header := (_build_digest_header self method uri challenge cnonce).1 in
  (qop = "" ->
   exists rest,
     header = head ++ "response=" ++ dq
                ++ MD5.hexdigest (HA1 ++ ":" ++ nonce ++ ":" ++ HA2)
                ++ dq ++ rest) /\
  (qop <> "" ->
   exists rest,
     header = head ++ "response=" ++ dq
                ++ MD5.hexdigest (HA1 ++ ":" ++ nonce ++ ":" ++ nc_value ++ ":"
                                    ++ cnonce ++ ":" ++ qop ++ ":" ++ HA2)
                ++ dq ++ ", qop=" ++ qop ++ ", nc=" ++ nc_value
                ++ ", cnonce=" ++ dq ++ cnonce ++ dq ++ rest) /\
  nc (_build_digest_header self method uri challenge cnonce).2
    = (nc self + 1)%N /\
  (forall user pass, nc (DigestAuth.init user pass) = 0%N) /\
  format_08x 1 = "00000001" /\
  (forall user pass rs,
     nc (requests (DigestAuth.init user pass) rs).2 = N.of_nat (length rs)) /\
  (_build_digest_header (DigestAuth.init "Mufasa" "Circle Of Life")
     "GET" "/dir/index.html"
     (<["realm" := "testrealm@host.com"]>
        (<["nonce" := "dcd98b7102dd2f0e8b11d0f600bfb0c093"]>
           (<["qop" := "auth"]>
              (<["opaque" := "5ccc069c403ebaf9f0171e9517f40e41"]> ∅))))
     "0a4f113b").1
  = "Digest username=" ++ dq ++ "Mufasa" ++ dq
      ++ ", realm=" ++ dq ++ "testrealm@host.com" ++ dq
      ++ ", nonce=" ++ dq ++ "dcd98b7102dd2f0e8b11d0f600bfb0c093" ++ dq
      ++ ", uri=" ++ dq ++ "/dir/index.html" ++ dq
      ++ ", response=" ++ dq ++ "6629fae49393a05397450978507c4ef1" ++ dq
      ++ ", qop=auth, nc=00000001, cnonce=" ++ dq ++ "0a4f113b" ++ dq
      ++ ", opaque=" ++ dq ++ "5ccc069c403ebaf9f0171e9517f40e41" ++ dq
      ++ ", algorithm=MD5".
Proof.
  intros realm nonce qop HA1 HA2 nc_value head header.
  split; [|split; [|split; [|split; [|split; [|split]]]]].
  - intros Hq. subst header. unfold _build_digest_header.
    fold realm nonce qop. rewrite Hq. cbn [nonempty fst].
    fold HA1 HA2.
    set (resp := MD5.hexdigest (HA1 ++ ":" ++ nonce ++ ":" ++ HA2)).
    set (opaque := get challenge "opaque" "").
    set (algorithm := get challenge "algorithm" "MD5").
    subst head.
    destruct (nonempty opaque), (nonempty algorithm);
      [exists (", opaque=" ++ dq ++ opaque ++ dq ++ ", algorithm=" ++ algorithm)
      |exists (", opaque=" ++ dq ++ opaque ++ dq)
      |exists (", algorithm=" ++ algorithm)
      |exists ""];
      rewrite ?append_assoc, ?append_nil_r; reflexivity.
  - intros Hq. subst header. unfold _build_digest_header.
    fold realm nonce qop. destruct (nonempty qop) eqn:Eq;
      [|by apply nonempty_false in Eq]. cbn [fst].
    fold HA1 HA2 nc_value.
    set (resp := MD5.hexdigest _).
    set (opaque := get challenge "opaque" "").
    set (algorithm := get challenge "algorithm" "MD5").
    subst head.
    destruct (nonempty opaque), (nonempty algorithm);
      [exists (", opaque=" ++ dq ++ opaque ++ dq ++ ", algorithm=" ++ algorithm)
      |exists (", opaque=" ++ dq ++ opaque ++ dq)
      |exists (", algorithm=" ++ algorithm)
      |exists ""];
      rewrite ?append_assoc, ?append_nil_r; reflexivity.
  - done.
  - done.
  - vm_compute. reflexivity.
  - intros user pass rs. rewrite requests_nc. simpl. lia.
  - vm_compute. reflexivity.
Qed.

End Digest.

(** ** The streaming relay *)

Section RelayFacts.
Import Relay.
Local Open Scope string_scope.

Example b64encode_credentials : Base64.b64encode "user:pass" = "dXNlcjpwYXNz".
Proof. vm_compute. reflexivity. Qed.

Example b64encode_padding :
  Base64.b64encode "a" = "YQ==" /\ Base64.b64encode "ab" = "YWI=".
Proof. vm_compute. done. Qed.

Example parse_challenge_rfc2617 :
  DigestAuth._parse_challenge
    ("Digest realm=" ++ DigestAuth.dq ++ "testrealm@host.com" ++ DigestAuth.dq
       ++ ", qop=" ++ DigestAuth.dq ++ "auth,auth-int" ++ DigestAuth.dq
       ++ ", nonce=abc, stale=FALSE")
  = <["stale" := "FALSE"]>
      (<["nonce" := "abc"]>
         (<["qop" := "auth,auth-int"]>
            (<["realm" := "testrealm@host.com"]> ∅))).
Proof. vm_compute. reflexivity. Qed.

(** C6 (as the code has it).  When the camera answers the request that
    carries the credentials with a status other than 200, the generator
    writes that status to the error log and ends: it yields nothing, so no
    body byte reaches the subscriber.  The reply to the subscriber had
    already been opened as a streaming reply with status 200; the
    camera's status is not put into it. *)
Theorem relay_ends_stream_on_upstream_status (camera_id : string)
    (parsed : Url) (upstream : Upstream) (disconnected : nat -> bool)
    (cnonce : string) (probe response : Response) :
  upstream None = Some probe ->
  upstream (authorization_header (url_username parsed) (url_password parsed)
              (request_uri parsed) probe cnonce) = Some response ->
  status response <> 200%Z ->
  proxy_camera_stream camera_id (Some (Some parsed)) upstream disconnected
    cnonce
  = (StreamingResponse 200 "multipart/x-mixed-replace; boundary=myboundary"
       streaming_headers [],
     {| yielded := []; logged_status := [status response];
        logged_exception := false |}).
Proof.
  intros Hprobe Hresp Hstatus.
  unfold proxy_camera_stream, stream_generator. rewrite Hprobe, Hresp.
  destruct (status response =? 200)%Z eqn:E; [|done].
  apply Z.eqb_eq in E. done.
Qed.

(** The theorem for a camera that refuses the credentials with 403. *)
Lemma relay_ends_stream_on_upstream_status_witness :
  proxy_camera_stream "cam-1" (Some (Some camera_url)) refusing_camera
    (fun _ => false) "0a4f113b"
  = (StreamingResponse 200 "multipart/x-mixed-replace; boundary=myboundary"
       streaming_headers [],
     {| yielded := []; logged_status := [403%Z]; logged_exception := false |}).
Proof.
  apply (relay_ends_stream_on_upstream_status "cam-1" camera_url
           refusing_camera (fun _ => false) "0a4f113b"
           {| status := 401;
              headers := {["WWW-Authenticate" := "Basic realm=camera"]};
              content := ["--myboundary"] |}
           {| status := 403;
              headers := {["WWW-Authenticate" := "Basic realm=camera"]};
              content := ["--myboundary"] |}).
  - reflexivity.
  - reflexivity.
  - discriminate.
Defined.

(** C6 as claimed fails: the camera answers 403, and the subscriber's
    reply carries status 200 and no error; the 403 stays in the log. *)
Lemma relay_does_not_surface_upstream_status :
  let '(reply, trace) :=
    proxy_camera_stream "cam-1" (Some (Some camera_url)) refusing_camera
      (fun _ => false) "0a4f113b" in
  logged_status trace = [403%Z] /\
  reply_status reply = 200%Z /\
  reply_status reply <> 403%Z /\
  (forall detail, reply <> HTTPException 403 detail) /\
  reply_body reply = [].
Proof.
  vm_compute. repeat split; discriminate.
Qed.

End RelayFacts.

(* ===================================================================== *)
(** * Further properties *)
(* ===================================================================== *)

(** ** The governor: pacing, counting, and its other calls *)

Section GovernorMore.
Import FPSRateLimiter.

Lemma offer_spaced (self : FPSRateLimiter.t) (ts : list Q) :
  spaced (frame_interval self) (last_frame_time self)
    (accepted ts (offer self ts).1).
Proof.
  revert self. induction ts as [|now ts IH]; intros self; simpl; [done|].
  destruct (should_process_frame self now) as [d self'] eqn:E.
  specialize (IH self'). destruct (offer self' ts) as [ds self'']. simpl in *.
  unfold should_process_frame in E.
  destruct (last_frame_time self) as [l|] eqn:El.
  - destruct (Qle_bool (frame_interval self) (now - l)) eqn:Eb;
      inversion E; subst; simpl in *.
    + split; [by apply Qle_bool_iff|done].
    + by rewrite El in IH.
  - inversion E; subst; simpl in *. done.
Qed.

Lemma spaced_lookup (iv : Q) (prev : option Q) (L : list Q) (i : nat) (a b : Q) :
  spaced iv prev L -> L !! i = Some a -> L !! S i = Some b ->
  (iv <= b - a)%Q.
Proof.
  revert prev i. induction L as [|x L IH]; intros prev i Hs Ha Hb; [done|].
  destruct Hs as [_ Hs]. destruct i as [|i]; simpl in *.
  - inversion Ha; subst. destruct L as [|y L]; [done|].
    simpl in Hb. inversion Hb; subst. by destruct Hs.
  - by apply (IH (Some x) i).
Qed.

Lemma spaced_far (iv : Q) (prev : option Q) (L : list Q) (k : nat) (a b : Q) :
  spaced iv prev L -> L !! 0%nat = Some a -> L !! k = Some b ->
  (inject_Z (Z.of_nat k) * iv <= b - a)%Q.
Proof.
  intros Hs Ha. revert b. induction k as [|k IH]; intros b Hb.
  - assert (a = b) as -> by congruence.
    change (inject_Z (Z.of_nat 0)) with 0%Q. Lqa.lra.
  - destruct (lookup_lt_is_Some_2 L k) as [c Hc].
    { apply lookup_lt_Some in Hb. lia. }
    specialize (IH c Hc).
    pose proof (spaced_lookup iv prev L k c b Hs Hc Hb) as Hstep.
    rewrite Nat2Z.inj_succ. unfold Z.succ. rewrite inject_Z_plus.
    change (inject_Z 1) with 1%Q. Lqa.lra.
Qed.

(** X1.  With a positive target rate, among the frames a fresh governor
    accepts, each is at least [1/target_fps] after the one accepted before
    it, whatever the clock readings offered; so the [k]-th accepted frame
    after the first is at least [k/target_fps] after the first: the rate
    of accepted frames never exceeds the target. *)
Theorem accepted_frames_are_spaced (fps start : Q) (ts : list Q) :
  (0 < fps)%Q ->
  let L := accepted ts (offer (init fps start) ts).1 in
  (forall i a b, L !! i = Some a -> L !! S i = Some b ->
     (1 / fps <= b - a)%Q) /\
  (forall k a b, L !! 0%nat = Some a -> L !! k = Some b ->
     (inject_Z (Z.of_nat k) * (1 / fps) <= b - a)%Q).
Proof.
  intros Hfps L.
  pose proof (offer_spaced (init fps start) ts) as Hs. simpl in Hs.
  rewrite (interval_of_pos _ Hfps) in Hs. split.
  - intros i a b. by apply (spaced_lookup _ None).
  - intros k a b. by apply (spaced_far _ None).
Qed.

Lemma accepted_frames_are_spaced_witness :
  (0 < 10)%Q /\
  forall a b,
    accepted [0; 5 # 100; 12 # 100; 21 # 100; 30 # 100]%Q
      (offer (init 10 0) [0; 5 # 100; 12 # 100; 21 # 100; 30 # 100]%Q).1
      !! 0%nat = Some a ->
    accepted [0; 5 # 100; 12 # 100; 21 # 100; 30 # 100]%Q
      (offer (init 10 0) [0; 5 # 100; 12 # 100; 21 # 100; 30 # 100]%Q).1
      !! 2%nat = Some b ->
    (inject_Z 2 * (1 / 10) <= b - a)%Q.
Proof.
  split; [reflexivity|].
  exact (proj2 (accepted_frames_are_spaced 10 0
                  [0; 5 # 100; 12 # 100; 21 # 100; 30 # 100]%Q eq_refl) 2%nat).
Defined.

Lemma offer_frame_count (self : FPSRateLimiter.t) (ts : list Q) :
  frame_count (offer self ts).2
    = frame_count self + Z.of_nat (length (accepted ts (offer self ts).1)) /\
  target_fps (offer self ts).2 = target_fps self /\
  start_time (offer self ts).2 = start_time self.
Proof.
  revert self. induction ts as [|now ts IH]; intros self; simpl.
  - split; [lia|done].
  - destruct (should_process_frame self now) as [d self'] eqn:E.
    specialize (IH self'). destruct (offer self' ts) as [ds self'']. simpl in *.
    destruct IH as (Hc & Ht & Hs). rewrite Hc, Ht, Hs.
    unfold should_process_frame in E.
    destruct (last_frame_time self); [destruct (Qle_bool _ _)|];
      inversion E; subst; simpl; (split; [lia|done]).
Qed.

(** X2.  The governor counts what it lets through: after any frames
    offered to a fresh governor, [frame_count] is the number of frames
    accepted, [last_frame_time] is the reading of the last one accepted,
    and a dropped frame changes nothing at all. *)
Theorem frame_count_counts_accepted (fps start : Q) (ts : list Q) :
  let '(ds, self) := offer (init fps start) ts in
  frame_count self = Z.of_nat (length (accepted ts ds)) /\
  length ds = length ts /\
  last_frame_time self = last_accepted ts ds /\
  start_time self = start /\
  (forall now, (should_process_frame self now).1 = false ->
     (should_process_frame self now).2 = self).
Proof.
  pose proof (offer_frame_count (init fps start) ts) as (Hc & _ & Hs).
  pose proof (offer_last_frame_time (init fps start) ts) as Hl.
  assert (Hlo : forall (s : FPSRateLimiter.t) (us : list Q),
            length us = length (offer s us).1).
  { intros s us. revert s. induction us as [|u us IH]; intros s; simpl; [done|].
    destruct (should_process_frame s u) as [d s'].
    specialize (IH s'). destruct (offer s' us). simpl in *. lia. }
  specialize (Hlo (init fps start) ts).
  destruct (offer (init fps start) ts) as [ds self]. simpl in *.
  split; [lia|]. split; [done|].
  split; [by rewrite Hl; destruct (last_accepted ts ds)|]. split; [done|].
  intros now. unfold should_process_frame.
  destruct (last_frame_time self); [destruct (Qle_bool _ _)|]; done.
Qed.

Lemma offer_all_accepted (self : FPSRateLimiter.t) (ts : list Q) :
  (frame_interval self == 0)%Q ->
  match last_frame_time self, ts with
  | Some l, t :: _ => (l <= t)%Q
  | _, _ => True
  end ->
  (forall i a b, ts !! i = Some a -> ts !! S i = Some b -> (a <= b)%Q) ->
  (offer self ts).1 = replicate (length ts) true.
Proof.
  revert self. induction ts as [|now ts IH]; intros self Hiv Hfirst Hsorted.
  - done.
  - simpl.
    assert (E : should_process_frame self now = (true, accept self now)).
    { unfold should_process_frame. destruct (last_frame_time self) as [l|]; [|done].
      assert (Qle_bool (frame_interval self) (now - l) = true) as ->; [|done].
      apply Qle_bool_iff. rewrite Hiv. Lqa.lra. }
    rewrite E. specialize (IH (accept self now)).
    destruct (offer (accept self now) ts) as [ds self'']. simpl in *.
    f_equal. apply IH; [done| |].
    + destruct ts as [|t ts]; [done|]. by apply (Hsorted 0%nat).
    + intros i a b. apply (Hsorted (S i)).
Qed.

(** X3.  A target rate of zero or less switches the governor off: its
    interval is 0, so as long as the clock does not run backwards every
    frame offered is accepted. *)
Theorem nonpositive_target_accepts_everything (fps start : Q) (ts : list Q) :
  (fps <= 0)%Q ->
  (forall i a b, ts !! i = Some a -> ts !! S i = Some b -> (a <= b)%Q) ->
  frame_interval (init fps start) = 0%Q /\
  (offer (init fps start) ts).1 = replicate (length ts) true.
Proof.
  intros Hfps Hsorted.
  assert (Hiv : frame_interval (init fps start) = 0%Q).
  { simpl. unfold interval_of. destruct (Qlt_le_dec 0 fps) as [Hlt|]; [|done].
    exfalso. Lqa.lra. }
  split; [done|]. apply offer_all_accepted; [by rewrite Hiv|done|done].
Qed.

Lemma nonpositive_target_accepts_everything_witness :
  (0 <= 0)%Q /\
  (offer (init 0 0) [1; 1; 2 # 1; 5 # 2]%Q).1 = [true; true; true; true].
Proof.
  split; [discriminate|].
  apply (proj2 (nonpositive_target_accepts_everything 0 0 [1; 1; 2 # 1; 5 # 2]%Q
                  ltac:(discriminate)
                  ltac:(intros [|[|[|[|i]]]] a b Ha Hb; simpl in *; try done;
                        inversion Ha; inversion Hb; subst; discriminate))).
Defined.

Lemma apply_op_in_step (self : FPSRateLimiter.t) (o : op) :
  in_step self -> in_step (apply_op self o).
Proof.
  unfold in_step. intros H. destruct o as [now|now after|new|now]; simpl; try done.
  - unfold should_process_frame.
    destruct (last_frame_time self); [destruct (Qle_bool _ _)|]; done.
  - unfold wait_if_needed. destruct (last_frame_time self); done.
Qed.

(** X4.  Whatever calls are made on a governor, in whatever order, its
    interval is always the one its current target rate stands for
    ([1/target_fps], or 0 for a target of zero or less); a change of
    target takes effect at the very next decision; and [reset] gives
    back a governor equal to a new one for the current target. *)
Theorem interval_follows_target (fps start : Q) (ops : list op) :
  let self := fold_left apply_op ops (init fps start) in
  frame_interval self = interval_of (target_fps self) /\
  (forall now, reset self now = init (target_fps self) now) /\
  (forall new_fps last now,
     last_frame_time self = Some last ->
     (should_process_frame (update_target_fps self new_fps) now).1
     = Qle_bool (interval_of new_fps) (now - last)).
Proof.
  intros self.
  assert (H : in_step self).
  { subst self. induction ops as [|o ops IH] using rev_ind; [done|].
    rewrite fold_left_app. simpl. by apply apply_op_in_step. }
  split; [done|]. split.
  - intros now. unfold reset, init. by rewrite H.
  - intros new_fps last now Hl. unfold should_process_frame. simpl. rewrite Hl.
    by destruct (Qle_bool _ _).
Qed.

(** X5.  [wait_if_needed] paces by sleeping: it asks for a sleep that is
    never negative and is exactly the shortfall of the interval, that is
    [frame_interval - elapsed] while less than the interval has passed
    and nothing once it has, which is the shortest sleep that fills the
    interval; if the clock read after the sleep shows at least that much
    time gone by, the time it records is at least one interval after the
    previous one.  The first call only records the time: it neither
    sleeps nor counts a frame, every later call counts one. *)
Theorem wait_if_needed_paces (self : FPSRateLimiter.t) (current_time after : Q) :
  let '(slept, self') := wait_if_needed self current_time after in
  (0 <= slept)%Q /\
  match last_frame_time self with
  | None =>
      slept = 0%Q /\ last_frame_time self' = Some current_time /\
      frame_count self' = frame_count self
  | Some last =>
      (frame_interval self <= (current_time - last) + slept)%Q /\
      ((frame_interval self <= current_time - last)%Q -> slept = 0%Q) /\
      ((current_time - last < frame_interval self)%Q ->
       slept = (frame_interval self - (current_time - last))%Q) /\
      (forall sleep, (0 <= sleep)%Q ->
         (frame_interval self <= (current_time - last) + sleep)%Q ->
         (slept <= sleep)%Q) /\
      last_frame_time self' = Some after /\
      frame_count self' = frame_count self + 1 /\
      ((current_time + slept <= after)%Q ->
       (frame_interval self <= after - last)%Q)
  end.
Proof.
  unfold wait_if_needed. destruct (last_frame_time self) as [last|].
  - destruct (Qlt_le_dec 0 (frame_interval self - (current_time - last)))
      as [Hlt|Hle]; simpl.
    + split; [Lqa.lra|]. split; [Lqa.lra|]. split; [intros; exfalso; Lqa.lra|].
      split; [done|]. split; [intros; Lqa.lra|].
      split; [done|]. split; [done|]. intros. Lqa.lra.
    + split; [Lqa.lra|]. split; [Lqa.lra|]. split; [done|].
      split; [intros; exfalso; Lqa.lra|]. split; [intros; Lqa.lra|].
      split; [done|]. split; [done|]. intros. Lqa.lra.
  - simpl. split; [Lqa.lra|]. done.
Qed.

Lemma elem_of_accepted (ts : list Q) (ds : list bool) (x : Q) :
  x ∈ accepted ts ds -> x ∈ ts.
Proof.
  revert ds. induction ts as [|t ts IH]; intros [|[] ds] Hx; simpl in *;
    try by apply elem_of_nil in Hx.
  - apply elem_of_cons in Hx as [->|Hx]; [left|right; eauto].
  - right; eauto.
Qed.

(** X6.  The measured rate stays near the target: for a fresh governor
    with a positive target, offered frames at any readings between its
    start and [now], [get_actual_fps] read at [now] is at most the target
    plus one frame over the time elapsed. *)
Theorem actual_fps_near_target (fps start now : Q) (ts : list Q) :
  (0 < fps)%Q ->
  (start < now)%Q ->
  (forall t, t ∈ ts -> (start <= t)%Q /\ (t <= now)%Q) ->
  (get_actual_fps (offer (init fps start) ts).2 now
     <= fps + 1 / (now - start))%Q.
Proof.
  intros Hfps Hnow Hts.
  pose proof (offer_frame_count (init fps start) ts) as (Hc & _ & Hs).
  pose proof (offer_spaced (init fps start) ts) as Hsp. simpl in Hsp, Hc, Hs.
  rewrite (interval_of_pos _ Hfps) in Hsp.
  assert (Hin : forall x, x ∈ accepted ts (offer (init fps start) ts).1 ->
                  (start <= x)%Q /\ (x <= now)%Q).
  { intros x Hx. apply Hts. by apply elem_of_accepted in Hx. }
  destruct (offer (init fps start) ts) as [ds self]. simpl in *.
  rewrite Z.add_0_l in Hc. unfold get_actual_fps. rewrite Hc, Hs.
  set (e := (now - start)%Q). assert (He : (0 < e)%Q) by (subst e; Lqa.lra).
  assert (Hne : ~ (e == 0)%Q) by (intros H0; rewrite H0 in He; discriminate).
  destruct (Qeq_bool e 0) eqn:Eq; [by apply Qeq_bool_iff in Eq|].
  assert (Hinv : (0 < 1 / e)%Q).
  { apply Qlt_shift_div_l; [done|]. Lqa.lra. }
  apply Qle_shift_div_r; [done|].
  assert (Hmul : ((fps + 1 / e) * e == fps * e + 1)%Q) by (field; done).
  rewrite Hmul. clear Hmul.
  set (L := accepted ts ds) in *.
  destruct L as [|a L'] eqn:EL.
  - change (inject_Z (Z.of_nat (length []))) with 0%Q.
    assert (0 <= fps * e)%Q by (apply Qmult_le_0_compat; Lqa.lra). Lqa.lra.
  - destruct (lookup_lt_is_Some_2 (a :: L') (length L')) as [b Hb];
      [simpl; lia|].
    pose proof (spaced_far _ None (a :: L') (length L') a b Hsp eq_refl Hb) as Hfar.
    assert (Ha : (start <= a)%Q) by (apply Hin; left).
    assert (Hbn : (b <= now)%Q).
    { apply Hin. by apply list_elem_of_lookup_2 in Hb. }
    assert (Hk : (inject_Z (Z.of_nat (length L')) <= e * fps)%Q).
    { assert (Hfld : (inject_Z (Z.of_nat (length L'))
                      == inject_Z (Z.of_nat (length L')) * (1 / fps) * fps)%Q)
        by (field; intros H0; rewrite H0 in Hfps; discriminate).
      rewrite Hfld. apply Qmult_le_compat_r; [subst e; Lqa.lra|Lqa.lra]. }
    cbn [length]. rewrite Nat2Z.inj_succ. unfold Z.succ. rewrite inject_Z_plus.
    change (inject_Z 1) with 1%Q. Lqa.lra.
Qed.

Lemma actual_fps_near_target_witness :
  (0 < 10)%Q /\ (0 < 1)%Q /\
  (get_actual_fps (offer (init 10 0) [0; 5 # 100; 12 # 100; 1]%Q).2 1
     <= 10 + 1 / (1 - 0))%Q.
Proof.
  split; [reflexivity|]. split; [reflexivity|].
  apply (actual_fps_near_target 10 0 1 [0; 5 # 100; 12 # 100; 1]%Q
           eq_refl eq_refl).
  intros t Ht. repeat (apply elem_of_cons in Ht as [->|Ht]);
    [split; discriminate..|by apply elem_of_nil in Ht].
Defined.

End GovernorMore.

(** ** Calibration and measuring *)

Section CalibrationMore.
Import Calibrator.
Local Open Scope R_scope.

Lemma pixel_dist_nonneg (p1 p2 : CalibrationPoint) : 0 <= pixel_dist p1 p2.
Proof. apply sqrt_pos. Qed.

Lemma real_dist_nonneg (p1 p2 : CalibrationPoint) : 0 <= real_dist p1 p2.
Proof. apply sqrt_pos. Qed.

Lemma pixel_dist_sym (p1 p2 : CalibrationPoint) :
  pixel_dist p1 p2 = pixel_dist p2 p1.
Proof. unfold pixel_dist. f_equal. lra. Qed.

Lemma real_dist_sym (p1 p2 : CalibrationPoint) :
  real_dist p1 p2 = real_dist p2 p1.
Proof. unfold real_dist. f_equal. lra. Qed.

Lemma calibrate_positive (p1 p2 : CalibrationPoint) rest (r : R) :
  calibrate_reference_object (p1 :: p2 :: rest) = Some r ->
  0 < pixel_dist p1 p2 /\ 0 < real_dist p1 p2 /\ 0 < r /\
  r = (if Rlt_dec (pixel_dist p1 p2 / real_dist p1 p2) 10
       then pixel_dist p1 p2 / real_dist p1 p2 * 100
       else pixel_dist p1 p2 / real_dist p1 p2).
Proof.
  rewrite calibrate_two. intros H.
  pose proof (pixel_dist_nonneg p1 p2) as Hp.
  pose proof (real_dist_nonneg p1 p2) as Hr.
  destruct (Req_dec_T (pixel_dist p1 p2) 0) as [|Hp0]; [done|].
  destruct (Req_dec_T (real_dist p1 p2) 0) as [|Hr0]; [done|].
  assert (Hp' : 0 < pixel_dist p1 p2) by lra.
  assert (Hr' : 0 < real_dist p1 p2) by lra.
  assert (Hq : 0 < pixel_dist p1 p2 / real_dist p1 p2)
    by (by apply Rdiv_lt_0_compat).
  split; [done|]. split; [done|].
  destruct (Rlt_dec _ _); inversion H; subst; split; (done || lra).
Qed.

(** X7.  A calibration that succeeds gives a positive ratio; it reads
    only the first two points, and it does not matter which of the two
    comes first. *)
Theorem calibration_is_positive_and_reads_two_points
    (points : list CalibrationPoint) (r : R) :
  calibrate_reference_object points = Some r ->
  0 < r /\
  exists p1 p2 rest, points = p1 :: p2 :: rest /\
    calibrate_reference_object [p1; p2] = Some r /\
    calibrate_reference_object (p2 :: p1 :: rest) = Some r /\
    forall rest', calibrate_reference_object (p1 :: p2 :: rest') = Some r.
Proof.
  intros H. destruct points as [|p1 [|p2 rest]]; [done|done|].
  pose proof (calibrate_positive _ _ _ _ H) as (_ & _ & Hr & _).
  split; [done|]. exists p1, p2, rest. split; [done|].
  rewrite calibrate_two in H. rewrite !calibrate_two.
  rewrite <- (pixel_dist_sym p1 p2), <- (real_dist_sym p1 p2). done.
Qed.

Lemma calibration_is_positive_and_reads_two_points_witness :
  0 < 50 /\
  calibrate_reference_object
    [mkPoint 50 0 1 0; mkPoint 0 0 0 0; mkPoint 7 7 7 7] = Some 50.
Proof.
  assert (H : calibrate_reference_object
                [mkPoint 0 0 0 0; mkPoint 50 0 1 0; mkPoint 7 7 7 7] = Some 50).
  { rewrite calibrate_two. unfold pixel_dist, real_dist.
    cbn [pixel_x pixel_y real_x real_y].
    rewrite !sqrt_of_square by lra.
    destruct (Req_dec_T 50 0); [lra|]. destruct (Req_dec_T 1 0); [lra|].
    destruct (Rlt_dec (50 / 1) 10); [lra|]. f_equal. lra. }
  destruct (calibration_is_positive_and_reads_two_points _ _ H)
    as (Hpos & p1 & p2 & rest & E & _ & Hswap & _).
  inversion E; subst. done.
Defined.

Lemma calculate_distance_norm (p q : R * R) (ppm : R) :
  ppm <> 0 ->
  calculate_distance p q ppm
  = sqrt ((q.1 - p.1) ^ 2 + (q.2 - p.2) ^ 2) / Rabs ppm.
Proof.
  intros Hppm. unfold calculate_distance, pixel_to_meters. cbn [fst snd].
  replace ((q.1 / ppm - p.1 / ppm) ^ 2 + (q.2 / ppm - p.2 / ppm) ^ 2)
    with (((q.1 - p.1) ^ 2 + (q.2 - p.2) ^ 2) * (/ Rabs ppm) ^ 2).
  2:{ replace ((/ Rabs ppm) ^ 2) with ((/ ppm) ^ 2).
      - field. done.
      - by rewrite <- Rabs_inv, pow2_abs. }
  rewrite sqrt_mult_alt.
  2:{ apply Rplus_le_le_0_compat; apply pow2_ge_0. }
  rewrite sqrt_pow2; [done|].
  apply Rlt_le, Rinv_0_lt_compat, Rabs_pos_lt. done.
Qed.

(** X8.  Distances measured with a ratio are the pixel distance divided
    by the size of the ratio: [calculate_distance] is symmetric in its
    two points, zero from a point to itself, blind to the sign of the
    ratio, and a ratio [k] times larger gives a distance [k] times
    smaller. *)
Theorem calculate_distance_scales (p q : R * R) (ppm : R) :
  ppm <> 0 ->
  calculate_distance p q ppm
    = sqrt ((q.1 - p.1) ^ 2 + (q.2 - p.2) ^ 2) / Rabs ppm /\
  calculate_distance p q ppm = calculate_distance q p ppm /\
  calculate_distance p p ppm = 0 /\
  0 <= calculate_distance p q ppm /\
  calculate_distance p q (- ppm) = calculate_distance p q ppm /\
  (forall k, 0 < k ->
     calculate_distance p q (k * ppm) = calculate_distance p q ppm / k).
Proof.
  intros Hppm. split; [by apply calculate_distance_norm|].
  split.
  { rewrite !calculate_distance_norm by done. f_equal. f_equal. lra. }
  split.
  { rewrite calculate_distance_norm by done.
    replace ((p.1 - p.1) ^ 2 + (p.2 - p.2) ^ 2) with 0 by lra.
    rewrite sqrt_0. lra. }
  split; [apply sqrt_pos|]. split.
  { rewrite !calculate_distance_norm by lra. by rewrite Rabs_Ropp. }
  intros k Hk.
  rewrite !calculate_distance_norm by (done || nra).
  rewrite Rabs_mult, (Rabs_pos_eq k) by lra.
  field. split; first [lra | by apply Rabs_no_R0].
Qed.

Lemma calculate_distance_scales_witness :
  100 <> 0 /\ calculate_distance (0, 0) (300, 0) 100 = 3.
Proof.
  assert (H100 : 100 <> 0) by lra. split; [done|].
  rewrite (proj1 (calculate_distance_scales (0, 0) (300, 0) 100 H100)).
  cbn [fst snd]. rewrite sqrt_of_square by lra. rewrite Rabs_pos_eq by lra. lra.
Defined.

(** X9.  Calibrating and then measuring gives back the reference: with
    the ratio [calibrate_reference_object] returns, [calculate_distance]
    between the two pixel marks is the real distance that was entered
    between them, or a hundredth of it when the centimetre conversion was
    applied. *)
Theorem calibrate_then_measure (p1 p2 : CalibrationPoint)
    (rest : list CalibrationPoint) (ppm : R) :
  calibrate_reference_object (p1 :: p2 :: rest) = Some ppm ->
  calculate_distance (pixel_x p1, pixel_y p1) (pixel_x p2, pixel_y p2) ppm
  = if Rlt_dec (pixel_dist p1 p2 / real_dist p1 p2) 10
    then real_dist p1 p2 / 100
    else real_dist p1 p2.
Proof.
  intros H. apply calibrate_positive in H as (Hp & Hr & Hppm & ->).
  rewrite calculate_distance_norm; cbn [fst snd].
  - fold (pixel_dist p1 p2).
    destruct (Rlt_dec _ _) as [Hlt|Hge].
    + rewrite Rabs_pos_eq by lra. field. lra.
    + rewrite Rabs_pos_eq by lra. field. lra.
  - destruct (Rlt_dec _ _); lra.
Qed.

Lemma calibrate_marks :
  calibrate_reference_object [mkPoint 0 0 0 0; mkPoint 50 0 1 0] = Some 50 /\
  calibrate_reference_object [mkPoint 0 0 0 0; mkPoint 8 0 1 0] = Some 800.
Proof.
  rewrite !calibrate_two. unfold pixel_dist, real_dist.
  cbn [pixel_x pixel_y real_x real_y]. rewrite !sqrt_of_square by lra.
  destruct (Req_dec_T 50 0); [lra|]. destruct (Req_dec_T 8 0); [lra|].
  destruct (Req_dec_T 1 0); [lra|].
  destruct (Rlt_dec (50 / 1) 10); [lra|].
  destruct (Rlt_dec (8 / 1) 10); [|lra].
  split; f_equal; lra.
Qed.

Lemma calibrate_then_measure_witness :
  calculate_distance (0, 0) (50, 0) 50 = 1 /\
  calculate_distance (0, 0) (8, 0) 800 = 1 / 100.
Proof.
  destruct calibrate_marks as [H50 H8].
  pose proof (calibrate_then_measure _ _ _ _ H50) as E50.
  pose proof (calibrate_then_measure _ _ _ _ H8) as E8.
  unfold pixel_dist, real_dist in E50, E8.
  cbn [pixel_x pixel_y real_x real_y] in E50, E8.
  rewrite !sqrt_of_square in E50, E8 by lra.
  destruct (Rlt_dec (50 / 1) 10); [lra|].
  destruct (Rlt_dec (8 / 1) 10); [|lra].
  split; [exact E50|exact E8].
Defined.

End CalibrationMore.

(** ** The speed fields *)

Section SpeedMore.
Import SpeedCalculator.
Local Open Scope R_scope.

(** X10.  The dict [calculate_speed] returns is consistent: it always
    holds the three pixel fields, with
    [speed_px_per_sec^2 = velocity_x^2 + velocity_y^2]; it holds the two
    metric fields exactly when it is given a ratio that is neither [None]
    nor zero, and then [speed_kmh] is 3.6 times [speed_m_per_sec]; a
    frame rate that is not negative gives a speed that is not negative. *)
Theorem calculate_speed_fields (self : SpeedCalculator.t) (velocity : R * R)
    (pixels_per_meter : option R) :
  let d := calculate_speed self velocity pixels_per_meter in
  (exists s vx vy,
     d !! "speed_px_per_sec" = Some s /\
     d !! "velocity_x" = Some vx /\ d !! "velocity_y" = Some vy /\
     s ^ 2 = vx ^ 2 + vy ^ 2 /\
     ((0 <= fps self)%Z -> 0 <= s)) /\
  dom d = (if truthy pixels_per_meter
           then {["speed_px_per_sec"; "velocity_x"; "velocity_y";
                  "speed_m_per_sec"; "speed_kmh"]}
           else {["speed_px_per_sec"; "velocity_x"; "velocity_y"]} : gset string) /\
  (forall m, d !! "speed_m_per_sec" = Some m -> d !! "speed_kmh" = Some (m * 3.6)).
Proof.
  destruct velocity as [vx vy]. intros d.
  assert (Hsq : (sqrt (vx ^ 2 + vy ^ 2) * IZR (fps self)) ^ 2
                = (vx * IZR (fps self)) ^ 2 + (vy * IZR (fps self)) ^ 2).
  { rewrite Rpow_mult_distr. rewrite pow2_sqrt; [lra|].
    apply Rplus_le_le_0_compat; apply pow2_ge_0. }
  split; [|split].
  - exists (sqrt (vx ^ 2 + vy ^ 2) * IZR (fps self)),
      (vx * IZR (fps self)), (vy * IZR (fps self)).
    split; [apply calculate_speed_px|].
    split; [|split; [|split]].
    + subst d. unfold calculate_speed.
      destruct pixels_per_meter; [destruct (truthy _)|]; by simplify_map_eq.
    + subst d. unfold calculate_speed.
      destruct pixels_per_meter; [destruct (truthy _)|]; by simplify_map_eq.
    + done.
    + intros Hf. apply Rmult_le_pos; [apply sqrt_pos|by apply IZR_le].
  - subst d. unfold calculate_speed.
    destruct pixels_per_meter as [r|]; [destruct (truthy (Some r))|];
      rewrite ?dom_insert_L, dom_empty_L; set_solver.
  - intros m. subst d. unfold calculate_speed.
    destruct pixels_per_meter as [r|]; [destruct (truthy (Some r))|];
      intros Hm; simplify_map_eq; done.
Qed.

End SpeedMore.

(** ** The socket's view of a tracked object *)

Section DistanceMore.
Import Websocket.
Local Open Scope R_scope.

Lemma distance_is_calculate_distance (centroid : R * R) (ppm : R) (d : Distance) :
  calculate_distance_from_camera centroid ppm = Some d ->
  ppm <> 0 /\
  position_meters d = Calibrator.pixel_to_meters centroid.1 centroid.2 ppm /\
  distance_from_camera_m d = Calibrator.calculate_distance (0, 0) centroid ppm /\
  distance_from_camera_ft d = distance_from_camera_m d * 3.28084.
Proof.
  unfold calculate_distance_from_camera.
  destruct (Req_dec_T ppm 0) as [|Hne]; [done|]. intros [= <-]. simpl.
  split; [done|]. split; [done|]. split; [|done].
  unfold Calibrator.calculate_distance, Calibrator.pixel_to_meters. simpl.
  f_equal. unfold Rdiv. lra.
Qed.

(** X11.  The distance fields of a tracked object are the calibrator's
    measure from the origin: whenever the distance block of
    [process_frame_sync] adds its fields, the camera is calibrated with a
    ratio that is neither missing nor zero, the fields are those
    [calculate_distance_from_camera] gives for the object's centroid,
    [distance_from_camera_m] is [calculate_distance] from [(0, 0)] to the
    centroid, and the feet are the metres times 3.28084.  A camera that
    is not calibrated, or whose ratio is missing or zero, gets no
    distance fields, and the block does not fail for it: the block fails
    in one case only, when the class test raises, and that is decided
    before the ratio is read. *)
Theorem distance_fields_measure_from_origin (camera : Camera.t)
    (obj : Tracker.TrackedObject) :
  (forall d, distance_data camera obj = Some (Some d) ->
     Camera.is_calibrated camera = true /\
     exists ppm, Camera.pixels_per_meter camera = Some ppm /\ ppm <> 0 /\
       calculate_distance_from_camera (Tracker.centroid obj) ppm = Some d /\
       distance_from_camera_m d
         = Calibrator.calculate_distance (0, 0) (Tracker.centroid obj) ppm /\
       distance_from_camera_m d
         = sqrt ((Tracker.centroid obj).1 ^ 2 + (Tracker.centroid obj).2 ^ 2)
           / Rabs ppm /\
       distance_from_camera_ft d = distance_from_camera_m d * 3.28084) /\
  (Camera.is_calibrated camera = false -> distance_data camera obj = Some None) /\
  (distance_data camera obj = None <->
   Camera.truthy (Camera.get (Camera.features camera) "distance"
                    (Camera.VBool false)) = true /\
   Camera.is_calibrated camera = true /\
   Camera.truthy (Camera.get (Camera.features camera) "distance_classes"
                    (Camera.VList [])) = true /\
   contains (Camera.get (Camera.features camera) "distance_classes"
               (Camera.VList [])) (Tracker.class_name obj) = None) /\
  (SpeedCalculator.truthy (Camera.pixels_per_meter camera) = false ->
   distance_data camera obj <> None ->
   distance_data camera obj = Some None).
Proof.
  split; [|split; [|split]].
  - intros d H. unfold distance_data in H.
    destruct (Camera.truthy (Camera.get _ "distance" _)); [|done].
    destruct (Camera.is_calibrated camera); [|done]. simpl in H.
    split; [done|].
    assert (Hc : match Camera.pixels_per_meter camera with
                 | Some ppm => calculate_distance_from_camera (Tracker.centroid obj) ppm
                 | None => None
                 end = Some d).
    { unfold calculate_distance_from_camera.
      destruct (negb _); [by inversion H|].
      destruct (contains _ _) as [[|]|]; simpl in H; by inversion H. }
    destruct (Camera.pixels_per_meter camera) as [ppm|]; [|done].
    exists ppm. split; [done|].
    pose proof (distance_is_calculate_distance _ _ _ Hc) as (Hne & _ & Hm & Hft).
    split; [done|]. split; [done|]. split; [done|]. split; [|done].
    rewrite Hm, calculate_distance_norm by done. simpl.
    f_equal. f_equal. lra.
  - intros Hcal. unfold distance_data. rewrite Hcal.
    by rewrite andb_false_r.
  - unfold distance_data. cbv zeta.
    destruct (Camera.truthy (Camera.get _ "distance" _));
      [|split; [done|by intros (? & _)]].
    destruct (Camera.is_calibrated camera);
      [|split; [done|by intros (_ & ? & _)]].
    cbn [andb].
    destruct (Camera.truthy (Camera.get _ "distance_classes" _));
      [|split; [done|by intros (_ & _ & ? & _)]].
    cbn [negb].
    destruct (contains _ _) as [listed|]; simpl.
    + split; [done|by intros (_ & _ & _ & ?)].
    + done.
  - intros Ht. unfold distance_data.
    assert (Hnone : match Camera.pixels_per_meter camera with
                    | Some ppm =>
                        if Req_dec_T ppm 0 then None
                        else Some {| position_meters := ((Tracker.centroid obj).1 / ppm, (Tracker.centroid obj).2 / ppm);
                                     distance_from_camera_m := sqrt (((Tracker.centroid obj).1 / ppm) ^ 2 + ((Tracker.centroid obj).2 / ppm) ^ 2);
                                     distance_from_camera_ft := sqrt (((Tracker.centroid obj).1 / ppm) ^ 2 + ((Tracker.centroid obj).2 / ppm) ^ 2) * 3.28084 |}
                    | None => None
                    end = None).
    { unfold SpeedCalculator.truthy in Ht.
      destruct (Camera.pixels_per_meter camera) as [ppm|]; [|done].
      by destruct (Req_dec_T ppm 0). }
    cbv zeta. rewrite Hnone.
    destruct (_ && _); [|done].
    destruct (negb _); [done|].
    destruct (contains _ _) as [[|]|]; simpl; done.
Qed.

Lemma filter_by_label_spec (tc : Camera.value) (dets kept : list Tracker.Detection) :
  filter_by_label tc dets = Some kept ->
  kept `sublist_of` dets /\
  forall det, det ∈ dets ->
    (det ∈ kept <-> contains tc (Tracker.label det) = Some true).
Proof.
  revert kept. induction dets as [|det dets IH]; intros kept H; simpl in H.
  - inversion H; subst. split; [done|]. intros det Hd. by apply elem_of_nil in Hd.
  - destruct (contains tc (Tracker.label det)) as [listed|] eqn:Ec; [|done].
    simpl in H. destruct (filter_by_label tc dets) as [kept'|]; [|done].
    simpl in H. inversion H; subst. destruct (IH kept' eq_refl) as [Hsub Hiff].
    split.
    + destruct listed; [by apply sublist_skip|by apply sublist_cons].
    + intros d [->|Hd]%elem_of_cons.
      * rewrite Ec. destruct listed; split; try done.
        -- intros _. left.
        -- intros Hin. exfalso.
           assert (Hd : det ∈ dets) by (eapply elem_of_sublist; eauto).
           apply (Hiff det Hd) in Hin. congruence.
      * destruct listed.
        -- rewrite elem_of_cons. split.
           ++ intros [->|Hin]; [done|]. by apply Hiff.
           ++ intros Hc. right. by apply Hiff.
        -- by apply Hiff.
Qed.

(** X12.  The tracker is shown only the selected classes: when
    [tracking_classes] is set, the detections passed on are those of the
    detected ones, in their order, whose label is among the classes, and
    no others; when it is missing or empty, all of them are passed on
    unchanged. *)
Theorem tracker_sees_selected_classes (camera : Camera.t)
    (detected_objects kept : list Tracker.Detection) :
  filtered_detections camera detected_objects = Some kept ->
  let tracking_classes :=
    Camera.get (Camera.features camera) "tracking_classes" (Camera.VList []) in
  kept `sublist_of` detected_objects /\
  (Camera.truthy tracking_classes = false -> kept = detected_objects) /\
  (Camera.truthy tracking_classes = true ->
   forall det, det ∈ detected_objects ->
     (det ∈ kept <-> contains tracking_classes (Tracker.label det) = Some true)).
Proof.
  intros H tc. unfold filtered_detections in H. fold tc in H.
  destruct (Camera.truthy tc) eqn:Et.
  - apply filter_by_label_spec in H as [Hsub Hiff].
    split; [done|]. split; [done|]. intros _. done.
  - inversion H; subst. split; [done|]. split; [done|]. done.
Qed.

Lemma tracker_sees_selected_classes_witness :
  filtered_detections yard_camera [Tracker.car; Tracker.person]
    = Some [Tracker.car] /\
  [Tracker.car] `sublist_of` [Tracker.car; Tracker.person].
Proof.
  assert (H : filtered_detections yard_camera [Tracker.car; Tracker.person]
              = Some [Tracker.car]) by reflexivity.
  split; [exact H|].
  exact (proj1 (tracker_sees_selected_classes _ _ _ H)).
Defined.

End DistanceMore.

(** ** The connections of the socket endpoint *)

Section Connections.
Import ConnectionManager.

Lemma connect_eq (self : ConnectionManager.t) (ws : nat) (cid : string) :
  connect self ws cid = <[cid := {[ws]} ∪ clients self cid]> self.
Proof.
  unfold connect, clients. destruct (self !! cid) as [s|] eqn:E; simpl.
  - by rewrite (lookup_total_correct _ _ _ E).
  - rewrite lookup_total_insert_eq, insert_insert_eq. done.
Qed.

Lemma clients_connect (self : ConnectionManager.t) (ws : nat) (cid cid' : string) :
  clients (connect self ws cid) cid'
  = if decide (cid = cid') then {[ws]} ∪ clients self cid' else clients self cid'.
Proof.
  rewrite connect_eq. unfold clients at 1. destruct (decide (cid = cid')) as [->|Hne].
  - by rewrite lookup_insert_eq.
  - by rewrite lookup_insert_ne.
Qed.

Lemma clients_disconnect (self : ConnectionManager.t) (ws : nat) (cid cid' : string) :
  clients (disconnect self ws cid) cid'
  = if decide (cid = cid') then clients self cid' ∖ {[ws]} else clients self cid'.
Proof.
  unfold disconnect, clients. destruct (decide (cid = cid')) as [<-|Hne].
  - destruct (self !! cid) as [s|] eqn:E; simpl.
    + destruct (decide (s ∖ {[ws]} = ∅)) as [He|He].
      * by rewrite lookup_delete_eq, He.
      * by rewrite lookup_insert_eq.
    + rewrite E. simpl. set_solver.
  - destruct (self !! cid) as [s|] eqn:E; [|done].
    destruct (decide (s ∖ {[ws]} = ∅)).
    + by rewrite lookup_delete_ne.
    + by rewrite lookup_insert_ne.
Qed.

Lemma no_empty_entry_apply_op (self : ConnectionManager.t) (o : op) :
  no_empty_entry self -> no_empty_entry (apply_op self o).
Proof.
  intros Hinv. destruct o as [ws cid|ws cid]; simpl.
  - rewrite connect_eq. intros k s [[_ <-]|[_ Hk]]%lookup_insert_Some.
    + set_solver.
    + by apply (Hinv k).
  - unfold disconnect. destruct (self !! cid) as [s0|] eqn:E; [|done].
    destruct (decide (s0 ∖ {[ws]} = ∅)).
    + intros k s [_ Hk]%lookup_delete_Some. by apply (Hinv k).
    + intros k s [[_ <-]|[_ Hk]]%lookup_insert_Some; [done|by apply (Hinv k)].
Qed.

Lemma no_empty_entry_reachable (ops : list op) :
  no_empty_entry (fold_left apply_op ops ConnectionManager.init).
Proof.
  induction ops as [|o ops IH] using rev_ind.
  - intros k s Hk. simpl in Hk. unfold ConnectionManager.init in Hk.
    by rewrite lookup_empty in Hk.
  - rewrite fold_left_app. simpl. by apply no_empty_entry_apply_op.
Qed.

(** X13.  The connection manager keeps, for each camera, the set of
    sockets connected to it: [connect] adds the socket to the camera's
    set, [disconnect] removes it, and neither touches the set of another
    camera; connecting twice is connecting once, and disconnecting a
    socket that is not connected takes nothing away. *)
Theorem connections_are_sets_per_camera (self : ConnectionManager.t)
    (websocket : nat) (camera_id : string) :
  (forall other,
     clients (connect self websocket camera_id) other
     = if decide (camera_id = other)
       then {[websocket]} ∪ clients self other else clients self other) /\
  (forall other,
     clients (disconnect self websocket camera_id) other
     = if decide (camera_id = other)
       then clients self other ∖ {[websocket]} else clients self other) /\
  connect (connect self websocket camera_id) websocket camera_id
  = connect self websocket camera_id /\
  (forall other,
     websocket ∉ clients self camera_id ->
     clients (disconnect self websocket camera_id) other = clients self other).
Proof.
  split; [intros other; apply clients_connect|].
  split; [intros other; apply clients_disconnect|].
  split.
  - rewrite (connect_eq (connect _ _ _)), clients_connect.
    rewrite decide_True by done. rewrite connect_eq, insert_insert_eq.
    f_equal. set_solver.
  - intros other Hnot. rewrite clients_disconnect.
    destruct (decide (camera_id = other)) as [<-|]; [|done]. set_solver.
Qed.

(** X14.  The connection manager never keeps a camera with no socket:
    after any sequence of connects and disconnects, starting with no
    connection, every camera that has an entry has at least one socket in
    it; so a camera has an entry exactly when some socket is connected to
    it. *)
Theorem no_camera_without_sockets (ops : list op) :
  let self := fold_left apply_op ops ConnectionManager.init in
  (forall camera_id sockets,
     self !! camera_id = Some sockets -> sockets <> ∅) /\
  (forall camera_id,
     is_Some (self !! camera_id) <-> exists websocket, websocket ∈ clients self camera_id).
Proof.
  intros self. pose proof (no_empty_entry_reachable ops) as Hinv. fold self in Hinv.
  split; [exact Hinv|]. intros cid. unfold clients. split.
  - intros [s Hs]. rewrite Hs. simpl. specialize (Hinv _ _ Hs).
    apply set_choose_L in Hinv. done.
  - intros [ws Hws]. destruct (self !! cid); [done|]. set_solver.
Qed.

(** X15.  Connecting and then disconnecting leaves no trace: in a manager
    that keeps no empty entry, for a socket that was not connected to the
    camera, [disconnect] after [connect] gives back the manager as it
    was; in particular the last socket to leave takes the camera's entry
    with it. *)
Theorem connect_then_disconnect (self : ConnectionManager.t)
    (websocket : nat) (camera_id : string) :
  no_empty_entry self ->
  websocket ∉ clients self camera_id ->
  disconnect (connect self websocket camera_id) websocket camera_id = self.
Proof.
  intros Hinv Hnot. rewrite connect_eq. unfold disconnect.
  rewrite lookup_insert_eq.
  assert (Hs : ({[websocket]} ∪ clients self camera_id) ∖ {[websocket]}
               = clients self camera_id) by set_solver.
  rewrite Hs. unfold clients in *.
  destruct (self !! camera_id) as [s|] eqn:E; simpl in *.
  - rewrite decide_False by (by apply (Hinv camera_id)).
    rewrite insert_insert_eq. by apply insert_id.
  - rewrite decide_True by done. rewrite delete_insert_eq. by apply delete_id.
Qed.

Lemma connect_then_disconnect_witness :
  disconnect (connect ConnectionManager.init 7 "cam-1") 7 "cam-1"
  = ConnectionManager.init.
Proof.
  apply connect_then_disconnect.
  - apply (no_empty_entry_reachable []).
  - unfold clients, ConnectionManager.init. rewrite lookup_empty. set_solver.
Defined.

End Connections.

(** ** The captures of the socket endpoint *)

Section Captures.
Import WsStreamManager.

Lemma captures_consistent_init : consistent WsStreamManager.init world0.
Proof.
  split; simpl.
  - intros cid. unfold is_running. simpl. rewrite !lookup_empty. simpl.
    split; [done|]. by intros [? ?].
  - intros cid. unfold get_stream_type. simpl. by rewrite !lookup_empty.
  - intros cid cap H. by rewrite lookup_empty in H.
  - intros c1 c2 cap1 cap2 H. by rewrite lookup_empty in H.
  - constructor.
  - intros h Hh. by apply elem_of_nil in Hh.
Qed.

Lemma captures_consistent_stop_stream (w : World) (self : WsStreamManager.t) (cid : string) :
  consistent self w ->
  consistent (stop_stream w self cid).1 (stop_stream w self cid).2.
Proof.
  intros [Hrun Htyp Hlive Honce Hnd Hrel]. unfold stop_stream.
  destruct (streams self !! cid) as [cap|] eqn:E; simpl.
  - assert (Hty : is_Some (stream_types self !! cid)).
    { specialize (Htyp cid). unfold get_stream_type in Htyp.
      rewrite Htyp, E. by eexists. }
    destruct Hty as [ty Hty]. rewrite Hty.
    destruct (Hlive _ _ E) as [Hlt Hnin].
    split; simpl.
    + intros k. unfold is_running. simpl.
      destruct (decide (k = cid)) as [->|Hne].
      * rewrite lookup_insert_eq, lookup_delete_eq. simpl.
        split; [done|]. by intros [? ?].
      * rewrite lookup_insert_ne, lookup_delete_ne by done. apply Hrun.
    + intros k. unfold get_stream_type. simpl.
      destruct (decide (k = cid)) as [->|Hne].
      * by rewrite !lookup_delete_eq.
      * rewrite !lookup_delete_ne by done. apply Htyp.
    + intros k c [Hne Hk]%lookup_delete_Some.
      destruct (Hlive _ _ Hk) as [Hlt' Hnin']. split; [done|].
      rewrite elem_of_app, list_elem_of_singleton.
      intros [Hin|Heq]; [done|]. apply Hne.
      by apply (Honce _ _ _ _ E Hk).
    + intros c1 c2 cap1 cap2 [_ H1]%lookup_delete_Some [_ H2]%lookup_delete_Some.
      by apply Honce.
    + apply NoDup_app. split; [done|]. split; [|apply NoDup_singleton].
      intros h Hh ->%list_elem_of_singleton. done.
    + intros h [Hh| ->%list_elem_of_singleton]%elem_of_app; [by apply Hrel|done].
  - split; simpl; try done.
    intros k. unfold is_running. simpl.
    destruct (decide (k = cid)) as [->|Hne].
    + rewrite lookup_insert_eq, E. simpl. split; [done|]. by intros [? ?].
    + rewrite lookup_insert_ne by done. apply Hrun.
Qed.

Lemma stop_stream_created (w : World) (self : WsStreamManager.t) (cid : string) :
  created (stop_stream w self cid).2 = created w /\
  streams (stop_stream w self cid).1 = delete cid (streams self).
Proof.
  unfold stop_stream. destruct (streams self !! cid) eqn:E; simpl; [done|].
  split; [done|]. symmetry. by apply delete_id.
Qed.

Lemma captures_consistent_fresh (w : World) (self : WsStreamManager.t) :
  consistent self w ->
  consistent self {| created := S (created w); released := released w |}.
Proof.
  intros [Hrun Htyp Hlive Honce Hnd Hrel]. split; simpl; try done.
  - intros k c Hk. destruct (Hlive _ _ Hk). split; [lia|done].
  - intros h Hh. specialize (Hrel h Hh). lia.
Qed.

Lemma captures_consistent_start_stream (w : World) (self : WsStreamManager.t)
    (cid stream_url : string) (is_opened : bool) :
  consistent self w ->
  consistent (start_stream w self cid stream_url is_opened).1.2
             (start_stream w self cid stream_url is_opened).2.
Proof.
  intros Hc. unfold start_stream.
  assert (H1 : exists self1 w1,
             match streams self !! cid with
             | Some _ => stop_stream w self cid
             | None => (self, w)
             end = (self1, w1) /\ consistent self1 w1 /\
             streams self1 !! cid = None).
  { destruct (streams self !! cid) as [cap|] eqn:E.
    - pose proof (captures_consistent_stop_stream w self cid Hc) as Hc'.
      pose proof (stop_stream_created w self cid) as [_ Hs].
      destruct (stop_stream w self cid) as [self1 w1]. simpl in *.
      exists self1, w1. split; [done|]. split; [done|].
      by rewrite Hs, lookup_delete_eq.
    - by exists self, w. }
  destruct H1 as (self1 & w1 & -> & Hc1 & Hfree).
  destruct is_opened; simpl; [|by apply captures_consistent_fresh].
  destruct Hc1 as [Hrun Htyp Hlive Honce Hnd Hrel]. split; simpl.
  - intros k. unfold is_running. simpl.
    destruct (decide (k = cid)) as [->|Hne].
    + rewrite !lookup_insert_eq. simpl. split; [by eexists|done].
    + rewrite !lookup_insert_ne by done. apply Hrun.
  - intros k. unfold get_stream_type. simpl.
    destruct (decide (k = cid)) as [->|Hne].
    + by rewrite !lookup_insert_eq.
    + rewrite !lookup_insert_ne by done. apply Htyp.
  - intros k c [[_ <-]|[_ Hk]]%lookup_insert_Some; simpl.
    + split; [lia|]. intros Hin. specialize (Hrel _ Hin). lia.
    + destruct (Hlive _ _ Hk). split; [lia|done].
  - intros c1 c2 cap1 cap2
      [[<- <-]|[Hn1 Hk1]]%lookup_insert_Some
      [[<- <-]|[Hn2 Hk2]]%lookup_insert_Some; simpl; intros Hh; try done.
    + destruct (Hlive _ _ Hk2). lia.
    + destruct (Hlive _ _ Hk1). lia.
    + by apply (Honce _ _ _ _ Hk1 Hk2).
  - done.
  - intros h Hh. specialize (Hrel h Hh). lia.
Qed.

Lemma captures_consistent_apply_op (st : WsStreamManager.t * World) (o : op) :
  consistent st.1 st.2 -> consistent (apply_op st o).1 (apply_op st o).2.
Proof.
  intros Hc. destruct o as [cid u opened|cid]; simpl.
  - pose proof (captures_consistent_start_stream st.2 st.1 cid u opened Hc) as H.
    by destruct (start_stream st.2 st.1 cid u opened) as [[b s'] w'].
  - by apply captures_consistent_stop_stream.
Qed.

Lemma captures_consistent_reachable (ops : list op) :
  consistent (fold_left apply_op ops (WsStreamManager.init, world0)).1
             (fold_left apply_op ops (WsStreamManager.init, world0)).2.
Proof.
  induction ops as [|o ops IH] using rev_ind.
  - apply captures_consistent_init.
  - rewrite fold_left_app. simpl. by apply captures_consistent_apply_op.
Qed.

(** X16.  The three maps of the capture manager agree, and it holds only
    live captures: after any sequence of [start_stream] and [stop_stream]
    calls, whatever OpenCV answers, a camera is running exactly when it
    has a capture, its stream type is recorded exactly then and is the
    one its URL gives ([http] or [rtsp]), no capture that is held was
    released, no capture is held for two cameras, and none is released
    twice. *)
Theorem captures_are_consistent (ops : list op) :
  let st := fold_left apply_op ops (WsStreamManager.init, world0) in
  (forall camera_id,
     is_running st.1 camera_id = true <-> is_Some (streams st.1 !! camera_id)) /\
  (forall camera_id,
     get_stream_type st.1 camera_id
     = (fun cap => stream_type_of (url cap)) <$> streams st.1 !! camera_id) /\
  (forall camera_id ty,
     get_stream_type st.1 camera_id = Some ty -> ty = "http" \/ ty = "rtsp") /\
  (forall camera_id cap,
     streams st.1 !! camera_id = Some cap -> handle cap ∉ released st.2) /\
  (forall c1 c2 cap1 cap2,
     streams st.1 !! c1 = Some cap1 -> streams st.1 !! c2 = Some cap2 ->
     handle cap1 = handle cap2 -> c1 = c2) /\
  NoDup (released st.2).
Proof.
  intros st. destruct (captures_consistent_reachable ops) as [Hrun Htyp Hlive Honce Hnd Hrel].
  fold st in Hrun, Htyp, Hlive, Honce, Hnd, Hrel.
  split; [done|]. split; [done|]. split.
  { intros cid ty. rewrite Htyp. destruct (streams st.1 !! cid); [|done].
    simpl. intros [= <-]. unfold stream_type_of. destruct (_ || _); auto. }
  split; [intros cid cap H; by apply (Hlive cid cap)|]. done.
Qed.

(** X17.  Starting a stream for a camera that already has one always
    releases the old capture first, so a restart that fails to open
    leaves the camera with no capture and not running; a start that
    opens leaves it running with the new capture; and [stop_stream]
    releases the capture it drops and leaves the camera not running. *)
Theorem restart_releases_the_old_capture (w : World) (self : WsStreamManager.t)
    (camera_id stream_url : string) (is_opened : bool) (old : VideoCapture) :
  streams self !! camera_id = Some old ->
  let '(ok, self', w') := start_stream w self camera_id stream_url is_opened in
  ok = is_opened /\
  released w' = released w ++ [handle old] /\
  is_running self' camera_id = is_opened /\
  streams self' !! camera_id
    = (if is_opened then Some {| handle := created w; url := stream_url |} else None) /\
  get_stream_type self' camera_id
    = (if is_opened then Some (stream_type_of stream_url) else None) /\
  (stop_stream w self camera_id).2
    = {| created := created w; released := released w ++ [handle old] |} /\
  is_running (stop_stream w self camera_id).1 camera_id = false.
Proof.
  intros E. unfold start_stream. rewrite E.
  unfold stop_stream. rewrite E. unfold is_running, get_stream_type.
  destruct is_opened; simpl.
  - rewrite !lookup_insert_eq. simpl. do 6 (split; [reflexivity|]). reflexivity.
  - rewrite !lookup_insert_eq, lookup_delete_eq. simpl.
    do 4 (split; [done|]). split; [|done].
    destruct (stream_types self !! camera_id) eqn:Et; simpl;
      [by rewrite lookup_delete_eq|done].
Qed.

Lemma restart_releases_the_old_capture_witness :
  let st := (start_stream world0 WsStreamManager.init "cam-1" "rtsp://a" true) in
  is_running (start_stream st.2 st.1.2 "cam-1" "rtsp://b" false).1.2 "cam-1" = false /\
  released (start_stream st.2 st.1.2 "cam-1" "rtsp://b" false).2 = [0%nat].
Proof.
  intros st.
  pose proof (restart_releases_the_old_capture st.2 st.1.2 "cam-1" "rtsp://b" false
                {| handle := 0; url := "rtsp://a" |} eq_refl) as H.
  destruct (start_stream st.2 st.1.2 "cam-1" "rtsp://b" false) as [[ok self'] w'].
  destruct H as (_ & Hr & Hrun & _). simpl. split; [exact Hrun|exact Hr].
Defined.

End Captures.

(** ** Calibrating a camera *)

Section CalibrationService.
Import CameraService.
Local Open Scope R_scope.

Lemma requested_ratio_Some (mode : string) points (r : R) :
  requested_ratio mode points = Some r ->
  mode = "reference_object"%string /\
  Calibrator.calibrate_reference_object points = Some r /\ 0 < r /\
  SpeedCalculator.truthy (Some r) = true.
Proof.
  unfold requested_ratio. destruct (String.eqb_spec mode "reference_object"); [|done].
  intros H. split; [done|]. split; [done|].
  destruct points as [|p1 [|p2 rest]]; [done|done|].
  apply calibrate_positive in H as (_ & _ & Hr & _). split; [done|].
  unfold SpeedCalculator.truthy. destruct (Req_dec_T r 0); [lra|done].
Qed.

Lemma sound_apply_op (c : Calibration) (o : op) : sound c -> sound (apply_op c o).
Proof.
  intros Hs. destruct o as [mode points|]; simpl; [|done].
  unfold calibrate_camera.
  destruct (requested_ratio mode points) as [r|] eqn:E; [|done].
  apply requested_ratio_Some in E as (-> & Hc & Hr & Ht). rewrite Ht. simpl.
  unfold sound. simpl. by exists r, points.
Qed.

(** X18.  A camera is marked calibrated only with a usable ratio: after
    any sequence of calibrations and clearings of a new camera row, if
    [is_calibrated] is set then [pixels_per_meter] is a positive number,
    the mode stored is [reference_object], and the ratio is the one the
    stored points calibrate to; so the speed and distance computations
    never divide by a missing or zero ratio on such a row. *)
Theorem calibrated_rows_have_a_ratio (ops : list op) :
  let c := fold_left apply_op ops uncalibrated in
  is_calibrated c = true ->
  exists ratio points,
    pixels_per_meter c = Some ratio /\ 0 < ratio /\
    SpeedCalculator.truthy (pixels_per_meter c) = true /\
    calibration_mode c = Some "reference_object"%string /\
    calibration_points c = Some points /\
    Calibrator.calibrate_reference_object points = Some ratio.
Proof.
  intros c Hcal.
  assert (Hs : sound c).
  { subst c. clear Hcal. induction ops as [|o ops IH] using rev_ind; [done|].
    rewrite fold_left_app. simpl. by apply sound_apply_op. }
  unfold sound in Hs. rewrite Hcal in Hs.
  destruct Hs as (r & points & Hp & Hr & Hm & Hpts & Hc).
  exists r, points. rewrite Hp. do 2 (split; [done|]). split; [|done].
  unfold SpeedCalculator.truthy. destruct (Req_dec_T r 0); [lra|done].
Qed.

(** X19.  What a calibration request does to the row: it succeeds exactly
    when the mode is [reference_object] and the points calibrate, which
    is exactly when [test_calibration] reports success, with the same
    ratio; a success writes the four columns, and a failure (another
    mode, too few points, a zero distance) changes nothing, so an earlier
    calibration stays in force; clearing always gives the row of a new
    camera. *)
Theorem calibrate_camera_spec (camera : Calibration) (mode : string)
    (points : list Calibrator.CalibrationPoint) :
  let '(ok, camera') := calibrate_camera camera mode points in
  (ok = true <->
   mode = "reference_object"%string /\
   is_Some (Calibrator.calibrate_reference_object points)) /\
  (ok = true <-> is_Some (test_calibration mode points)) /\
  (ok = false -> camera' = camera) /\
  (ok = true ->
   exists ratio,
     Calibrator.calibrate_reference_object points = Some ratio /\
     test_calibration mode points = Some (ratio, length points) /\
     camera' = {| is_calibrated := true; pixels_per_meter := Some ratio;
                  calibration_mode := Some mode;
                  calibration_points := Some points |}) /\
  clear_calibration camera' = uncalibrated.
Proof.
  unfold calibrate_camera, test_calibration.
  destruct (requested_ratio mode points) as [r|] eqn:E.
  - pose proof (requested_ratio_Some _ _ _ E) as (-> & Hc & Hr & Ht).
    rewrite Ht. split; [|split; [|split; [|split]]].
    + split; [|done]. intros _. split; [done|]. rewrite Hc. by eexists.
    + split; [by eexists|done].
    + done.
    + intros _. exists r. done.
    + done.
  - assert (Hno : ~ (mode = "reference_object"%string /\
                     is_Some (Calibrator.calibrate_reference_object points))).
    { intros [-> [r Hr]]. unfold requested_ratio in E. simpl in E. congruence. }
    simpl. split; [|split; [|split; [|split]]].
    + split; [done|]. intros H. by destruct Hno.
    + split; [done|]. by intros [? ?].
    + done.
    + done.
    + done.
Qed.

Lemma calibrated_rows_have_a_ratio_witness :
  exists ratio,
    pixels_per_meter
      (fold_left apply_op
         [CalibrateCamera "reference_object"
            [Calibrator.mkPoint 0 0 0 0; Calibrator.mkPoint 50 0 1 0]]
         uncalibrated) = Some ratio /\ 0 < ratio.
Proof.
  assert (Hcal : is_calibrated
                   (fold_left apply_op
                      [CalibrateCamera "reference_object"
                         [Calibrator.mkPoint 0 0 0 0; Calibrator.mkPoint 50 0 1 0]]
                      uncalibrated) = true).
  { simpl. unfold calibrate_camera, requested_ratio. simpl.
    rewrite (proj1 calibrate_marks). unfold SpeedCalculator.truthy.
    destruct (Req_dec_T 50 0); [lra|]. done. }
  destruct (calibrated_rows_have_a_ratio _ Hcal) as (r & pts & Hp & Hr & _).
  exists r. done.
Defined.

(** X20.  A successful calibration reaches the socket: once
    [calibrate_camera] has succeeded and the row is stored, every speed
    block that reports anything for a tracked object reports the metric
    speed too, and the distance block of a camera whose [distance]
    feature is on (with no class filter) reports a distance, which is
    not negative. *)
Theorem calibration_reaches_the_socket (camera : Camera.t) (c c' : Calibration)
    (mode : string) (points : list Calibrator.CalibrationPoint)
    (obj : Tracker.TrackedObject) :
  calibrate_camera c mode points = (true, c') ->
  let camera' := store camera c' in
  (forall fields,
     Websocket.speed_data camera' obj = Some fields -> fields <> ∅ ->
     exists m, fields !! "speed_m_per_sec" = Some m /\
               fields !! "speed_kmh" = Some (m * 3.6)) /\
  (Camera.truthy (Camera.get (Camera.features camera) "distance"
                    (Camera.VBool false)) = true ->
   Camera.truthy (Camera.get (Camera.features camera) "distance_classes"
                    (Camera.VList [])) = false ->
   exists d, Websocket.distance_data camera' obj = Some (Some d) /\
             0 <= Websocket.distance_from_camera_m d).
Proof.
  intros H camera'. unfold calibrate_camera in H.
  destruct (requested_ratio mode points) as [r|] eqn:E; [|done].
  pose proof (requested_ratio_Some _ _ _ E) as (-> & Hc & Hr & Ht).
  rewrite Ht in H. inversion H; subst c'. clear H.
  assert (Hne : r <> 0) by lra.
  split.
  - intros fields Hf Hnemp.
    assert (fields = SpeedCalculator.calculate_speed
                       SpeedCalculator.speed_calculator
                       (Tracker.velocity obj) (Some r)) as ->.
    { unfold Websocket.speed_data in Hf. simpl in Hf.
      destruct (Camera.truthy (Camera.get _ "speed" _)); [|by inversion Hf].
      destruct (negb _); [by inversion Hf|].
      destruct (Websocket.contains _ _) as [[|]|]; simpl in Hf;
        inversion Hf; subst; done. }
    destruct (Tracker.velocity obj) as [vx vy].
    destruct (calculate_speed_calibrated SpeedCalculator.speed_calculator
                vx vy r Hne) as [Hm Hk].
    eexists. split; [exact Hm|exact Hk].
  - intros Hd Hcl. unfold Websocket.distance_data. simpl.
    rewrite Hd, Hcl. simpl. destruct (Req_dec_T r 0); [done|].
    eexists. split; [done|]. simpl. apply sqrt_pos.
Qed.

Lemma calibration_reaches_the_socket_witness :
  exists d,
    Websocket.distance_data
      (store Websocket.yard_camera
         (calibrate_camera uncalibrated "reference_object"
            [Calibrator.mkPoint 0 0 0 0; Calibrator.mkPoint 50 0 1 0]).2)
      (Tracker.mkTrackedObject "deadbeef" 2 "car" (0, 0, 10, 10) 0.9 (300, 400)
         (0, 0) 1 1 0 0 [] 0) = Some (Some d).
Proof.
  assert (H : calibrate_camera uncalibrated "reference_object"
                [Calibrator.mkPoint 0 0 0 0; Calibrator.mkPoint 50 0 1 0]
              = (true, {| is_calibrated := true; pixels_per_meter := Some 50;
                          calibration_mode := Some "reference_object"%string;
                          calibration_points :=
                            Some [Calibrator.mkPoint 0 0 0 0;
                                  Calibrator.mkPoint 50 0 1 0] |})).
  { unfold calibrate_camera, requested_ratio. simpl.
    rewrite (proj1 calibrate_marks). unfold SpeedCalculator.truthy.
    destruct (Req_dec_T 50 0); [lra|]. done. }
  rewrite H.
  destruct (proj2 (calibration_reaches_the_socket Websocket.yard_camera _ _ _ _
                     (Tracker.mkTrackedObject "deadbeef" 2 "car" (0, 0, 10, 10)
                        0.9 (300, 400) (0, 0) 1 1 0 0 [] 0) H)
              eq_refl eq_refl) as (d & Hd & _).
  by exists d.
Defined.

End CalibrationService.

(** ** The registry of streams: keys and counts *)

Section RegistryMore.
Import StreamManager.

Lemma keyed_apply_op (self : StreamManager.t) (o : op) :
  (forall k s, self !! k = Some s -> Camera.id (camera s) = k) ->
  forall k s, apply_op self o !! k = Some s -> Camera.id (camera s) = k.
Proof.
  intros Hinv. destruct o as [cam|cid|cid features]; simpl.
  - unfold add_stream. destruct (self !! Camera.id cam) eqn:E; [done|].
    simpl. intros k s [[<- <-]|[_ Hk]]%lookup_insert_Some; [done|by apply Hinv].
  - unfold remove_stream. destruct (self !! cid) eqn:E; [|done]. simpl.
    intros k s [_ Hk]%lookup_delete_Some. by apply Hinv.
  - unfold update_stream_features, get_stream.
    destruct (self !! cid) as [s0|] eqn:E; [|done].
    intros k s [[<- <-]|[_ Hk]]%lookup_insert_Some; [|by apply Hinv].
    specialize (Hinv _ _ E). unfold update_features.
    by repeat case_match.
Qed.

(** X21.  Every session is filed under its own camera: after any
    sequence of additions, removals and feature updates, the stream
    stored under a camera id is the stream of the camera with that id,
    and it carries the features last given to it. *)
Theorem streams_are_keyed_by_camera_id (ops : list op) :
  let self := fold_left apply_op ops StreamManager.init in
  (forall camera_id s,
     get_stream self camera_id = Some s -> Camera.id (camera s) = camera_id) /\
  (forall camera_id features s,
     get_stream (update_stream_features self camera_id features) camera_id = Some s ->
     Camera.features (camera s) = features /\ Camera.id (camera s) = camera_id) /\
  (forall camera_id, is_active self camera_id = true <-> is_Some (get_stream self camera_id)).
Proof.
  intros self.
  assert (Hinv : forall k s, self !! k = Some s -> Camera.id (camera s) = k).
  { subst self. induction ops as [|o ops IH] using rev_ind.
    - intros k s H. simpl in H. unfold StreamManager.init in H.
      by rewrite lookup_empty in H.
    - rewrite fold_left_app. simpl. by apply keyed_apply_op. }
  split; [exact Hinv|]. split.
  - intros cid features s H. split.
    + unfold update_stream_features, get_stream in *.
      destruct (self !! cid) as [s0|] eqn:E; [|congruence].
      rewrite lookup_insert_eq in H. inversion H; subst.
      unfold update_features. by repeat case_match.
    + apply (keyed_apply_op self (UpdateStreamFeatures cid features) Hinv _ _ H).
  - intros cid. unfold is_active, get_stream. by rewrite bool_decide_eq_true.
Qed.

(** X22.  The registry counts its streams.  [add_stream] adds a camera
    exactly when it is not active and its features hold a dict: the count
    then goes up by one and the camera is active; for an active camera it
    changes nothing and returns [True]; for one that is not active and
    whose features hold no dict ([None], say) it adds nothing, leaves
    the count, and returns [False], the only case in which it does.  [remove_stream]
    returns whether the camera was active, lowers the count by one
    exactly then, and leaves it inactive; a feature update never changes
    the count nor which cameras are active; and removing a camera that
    was just added, and was not active before, gives the registry back
    as it was. *)
Theorem registry_counts_its_streams (self : StreamManager.t) :
  (forall row,
     let added :=
       negb (is_active self (row_id row))
       && match row with Dict _ => true | NoDict _ => false end in
     (add_stream_row self row).1
     = (is_active self (row_id row)
        || match row with Dict _ => true | NoDict _ => false end) /\
     get_active_count (add_stream_row self row).2
     = (get_active_count self + (if added then 1 else 0))%nat /\
     is_active (add_stream_row self row).2 (row_id row)
     = (add_stream_row self row).1 /\
     (added = false -> (add_stream_row self row).2 = self) /\
     (forall camera, add_stream_row self (Dict camera) = add_stream self camera)) /\
  (forall camera_id,
     (remove_stream self camera_id).1 = is_active self camera_id /\
     get_active_count self
     = (get_active_count (remove_stream self camera_id).2
        + (if is_active self camera_id then 1 else 0))%nat /\
     is_active (remove_stream self camera_id).2 camera_id = false) /\
  (forall camera_id features other,
     get_active_count (update_stream_features self camera_id features)
     = get_active_count self /\
     is_active (update_stream_features self camera_id features) other
     = is_active self other) /\
  (forall camera,
     is_active self (Camera.id camera) = false ->
     remove_stream (add_stream_row self (Dict camera)).2 (Camera.id camera)
     = (true, self)).
Proof.
  assert (Hyes : forall (m : StreamManager.t) k s,
            m !! k = Some s -> is_active m k = true).
  { intros m k s E. unfold is_active. rewrite E.
    apply bool_decide_eq_true_2. by eexists. }
  assert (Hno : forall (m : StreamManager.t) k,
            m !! k = None -> is_active m k = false).
  { intros m k E. unfold is_active. rewrite E.
    apply bool_decide_eq_false_2. by intros [? ?]. }
  unfold get_active_count.
  split; [|split; [|split]].
  - intros row. cbv zeta. unfold add_stream_row.
    destruct (self !! row_id row) as [s|] eqn:E.
    + rewrite (Hyes _ _ _ E). cbn [fst snd negb andb orb].
      split; [done|]. split; [lia|]. split; [by apply (Hyes _ _ s)|].
      split; [done|]. intros camera. unfold add_stream_row, add_stream. done.
    + rewrite (Hno _ _ E). cbn [negb andb orb].
      destruct row as [camera|camera_id]; cbn [fst snd row_id] in *.
      * split; [done|]. split.
        { rewrite map_size_insert_None by done. lia. }
        split.
        { apply (Hyes _ _ (new_stream camera)). by rewrite lookup_insert_eq. }
        split; [done|]. intros camera'. done.
      * split; [done|]. split; [lia|]. split; [by apply Hno|].
        split; [done|]. intros camera. done.
  - intros cid. unfold remove_stream.
    destruct (self !! cid) as [s|] eqn:E; simpl.
    + rewrite (Hyes _ _ _ E). split; [done|]. split.
      * rewrite map_size_delete_Some by (rewrite E; by eexists).
        assert (size self <> 0)%nat; [|lia].
        intros H0. apply map_size_empty_inv in H0. subst.
        by rewrite lookup_empty in E.
      * apply Hno. by rewrite lookup_delete_eq.
    + rewrite (Hno _ _ E). split; [done|]. split; [lia|done].
  - intros cid features other. unfold update_stream_features, get_stream.
    destruct (self !! cid) as [s|] eqn:E; [|done]. split.
    + rewrite map_size_insert_Some; [done|]. rewrite E. by eexists.
    + destruct (decide (cid = other)) as [<-|Hne].
      * rewrite (Hyes _ _ _ E).
        apply (Hyes _ _ (update_features s features)). by rewrite lookup_insert_eq.
      * unfold is_active. by rewrite lookup_insert_ne.
  - intros cam Hna.
    assert (E : self !! Camera.id cam = None).
    { destruct (self !! Camera.id cam) as [s|] eqn:E; [|done].
      rewrite (Hyes _ _ _ E) in Hna. done. }
    unfold add_stream_row. cbn [row_id]. rewrite E. simpl. unfold remove_stream.
    rewrite lookup_insert_eq. rewrite delete_insert_eq. by rewrite delete_id.
Qed.

(** The theorem for a new registry: a camera whose features hold no
    dict is refused, a tracked camera is added and removed again. *)
Lemma registry_counts_its_streams_witness :
  add_stream_row StreamManager.init (NoDict "cam-9") = (false, StreamManager.init) /\
  remove_stream (add_stream_row StreamManager.init (Dict tracked_camera)).2
    (Camera.id tracked_camera) = (true, StreamManager.init).
Proof.
  split; [reflexivity|].
  apply (proj2 (proj2 (proj2 (registry_counts_its_streams StreamManager.init)))).
  reflexivity.
Defined.

End RegistryMore.

(** ** The relay: what is passed on, and with which credentials *)

Section RelayMore.
Import Relay.
Local Open Scope string_scope.

Lemma pass_through_until (chunks : list string) (disconnected : nat -> bool)
    (n k : nat) :
  (forall j, (j < k)%nat -> disconnected (n + j)%nat = false) ->
  disconnected (n + k)%nat = true \/ (length chunks <= k)%nat ->
  pass_through chunks disconnected n
  = filter (fun c => DigestAuth.nonempty c = true) (take k chunks).
Proof.
  revert n k. induction chunks as [|c rest IH]; intros n k Hbefore Hend.
  - by rewrite take_nil.
  - destruct k as [|k].
    + simpl. rewrite Nat.add_0_r in Hend.
      destruct Hend as [->|Hlen]; [done|simpl in Hlen; lia].
    + simpl. pose proof (Hbefore 0%nat ltac:(lia)) as H0.
      rewrite Nat.add_0_r in H0. rewrite H0.
      rewrite (IH (S n) k).
      * destruct (DigestAuth.nonempty c) eqn:E.
        -- by rewrite filter_cons_True.
        -- rewrite filter_cons_False; [done|]. by rewrite E.
      * intros j Hj. replace (S n + j)%nat with (n + S j)%nat by lia.
        apply Hbefore. lia.
      * destruct Hend as [Hd|Hlen]; [left|right; simpl in Hlen; lia].
        by replace (S n + k)%nat with (n + S k)%nat by lia.
Qed.

(** X23.  The relay passes the camera's body through as it is: once the
    camera has answered 200, the subscriber is sent the chunks of the
    body, in their order and unchanged, that arrived before it was first
    found disconnected (all of them if it never is), the empty ones left
    out; nothing is logged as an error. *)
Theorem relay_passes_the_body_through (username password : option string)
    (uri : string) (upstream : Upstream) (disconnected : nat -> bool)
    (cnonce : string) (probe response : Response) (k : nat) :
  upstream None = Some probe ->
  upstream (authorization_header username password uri probe cnonce)
    = Some response ->
  status response = 200%Z ->
  (forall j, (j < k)%nat -> disconnected j = false) ->
  disconnected k = true \/ (length (content response) <= k)%nat ->
  stream_generator username password uri upstream disconnected cnonce
  = {| yielded := filter (fun c => DigestAuth.nonempty c = true)
                    (take k (content response));
       logged_status := []; logged_exception := false |}.
Proof.
  intros Hprobe Hresp Hstatus Hbefore Hend.
  unfold stream_generator. rewrite Hprobe, Hresp, Hstatus. simpl.
  by rewrite (pass_through_until _ _ 0 k).
Qed.

Lemma relay_passes_the_body_through_witness :
  stream_generator None None "/video"
    (fun _ => Some {| status := 200; headers := ∅;
                      content := ["--myboundary"; ""; "frame-1"; "frame-2"] |})
    (fun j => bool_decide (j = 3%nat)) "0a4f113b"
  = {| yielded := ["--myboundary"; "frame-1"];
       logged_status := []; logged_exception := false |}.
Proof.
  apply (relay_passes_the_body_through None None "/video"
           (fun _ => Some {| status := 200; headers := ∅;
                             content := ["--myboundary"; ""; "frame-1"; "frame-2"] |})
           (fun j => bool_decide (j = 3%nat)) "0a4f113b"
           {| status := 200; headers := ∅;
              content := ["--myboundary"; ""; "frame-1"; "frame-2"] |}
           {| status := 200; headers := ∅;
              content := ["--myboundary"; ""; "frame-1"; "frame-2"] |} 3).
  - reflexivity.
  - reflexivity.
  - reflexivity.
  - intros j Hj. apply bool_decide_eq_false_2. lia.
  - left. reflexivity.
Defined.

Lemma prefix_append (a b : string) : String.prefix a (a ++ b) = true.
Proof.
  induction a as [|x a IH]; [by destruct b|].
  change (String.prefix (String x a) (String x (a ++ b)) = true).
  simpl. destruct (ascii_dec x x); [done|congruence].
Qed.

Lemma build_digest_header_prefix (self : DigestAuth.t) m u ch cn :
  String.prefix "Digest username="
    (DigestAuth._build_digest_header self m u ch cn).1 = true.
Proof.
  unfold DigestAuth._build_digest_header. cbv zeta. cbn [fst].
  repeat match goal with
         | |- context [if ?b then _ else _] => destruct b
         end;
    rewrite ?append_assoc; apply prefix_append.
Qed.

(** X24.  Which credentials the relay sends: without both a user name
    and a password (missing or empty) it sends no [Authorization] header,
    whatever the camera asked for; with both, it answers a 401 whose
    challenge mentions [Digest] with a Digest header, and in every other
    case (also when the camera asked for nothing, or for a scheme it does
    not know) it sends the credentials as Basic. *)
Theorem credentials_choose_the_scheme (username password : option string)
    (uri : string) (probe : Response) (cnonce : string) :
  let header := authorization_header username password uri probe cnonce in
  (given username && given password = false -> header = None) /\
  (given username && given password = true ->
   exists user pass value,
     username = Some user /\ password = Some pass /\ header = Some value /\
     if (status probe =? 401)%Z
        && is_in "Digest" (DigestAuth.get (headers probe) "WWW-Authenticate" "")
     then String.prefix "Digest username=" value = true
     else value = "Basic " ++ Base64.b64encode (user ++ ":" ++ pass)).
Proof.
  intros header. subst header. unfold authorization_header. split.
  - intros Hg. destruct username as [user|], password as [pass|]; try done.
    by rewrite Hg.
  - intros Hg. destruct username as [user|], password as [pass|]; try done.
    2:{ simpl in Hg. by rewrite andb_false_r in Hg. }
    rewrite Hg. exists user, pass.
    destruct (status probe =? 401)%Z; simpl.
    + destruct (is_in "Digest" _) eqn:Ed.
      * eexists. split; [done|]. split; [done|]. split; [done|].
        exact (build_digest_header_prefix (DigestAuth.init user pass) "GET" uri
                 (DigestAuth._parse_challenge
                    (DigestAuth.get (headers probe) "WWW-Authenticate" ""))
                 cnonce).
      * eexists. split; [done|]. split; [done|]. split; [|done].
        by destruct (is_in "Basic" _).
    + eexists. split; [done|]. split; [done|]. split; done.
Qed.

Lemma credentials_choose_the_scheme_witness :
  authorization_header (Some "admin") (Some "secret") "/video"
    {| status := 200; headers := ∅; content := [] |} "0a4f113b"
  = Some ("Basic " ++ Base64.b64encode ("admin" ++ ":" ++ "secret")).
Proof.
  destruct (proj2 (credentials_choose_the_scheme (Some "admin") (Some "secret")
                     "/video" {| status := 200; headers := ∅; content := [] |}
                     "0a4f113b") eq_refl)
    as (user & pass & value & Hu & Hp & Hh & Hv).
  simpl in Hv. inversion Hu; inversion Hp; subst. exact Hh.
Defined.

(** X25.  What the endpoint answers before any byte is relayed: an
    unknown camera gets 404 and one without a stream URL 400; when the
    camera service or the reading of the URL's port raises, the reply is
    500 with the text of the exception; for none of the three is the
    camera contacted.  Every other request is opened as a streaming
    reply with status 200 and the five fixed headers, whose body is
    exactly what the generator yields; and when the camera cannot be
    reached the body is empty and the failure is only logged. *)
Theorem endpoint_replies (camera_id : string) (setup : Setup)
    (upstream : Upstream) (disconnected : nat -> bool) (cnonce : string) :
  let '(reply, trace) :=
    proxy_camera_stream_try camera_id setup upstream disconnected cnonce in
  match setup with
  | Raises message => reply = HTTPException 500 message /\ yielded trace = []
  | NotFound => reply_status reply = 404%Z /\ yielded trace = []
  | NoUrl => reply_status reply = 400%Z /\ yielded trace = []
  | Parsed parsed =>
      reply = StreamingResponse 200
                "multipart/x-mixed-replace; boundary=myboundary"
                streaming_headers (yielded trace) /\
      (upstream None = None ->
       yielded trace = [] /\ logged_exception trace = true) /\
      (forall probe,
         upstream None = Some probe ->
         upstream (authorization_header (url_username parsed)
                     (url_password parsed) (request_uri parsed) probe cnonce)
         = None ->
         yielded trace = [] /\ logged_exception trace = true)
  end /\
  (reply_status reply = 200%Z <-> exists parsed, setup = Parsed parsed) /\
  (forall other, (forall parsed, setup <> Parsed parsed) ->
     proxy_camera_stream_try camera_id setup other disconnected cnonce
     = (reply, trace)).
Proof.
  destruct setup as [message| | |parsed]; simpl.
  - split; [done|]. split; [|done]. split; [done|]. by intros [? ?].
  - split; [done|]. split; [|done]. split; [done|]. by intros [? ?].
  - split; [done|]. split; [|done]. split; [done|]. by intros [? ?].
  - split; [|split].
    + split; [done|]. unfold stream_generator. split.
      * by intros ->.
      * by intros probe -> ->.
    + split; [by eexists|done].
    + intros other H. by destruct (H parsed).
Qed.

End RelayMore.

(** ** The tracker: the objects it holds *)

Section TrackerObjects.
Import PyDict Tracker.
Local Open Scope R_scope.

Lemma deque_append_last {A} (n : nat) (x : A) (q : list A) :
  (1 <= n)%nat ->
  last (deque_append n x q) = Some x /\
  (length (deque_append n x q) <= n)%nat.
Proof.
  intros Hn. unfold deque_append. rewrite length_app. simpl. split.
  - rewrite drop_app_le by lia. apply last_snoc.
  - rewrite length_drop, length_app. simpl. lia.
Qed.

Lemma for_each_preserves {S A} (body : S -> A -> option S) (P : S -> Prop)
    (xs : list A) (s s' : S) :
  (forall x t t', body t x = Some t' -> P t -> P t') ->
  for_each body xs s = Some s' -> P s -> P s'.
Proof.
  intros Hbody. revert s. induction xs as [|x xs IH]; intros s H Hs; simpl in H.
  - by inversion H; subst.
  - destruct (body s x) as [t|] eqn:E; [|done]. simpl in H.
    apply (IH t H). by apply (Hbody x s).
Qed.

(** The maps are in order and every object is. *)
Local Abbreviation sane self := (consistent self /\ objects_ok self).

Lemma sane_register env w self c det :
  sane self -> sane (register env w self c det).1.2.
Proof.
  intros [Hc Hok]. split; [by apply consistent_register|].
  intros tid o. unfold register, objects_ok, object_ok. simpl.
  destruct (decide (uuid4_prefix env (uuid_calls w) = tid)) as [<-|Hne].
  - rewrite !get_set_eq. intros [= <-]. simpl.
    destruct (deque_append_last 100 c [] ltac:(lia)) as [Hl Hlen].
    repeat split; first [done | lia | lra].
  - rewrite !get_set_ne by done. apply Hok.
Qed.

Lemma sane_deregister self tid : sane self -> sane (deregister self tid).
Proof.
  intros [Hc Hok]. split; [by apply consistent_deregister|].
  intros k o. unfold deregister, objects_ok, object_ok. simpl.
  destruct (decide (tid = k)) as [<-|Hne].
  - rewrite get_pop_eq by apply Hc. done.
  - rewrite !get_pop_ne by done. apply Hok.
Qed.

Lemma sane_mark_disappeared self tid self' :
  mark_disappeared self tid = Some self' -> sane self -> sane self'.
Proof.
  intros H [Hc Hok].
  assert (Hin : tid ∈ keys (objects self)).
  { unfold mark_disappeared in H.
    destruct (get tid (disappeared self)); [|done]. simpl in H.
    destruct (get tid (objects self)) eqn:E; [|done].
    by apply get_Some_keys in E. }
  destruct (mark_disappeared_spec self tid Hc Hin)
    as (s & E & Hc' & [Hmd _] & Haged & Hun & Hsub).
  rewrite E in H. inversion H; subst s. split; [done|].
  intros k o' Hk. destruct (decide (k = tid)) as [->|Hne].
  - destruct (keys_get_is_Some _ _ Hin) as [o Ho].
    destruct (Hok _ _ Ho) as (Hid & Hh & Ht0 & Ha & Hd & Hmax & Hl & Hlen & Hdt).
    specialize (Haged _ _ Ho Hd).
    destruct (bool_decide (time_since_update o + 1 > max_disappeared self)%Z) eqn:Eb.
    + destruct Haged as [Hnone _]. congruence.
    + destruct Haged as (Ho' & Hd' & _). rewrite Ho' in Hk. inversion Hk; subst o'.
      apply bool_decide_eq_false in Eb.
      unfold object_ok. simpl. rewrite Hmd.
      repeat split; try done; lia.
  - destruct (Hun k Hne) as (Ho & Hd & _). rewrite Ho in Hk.
    destruct (Hok _ _ Hk) as (Hid & Hh & Ht0 & Ha & Hd0 & Hmax & Hl & Hlen & Hdt).
    unfold object_ok. rewrite Hd, Hmd. done.
Qed.

Lemma sane_match_object env D ids dets ics (st st' : match_state) rc :
  match_object env D ids dets ics st rc = Some st' ->
  sane st.1.1.1 -> sane st'.1.1.1.
Proof.
  destruct st as [[[self w] ur] uc], rc as [row col]. unfold match_object.
  destruct (_ || _); [by intros [= <-]|].
  destruct (Rgt_dec _ _); [by intros [= <-]|].
  destruct (ids !! row) as [tid|]; [|done]. simpl.
  destruct (dets !! col) as [det|]; [|done]. simpl.
  destruct (ics !! col) as [c|]; [|done]. simpl.
  destruct (get tid (objects self)) as [o|] eqn:Eo; [|done]. simpl.
  destruct (get tid (kalman_filters self)) as [kf|]; [|done]. simpl.
  intros [= <-] [Hc Hok]. simpl.
  split; [apply consistent_set_present; [done|by apply get_Some_keys in Eo]|].
  intros k o'. unfold objects_ok, object_ok. simpl.
  destruct (decide (tid = k)) as [<-|Hne].
  - rewrite !get_set_eq. intros [= <-]. simpl.
    destruct (Hok _ _ Eo) as (Hid & Hh & Ht0 & Ha & Hd & Hmax & Hl & Hlen & Hdt).
    destruct (deque_append_last 100 c (trajectory o) ltac:(lia)) as [Hl' Hlen'].
    repeat split; try done; try lia.
    apply Rplus_le_le_0_compat; [done|apply sqrt_pos].
  - rewrite !get_set_ne by done. apply Hok.
Qed.

Lemma sane_register_detection env dets ics (st st' : Tracker.t * World) col :
  register_detection env dets ics st col = Some st' ->
  sane st.1 -> sane st'.1.
Proof.
  unfold register_detection.
  destruct (ics !! col) as [c|]; [|done]. simpl.
  destruct (dets !! col) as [det|]; [|done]. simpl.
  intros H Hs. pose proof (sane_register env st.2 st.1 c det Hs) as Hr.
  unfold register in H, Hr. cbv zeta in H. inversion H; subst st'. exact Hr.
Qed.

Lemma sane_update env w self dets r self' w' :
  update env w self dets = Some (r, self', w') -> sane self -> sane self'.
Proof.
  intros H Hs. unfold update in H. destruct dets as [|det dets].
  - destruct (for_each mark_disappeared _ self) as [s|] eqn:E; [|done].
    simpl in H. inversion H; subst.
    apply (for_each_preserves _ (fun s => sane s) _ _ _
             (fun x t t' => sane_mark_disappeared t x t') E Hs).
  - destruct (objects self) as [|kv objs] eqn:Eobjs.
    + destruct (for_each _ _ (self, w)) as [[s w1]|] eqn:E; [|done].
      simpl in H. inversion H; subst.
      apply (for_each_preserves _ (fun st : Tracker.t * World => sane st.1) _ _ _
               (fun x t t' => sane_register_detection env _ _ t t' x) E Hs).
    + cbv zeta in H.
      destruct (mapM _ _) as [ocs|]; [|done]. cbn [mbind option_bind] in H.
      destruct (for_each (match_object _ _ _ _ _) _ _)
        as [[[[s1 w1] ur] uc]|] eqn:E1; [|done].
      cbn [mbind option_bind] in H.
      destruct (for_each (unmatched_object _) _ s1) as [s2|] eqn:E2; [|done].
      cbn [mbind option_bind] in H.
      destruct (for_each (register_detection _ _ _) _ (s2, w1))
        as [[s3 w3]|] eqn:E3; [|done].
      cbn [mbind option_bind] in H. inversion H; subst.
      pose proof (for_each_preserves _ (fun st : match_state => sane st.1.1.1)
                    _ _ _ (fun x t t' => sane_match_object env _ _ _ _ t t' x)
                    E1 Hs) as Hs1.
      assert (Hs2 : sane s2).
      { refine (for_each_preserves _ (fun s => sane s) _ _ _ _ E2 Hs1).
        intros row t t' Hb. unfold unmatched_object in Hb.
        destruct (_ !! row) as [tid|]; [|done]. simpl in Hb.
        by apply (sane_mark_disappeared t tid). }
      apply (for_each_preserves _ (fun st : Tracker.t * World => sane st.1) _ _ _
               (fun x t t' => sane_register_detection env _ _ t t' x) E3 Hs2).
Qed.

Lemma max_disappeared_mark self tid self' :
  mark_disappeared self tid = Some self' ->
  max_disappeared self' = max_disappeared self.
Proof.
  unfold mark_disappeared.
  destruct (get tid (disappeared self)); [|done]. simpl.
  destruct (get tid (objects self)); [|done]. simpl.
  destruct (get tid (set _ _ _)); [|done]. simpl.
  by destruct (bool_decide _); intros [= <-].
Qed.

Lemma max_disappeared_match env D ids dets ics (st st' : match_state) rc :
  match_object env D ids dets ics st rc = Some st' ->
  max_disappeared st'.1.1.1 = max_disappeared st.1.1.1.
Proof.
  destruct st as [[[self w] ur] uc], rc as [row col]. unfold match_object.
  destruct (_ || _); [by intros [= <-]|].
  destruct (Rgt_dec _ _); [by intros [= <-]|].
  destruct (ids !! row) as [tid|]; [|done]. simpl.
  destruct (dets !! col) as [det|]; [|done]. simpl.
  destruct (ics !! col) as [c|]; [|done]. simpl.
  destruct (get tid (objects self)) as [o|]; [|done]. simpl.
  destruct (get tid (kalman_filters self)) as [kf|]; [|done]. simpl.
  by intros [= <-].
Qed.

Lemma max_disappeared_update env w self dets r self' w' :
  update env w self dets = Some (r, self', w') ->
  max_disappeared self' = max_disappeared self.
Proof.
  intros H. unfold update in H.
  assert (Hreg : forall ds ics x (t t' : Tracker.t * World),
            register_detection env ds ics t x = Some t' ->
            max_disappeared t.1 = max_disappeared self ->
            max_disappeared t'.1 = max_disappeared self).
  { intros ds ics x t t'. unfold register_detection.
    destruct (ics !! x); [|done]. simpl. destruct (ds !! x); [|done]. simpl.
    unfold register. by intros [= <-]. }
  destruct dets as [|det dets].
  - destruct (for_each mark_disappeared _ self) as [s|] eqn:E; [|done].
    simpl in H. inversion H; subst.
    refine (for_each_preserves _
              (fun s => max_disappeared s = max_disappeared self) _ _ _ _ E eq_refl).
    intros x t t' Hb <-. by apply (max_disappeared_mark t x).
  - destruct (objects self) as [|kv objs] eqn:Eobjs.
    + destruct (for_each _ _ (self, w)) as [[s w1]|] eqn:E; [|done].
      simpl in H. inversion H; subst.
      apply (for_each_preserves _
               (fun st : Tracker.t * World =>
                  max_disappeared st.1 = max_disappeared self) _ _ _
               (Hreg _ _) E eq_refl).
    + cbv zeta in H.
      destruct (mapM _ _) as [ocs|]; [|done]. cbn [mbind option_bind] in H.
      destruct (for_each (match_object _ _ _ _ _) _ _)
        as [[[[s1 w1] ur] uc]|] eqn:E1; [|done].
      cbn [mbind option_bind] in H.
      destruct (for_each (unmatched_object _) _ s1) as [s2|] eqn:E2; [|done].
      cbn [mbind option_bind] in H.
      destruct (for_each (register_detection _ _ _) _ (s2, w1))
        as [[s3 w3]|] eqn:E3; [|done].
      cbn [mbind option_bind] in H. inversion H; subst.
      assert (H1 : max_disappeared s1 = max_disappeared self).
      { refine (for_each_preserves _
                  (fun st : match_state =>
                     max_disappeared st.1.1.1 = max_disappeared self)
                  _ _ _ _ E1 eq_refl).
        intros rc t t' Hb <-. by apply (max_disappeared_match _ _ _ _ _ _ _ _ Hb). }
      assert (H2 : max_disappeared s2 = max_disappeared self).
      { refine (for_each_preserves _
                  (fun s => max_disappeared s = max_disappeared self)
                  _ _ _ _ E2 H1).
        intros row t t' Hb <-. unfold unmatched_object in Hb.
        destruct (_ !! row) as [tid|]; [|done]. simpl in Hb.
        by apply (max_disappeared_mark t tid). }
      apply (for_each_preserves _
               (fun st : Tracker.t * World =>
                  max_disappeared st.1 = max_disappeared self) _ _ _
               (Hreg _ _) E3 H2).
Qed.

(** X26.  Every object a tracker holds is well formed: after any
    sequence of updates, registrations and removals on a new tracker, the
    object kept under a track id carries that id, has been seen at least
    once, is at least as old as its sightings and its misses together,
    its [time_since_update] is the count the tracker keeps in
    [disappeared] and never exceeds [max_disappeared] (0 if that is
    negative), its trajectory ends at its centroid and holds at most 100
    points, and its distance travelled is not negative. *)
Theorem tracked_objects_are_well_formed env (ops : list op) (md : Z) (mx : R) :
  exists self w, run env ops (Tracker.init md mx) = Some (self, w) /\
    forall tid o, get tid (objects self) = Some o ->
      track_id o = tid /\
      (1 <= hits o)%Z /\
      (0 <= time_since_update o)%Z /\
      (hits o + time_since_update o <= age o)%Z /\
      get tid (disappeared self) = Some (time_since_update o) /\
      (time_since_update o <= Z.max 0 md)%Z /\
      last (trajectory o) = Some (centroid o) /\
      (length (trajectory o) <= 100)%nat /\
      0 <= distance_traveled o.
Proof.
  destruct (run_spec env ops md mx) as (self & w & Hrun & _).
  exists self, w. split; [done|].
  assert (H : sane self /\ max_disappeared self = md).
  { unfold run in Hrun.
    refine (for_each_preserves _
              (fun st : Tracker.t * World =>
                 sane st.1 /\ max_disappeared st.1 = md) _ _ _ _ Hrun _).
    - intros o [t tw] [t' tw'] Hb [Hs Hmd]. simpl in *.
      destruct o as [c det|tid|dets]; simpl in Hb.
      + pose proof (sane_register env tw t c det Hs) as Hr.
        unfold register in Hb, Hr. inversion Hb; subst. done.
      + inversion Hb; subst. split; [by apply sane_deregister|done].
      + destruct (update env tw t dets) as [[[r u] uw]|] eqn:E; [|done].
        simpl in Hb. inversion Hb; subst. split.
        * by apply (sane_update _ _ _ _ _ _ _ E).
        * by rewrite (max_disappeared_update _ _ _ _ _ _ _ E).
    - simpl. split; [|done]. split; [apply consistent_init|].
      intros tid o Ho. done. }
  destruct H as [[_ Hok] Hmd]. intros tid o Ho.
  specialize (Hok tid o Ho). unfold object_ok in Hok. by rewrite Hmd in Hok.
Qed.

End TrackerObjects.

(** ** The tracker: the first frame *)

Section FirstFrame.
Import PyDict Tracker.
Local Open Scope R_scope.

Lemma register_seq env (dets : list Detection) (m a : nat)
    (self : Tracker.t) (w : World) :
  (a + m <= length dets)%nat ->
  NoDup (keys (objects self)
         ++ map (uuid4_prefix env) (seq (uuid_calls w) m)) ->
  consistent self ->
  exists self' w',
    for_each (register_detection env dets (map centroid_of dets))
      (seq a m) (self, w) = Some (self', w') /\
    keys (objects self')
      = keys (objects self) ++ map (uuid4_prefix env) (seq (uuid_calls w) m) /\
    uuid_calls w' = (uuid_calls w + m)%nat /\
    consistent self' /\
    (forall k, k ∈ keys (objects self) ->
       get k (objects self') = get k (objects self)) /\
    (forall t det, (t < m)%nat -> dets !! (a + t)%nat = Some det ->
       get (uuid4_prefix env (uuid_calls w + t)) (objects self')
       = Some (fresh_object (uuid4_prefix env (uuid_calls w + t)) det
                 (time_time env (clock_calls w + t)))).
Proof.
  revert a self w. induction m as [|m IH]; intros a self w Hlen Hnd Hc.
  - exists self, w. simpl. rewrite app_nil_r.
    split; [done|]. split; [done|]. split; [lia|]. split; [done|].
    split; [done|]. intros t det Ht. lia.
  - destruct (lookup_lt_is_Some_2 dets a ltac:(lia)) as [det0 Hdet0].
    set (u0 := uuid4_prefix env (uuid_calls w)).
    set (st1 := register env w self (centroid_of det0) det0).
    assert (Hstep : register_detection env dets (map centroid_of dets) (self, w) a
                    = Some (st1.1.2, st1.2)).
    { unfold register_detection. rewrite lookup_map, Hdet0. done. }
    cbn [seq for_each]. rewrite Hstep. cbn [mbind option_bind].
    assert (Hu0 : u0 ∉ keys (objects self)).
    { cbn [seq map] in Hnd. apply NoDup_app in Hnd as (_ & Hdisj & _).
      intros Hin. apply (Hdisj _ Hin). left. }
    assert (Hk1 : keys (objects st1.1.2) = keys (objects self) ++ [u0]).
    { subst st1. unfold register. simpl. by apply keys_set_new. }
    assert (Hc1 : consistent st1.1.2) by (by apply consistent_register).
    assert (Hw1 : uuid_calls st1.2 = S (uuid_calls w)) by done.
    assert (Hcl1 : clock_calls st1.2 = S (clock_calls w)) by done.
    destruct (IH (S a) st1.1.2 st1.2) as (self' & w' & E & Hk & Hu & Hc' & Hold & Hnew).
    { lia. }
    { rewrite Hk1, Hw1. cbn [seq map] in Hnd. by rewrite <- app_assoc. }
    { done. }
    exists self', w'. split.
    { exact E. }
    split. { rewrite Hk, Hk1, Hw1. cbn [seq map]. by rewrite <- app_assoc. }
    split. { rewrite Hu, Hw1. lia. }
    split; [done|]. split.
    + intros k Hk0. rewrite Hold.
      * subst st1. unfold register. simpl. apply get_set_ne.
        intros Heq. apply Hu0. subst u0. by rewrite Heq.
      * rewrite Hk1. apply elem_of_app. by left.
    + intros t det Ht Hdet. destruct t as [|t].
      * rewrite !Nat.add_0_r in *. rewrite Hdet0 in Hdet. inversion Hdet; subst det0.
        rewrite Hold.
        -- subst st1. unfold register. simpl. by rewrite get_set_eq.
        -- rewrite Hk1. apply elem_of_app. right. left.
      * replace (uuid_calls w + S t)%nat with (uuid_calls st1.2 + t)%nat
          by (rewrite Hw1; lia).
        replace (clock_calls w + S t)%nat with (clock_calls st1.2 + t)%nat
          by (rewrite Hcl1; lia).
        apply Hnew; [lia|]. by replace (S a + t)%nat with (a + S t)%nat by lia.
Qed.

(** X27.  The first frame starts one track per detection: a tracker that
    holds no object, given detections, registers every one of them, in
    their order, under the ids drawn for them (as long as these draws
    differ from one another); each new object has the class, the box and
    the box centre of its detection, no velocity, age 1 and one hit; and
    the objects returned are as many as the detections. *)
Theorem first_frame_registers_every_detection env w (self : Tracker.t)
    (detections : list Detection) :
  consistent self -> objects self = [] -> detections <> [] ->
  NoDup (map (uuid4_prefix env) (seq (uuid_calls w) (length detections))) ->
  exists self' w',
    update env w self detections = Some (objects self', self', w') /\
    keys (objects self')
      = map (uuid4_prefix env) (seq (uuid_calls w) (length detections)) /\
    length (objects self') = length detections /\
    uuid_calls w' = (uuid_calls w + length detections)%nat /\
    (forall i det, detections !! i = Some det ->
       get (uuid4_prefix env (uuid_calls w + i)) (objects self')
       = Some (fresh_object (uuid4_prefix env (uuid_calls w + i)) det
                 (time_time env (clock_calls w + i)))).
Proof.
  intros Hc Hobjs Hdets Hnd.
  destruct (register_seq env detections (length detections) 0 self w)
    as (self' & w' & E & Hk & Hu & Hc' & _ & Hnew).
  { lia. }
  { by rewrite Hobjs. }
  { done. }
  exists self', w'. rewrite Hobjs in Hk. simpl in Hk.
  split.
  { unfold update. destruct detections as [|det dets]; [done|].
    rewrite Hobjs. by rewrite E. }
  split; [done|]. split.
  { rewrite <- (length_map fst (objects self')). fold (keys (objects self')).
    by rewrite Hk, length_map, length_seq. }
  split; [done|].
  intros i det Hi. apply Hnew; [|done]. by apply lookup_lt_Some in Hi.
Qed.

Lemma first_frame_registers_every_detection_witness :
  exists self' w',
    update colliding_env world0 default [car] = Some (objects self', self', w') /\
    keys (objects self') = ["deadbeef"%string].
Proof.
  destruct (first_frame_registers_every_detection colliding_env world0 default [car]
              (consistent_init 30 100) eq_refl ltac:(discriminate)
              ltac:(apply NoDup_singleton))
    as (self' & w' & E & Hk & _).
  by exists self', w'.
Defined.

End FirstFrame.

(** ** The tracker: registering and removing *)

Section RegisterDeregister.
Import PyDict Tracker.
Local Open Scope R_scope.

Lemma pop_absent {V} (d : dict V) (k : string) : k ∉ keys d -> pop k d = d.
Proof.
  induction d as [|[k' v] d IH]; [done|]. simpl. intros Hk.
  apply not_elem_of_cons in Hk as [Hne Hk].
  destruct (String.eqb_spec k k') as [->|_]; [done|]. by rewrite IH.
Qed.

Lemma pop_set_new {V} (d : dict V) (k : string) (v : V) :
  k ∉ keys d -> pop k (set k v d) = d.
Proof.
  induction d as [|[k' v'] d IH]; simpl.
  - intros _. by rewrite String.eqb_refl.
  - intros Hk. apply not_elem_of_cons in Hk as [Hne Hk].
    destruct (String.eqb_spec k k') as [->|_]; [done|]. simpl.
    destruct (String.eqb_spec k k') as [->|_]; [done|]. by rewrite IH.
Qed.

(** X28.  Removing a track undoes its registration: in a tracker whose
    three maps agree, [deregister] of an id it does not hold changes
    nothing, [deregister] of the id [register] has just issued gives the
    tracker back as it was when that id was new, and after [deregister]
    the id is in none of the three maps. *)
Theorem deregister_undoes_register env w (self : Tracker.t) (c : point)
    (det : Detection) (track_id : string) :
  consistent self ->
  (track_id ∉ keys (objects self) -> deregister self track_id = self) /\
  (uuid4_prefix env (uuid_calls w) ∉ keys (objects self) ->
   deregister (register env w self c det).1.2 (register env w self c det).1.1
   = self) /\
  get track_id (objects (deregister self track_id)) = None /\
  get track_id (disappeared (deregister self track_id)) = None /\
  get track_id (kalman_filters (deregister self track_id)) = None.
Proof.
  intros (Hd & Hk & Hnd). split; [|split].
  - intros Hnot. unfold deregister, with_maps.
    rewrite !pop_absent by (by rewrite ?Hd, ?Hk). by destruct self.
  - intros Hnot. unfold deregister, register, with_maps. simpl.
    rewrite !pop_set_new by (by rewrite ?Hd, ?Hk). by destruct self.
  - unfold deregister. simpl.
    rewrite !get_pop_eq by (by rewrite ?Hd, ?Hk). done.
Qed.

Lemma deregister_undoes_register_witness :
  deregister one_car "deadbeef" = default.
Proof.
  apply (proj1 (proj2 (deregister_undoes_register colliding_env world0 default
                         (centroid_of car) car "deadbeef"
                         (consistent_init 30 100)))).
  simpl. apply not_elem_of_nil.
Defined.

End RegisterDeregister.

(** ** The frame loop of the socket *)

Section FrameLoop.
Import FPSRateLimiter Websocket.

Lemma frame_loop_offer (frames : list (option Q)) (fc pc : nat)
    (lim : FPSRateLimiter.t) :
  fold_left frame_loop_step frames (fc, pc, lim)
  = ((fc + length (omap (fun frame : option Q => frame) frames))%nat,
     (pc + length (accepted (omap (fun frame : option Q => frame) frames)
                     (offer lim (omap (fun frame : option Q => frame) frames)).1))%nat,
     (offer lim (omap (fun frame : option Q => frame) frames)).2).
Proof.
  revert fc pc lim. induction frames as [|[now|] frames IH]; intros fc pc lim.
  - cbn [fold_left omap list_omap offer accepted length fst snd].
    by rewrite !Nat.add_0_r.
  - cbn [fold_left frame_loop_step omap list_omap offer].
    destruct (should_process_frame lim now) as [go lim'] eqn:E.
    rewrite IH. destruct (offer lim' (omap (fun frame : option Q => frame) frames)) as [ds lim''] eqn:Eo.
    cbn [fst snd accepted length]. destruct go; cbn [length]; f_equal; f_equal; lia.
  - cbn [fold_left frame_loop_step omap list_omap]. apply IH.
Qed.

(** X29.  The socket's frame loop and its limiter: the limiter is built
    for the camera's [fps], or for 15 when that is 0, so its target is
    never 0; [frame_count] counts the frames read and [processed_count]
    the frames the limiter let through, which is the limiter's own
    [frame_count]; and for a camera whose [fps] is not negative, two
    frames processed one after the other are at least [1/target_fps]
    apart on the limiter's clock. *)
Theorem frame_loop_is_throttled (camera : Camera.t) (start : Q)
    (frames : list (option Q)) :
  let '(frame_count, processed_count, fps_limiter) :=
    frame_loop camera start frames in
  let readings := omap (fun frame : option Q => frame) frames in
  let target := inject_Z (target_fps camera) in
  let processed :=
    accepted readings (offer (FPSRateLimiter.init target start) readings).1 in
  target_fps camera <> 0%Z /\
  (Camera.fps camera = 0%Z -> target_fps camera = 15%Z) /\
  frame_count = length readings /\
  (processed_count <= frame_count)%nat /\
  processed_count = length processed /\
  FPSRateLimiter.frame_count fps_limiter = Z.of_nat processed_count /\
  ((0 <= Camera.fps camera)%Z ->
   forall i a b, processed !! i = Some a -> processed !! S i = Some b ->
     (1 / target <= b - a)%Q).
Proof.
  unfold frame_loop. rewrite frame_loop_offer. cbv zeta. cbn [Nat.add].
  set (target := inject_Z (target_fps camera)).
  set (readings := omap (fun frame : option Q => frame) frames).
  pose proof (offer_frame_count (FPSRateLimiter.init target start) readings)
    as (Hc & _ & _).
  pose proof (offer_spaced (FPSRateLimiter.init target start) readings) as Hsp.
  assert (Hlen : forall (us : list Q) (ds : list bool),
            (length (accepted us ds) <= length us)%nat).
  { induction us as [|u us IH]; intros [|[] ds]; simpl; try lia.
    - specialize (IH ds). lia.
    - specialize (IH ds). lia. }
  assert (Hne : target_fps camera <> 0%Z).
  { unfold target_fps. destruct (bool_decide _) eqn:E; [done|].
    by apply bool_decide_eq_false in E. }
  split; [done|]. split.
  { intros H0. unfold target_fps. by rewrite bool_decide_eq_true_2. }
  split; [done|]. split; [apply Hlen|]. split; [done|].
  split; [simpl in Hc; lia|].
  intros Hfps i a b Ha Hb.
  assert (Hpos : (0 < target)%Q).
  { subst target. unfold target_fps in *.
    destruct (bool_decide _) eqn:E; [done|].
    apply bool_decide_eq_false in E.
    change 0%Q with (inject_Z 0). rewrite <- Zlt_Qlt. lia. }
  simpl in Hsp. rewrite (interval_of_pos _ Hpos) in Hsp.
  by apply (spaced_lookup _ None _ i a b Hsp).
Qed.

End FrameLoop.

(** ** The parsed challenge *)

Section ChallengeMore.
Import DigestAuth.
Local Open Scope string_scope.

Lemma span_all (p : ascii -> bool) (s : string) :
  Forall (fun c => p c = true) (list_ascii_of_string (span p s).1).
Proof.
  induction s as [|c s IH]; simpl; [constructor|].
  destruct (p c) eqn:E; [|constructor].
  destruct (span p s) as [a b]. simpl in *. by constructor.
Qed.

Lemma span_head (p : ascii -> bool) (c : ascii) (s : string) :
  p c = true -> exists a, (span p (String c s)).1 = String c a.
Proof.
  intros E. simpl. rewrite E. destruct (span p s) as [a b]. by exists a.
Qed.

Lemma lstrip_quotes_head (s : string) (c : ascii) (r : string) :
  lstrip_quotes s = String c r -> is_quote c = false.
Proof.
  induction s as [|x s IH]; simpl; [done|].
  destruct (is_quote x) eqn:E; [done|]. by intros [= <- <-].
Qed.

Lemma rstrip_quotes_head (c : ascii) (s : string) (c' : ascii) (r : string) :
  rstrip_quotes (String c s) = String c' r -> c' = c.
Proof.
  simpl. destruct (rstrip_quotes s); [destruct (is_quote c)|]; congruence.
Qed.

Lemma rstrip_quotes_idem (s : string) :
  rstrip_quotes (rstrip_quotes s) = rstrip_quotes s.
Proof.
  induction s as [|c s IH]; [done|]. simpl.
  destruct (rstrip_quotes s) as [|d r] eqn:E.
  - destruct (is_quote c) eqn:Eq; [done|]. simpl. by rewrite Eq.
  - change (rstrip_quotes (String c (String d r))) with
      (match rstrip_quotes (String d r) with
       | EmptyString => if is_quote c then "" else String c ""
       | r0 => String c r0
       end).
    by rewrite IH.
Qed.

Lemma strip_quotes_idem (s : string) :
  strip_quotes (strip_quotes s) = strip_quotes s /\
  forall c r, strip_quotes s = String c r -> is_quote c = false.
Proof.
  unfold strip_quotes.
  assert (Hhead : forall c r, rstrip_quotes (lstrip_quotes s) = String c r ->
                    is_quote c = false).
  { intros c r H. destruct (lstrip_quotes s) as [|x t] eqn:E; [done|].
    apply rstrip_quotes_head in H as ->. by apply (lstrip_quotes_head s x t). }
  split; [|done].
  destruct (rstrip_quotes (lstrip_quotes s)) as [|c r] eqn:E; [done|].
  assert (Hl : lstrip_quotes (String c r) = String c r).
  { simpl. by rewrite (Hhead c r eq_refl). }
  rewrite Hl, <- E. apply rstrip_quotes_idem.
Qed.

Lemma parse_from_clean (fuel : nat) (s : string) (ch : gmap string string) :
  map_Forall clean ch -> map_Forall clean (parse_from fuel s ch).
Proof.
  revert s ch. induction fuel as [|fuel IH]; intros s ch Hch; [done|].
  destruct s as [|c rest]; [done|]. cbn [parse_from].
  destruct (is_word c) eqn:Ew; [|by apply IH].
  destruct (span_head is_word c rest Ew) as [a Ha].
  pose proof (span_all is_word (String c rest)) as Hall.
  destruct (span is_word (String c rest)) as [key after_key]. simpl in Ha, Hall.
  destruct after_key as [|eq after_eq]; [done|].
  destruct (Ascii.eqb eq "=") eqn:Eeq; [|by apply IH].
  destruct (match_value after_eq) as [value after_value].
  apply IH. apply map_Forall_insert_2; [|done].
  destruct (strip_quotes_idem value) as [Hidem Hhead].
  split; [by rewrite Ha|]. split; [done|]. split; [done|].
  intros x r Hx. by apply (Hhead x r).
Qed.

(** X30.  What [_parse_challenge] puts into the challenge: every key is
    a non-empty run of word characters, and every value has had its
    double quotes stripped, so it does not begin with one and stripping
    it again changes nothing. *)
Theorem parsed_challenge_is_clean (www_authenticate key value : string) :
  _parse_challenge www_authenticate !! key = Some value ->
  key <> "" /\
  Forall (fun c => is_word c = true) (list_ascii_of_string key) /\
  strip_quotes value = value /\
  (forall c r, value = String c r -> is_quote c = false).
Proof.
  intros H.
  pose proof (parse_from_clean (String.length www_authenticate)
                www_authenticate ∅ (map_Forall_empty _)) as Hall.
  exact (Hall key value H).
Qed.

Lemma parsed_challenge_is_clean_witness :
  strip_quotes "testrealm@host.com" = "testrealm@host.com".
Proof.
 apply (parsed_challenge_is_clean
           ("Digest realm=" ++ dq ++ "testrealm@host.com" ++ dq ++ ", nonce=abc")
           "realm" "testrealm@host.com").
  vm_compute. reflexivity.
Defined.

End ChallengeMore.
